(** * NitroShare transfer core: a shallow embedding of
      [libnitroshare/src/transfer/transfer.cpp]

    The development follows the C++ source function by function.  A
    [TransferPrivate] object becomes a record, the Qt objects it talks to
    (transport, logger, signal receivers) become an output trace, and the
    items it opens, reads, writes, closes and deletes live in an explicit
    object store addressed by pointers.  Every member function is a
    computation in a small state / output / undefined-behaviour monad. *)

From Stdlib Require Import ZArith List String Ascii Lia Bool.
From Stdlib Require Import DecimalString DecimalPos DecimalZ.
From stdpp Require Import base option list gmap strings.

#[local] Set Warnings "-register-all".
#[local] Open Scope string_scope.
#[local] Open Scope Z_scope.

(** ** Machine integers *)

Module MachineInt.

(** Two's complement wrap-around of a [w]-bit signed integer. *)
Definition wrap (w : Z) (z : Z) : Z :=
  (z + 2 ^ (w - 1)) mod 2 ^ w - 2 ^ (w - 1).

Definition int_min : Z := - 2 ^ 31.
Definition int_max : Z := 2 ^ 31 - 1.
Definition qint64_min : Z := - 2 ^ 63.
Definition qint64_max : Z := 2 ^ 63 - 1.

(** [int] and [qint64] arithmetic as the targets compute it. *)
Definition int_add (a b : Z) : Z := wrap 32 (a + b).
Definition qint64_add (a b : Z) : Z := wrap 64 (a + b).

Definition in_int (z : Z) : bool := (int_min <=? z) && (z <=? int_max).
Definition in_qint64 (z : Z) : bool := (qint64_min <=? z) && (z <=? qint64_max).
End MachineInt.

(** ** Qt strings and byte arrays

    [QString] and [QByteArray] are both modelled as [string] (a sequence
    of bytes); [toUtf8] and the implicit [QString(QByteArray)] conversion
    are the identity on that representation.  [tr] is modelled without a
    translation catalogue (it returns its source text). *)

Definition QString : Type := string.
Definition QByteArray : Type := string.

Definition toUtf8 (s : QString) : QByteArray := s.
Definition fromUtf8 (b : QByteArray) : QString := b.
Definition tr (s : string) : QString := s.

Definition isEmpty (s : QString) : bool :=
  match s with EmptyString => true | String _ _ => false end.

(** [QString("... %1 ...").arg(a)] for the three shapes used in the file:
    a prefix, then the argument, then a suffix. *)
Definition arg1 (before : string) (a : QString) (after : string) : QString :=
  before ++ a ++ after.

Module QtNumber.
Import MachineInt.

(** [QString::number(n)]: the decimal representation, with a leading
    minus sign for negative numbers. *)
Definition number (n : Z) : QString := NilZero.string_of_int (Z.to_int n).

(** [QChar::isSpace] on the ASCII range. *)
Definition isSpace (c : ascii) : bool :=
  let n := Z.of_N (N_of_ascii c) in
  (n =? 32) || ((9 <=? n) && (n <=? 13)).

Definition digitValue (c : ascii) : option Z :=
  let n := Z.of_N (N_of_ascii c) in
  if (48 <=? n) && (n <=? 57) then Some (n - 48) else None.

Fixpoint trimLeft (s : string) : string :=
  match s with
  | String c r => if isSpace c then trimLeft r else s
  | EmptyString => EmptyString
  end.

Fixpoint trimRight (s : string) : string :=
  match s with
  | String c r =>
      let r' := trimRight r in
      if isSpace c && isEmpty r' then EmptyString else String c r'
  | EmptyString => EmptyString
  end.

(** Base-10 accumulation over a run of digits; any other character
    makes the conversion fail. *)
Fixpoint digits (s : string) (acc : Z) : option Z :=
  match s with
  | EmptyString => Some acc
  | String c r =>
      match digitValue c with
      | Some d => digits r (10 * acc + d)
      | None => None
      end
  end.

Definition unsignedDigits (s : string) : option Z :=
  if isEmpty s then None else digits s 0.

(** The text accepted by Qt's integer conversions in the C locale:
    optional surrounding white space, an optional sign, decimal digits. *)
Definition parseInteger (s : QString) : option Z :=
  match trimRight (trimLeft s) with
  | String "-" r => Z.opp <$> unsignedDigits r
  | String "+" r => unsignedDigits r
  | t => unsignedDigits t
  end.

(** [QString::toLongLong()]: 0 when the conversion fails or the value
    does not fit a [qlonglong]. *)
Definition toLongLong (s : QString) : Z :=
  match parseInteger s with
  | Some v => if in_qint64 v then v else 0
  | None => 0
  end.

(** [QString::toInt()]: 0 when the conversion fails or the value does
    not fit an [int]. *)
Definition toInt (s : QString) : Z :=
  match parseInteger s with
  | Some v => if in_int v then v else 0
  | None => 0
  end.

End QtNumber.

(** ** IEEE-754 binary64 arithmetic, as far as [updateProgress] uses it

    A finite [double] is [mant * 2 ^ expo] with a significand of at most 53
    bits.  Each operation computes the exact rational result and rounds it
    to nearest, ties to even.  The exponent range is not modelled: the
    operands here are 64-bit integers and the constant 100, so every
    intermediate value is zero or has magnitude between 2^-64 and 2^71,
    far from overflow and from the subnormal range.  Infinities and NaN
    (a division by zero) are represented by [None]. *)

Module Double.

Record double : Type := mk { mant : Z; expo : Z }.

(** A double as an exact fraction [num / den], with [den] a power of 2. *)
Definition num (x : double) : Z := mant x * 2 ^ Z.max 0 (expo x).
Definition den (x : double) : Z := 2 ^ Z.max 0 (- expo x).

(** Nearest integer to [n / d], ties to even ([0 <= n], [0 < d]). *)
Definition rne (n d : Z) : Z :=
  let q := n / d in
  let r := n mod d in
  if 2 * r <? d then q
  else if d <? 2 * r then q + 1
  else if Z.even q then q else q + 1.

(** [floor (log2 (n / d))] for positive [n] and [d]. *)
Definition ilog2 (n d : Z) : Z :=
  let l := Z.log2 n - Z.log2 d in
  if (if 0 <=? l then d * 2 ^ l <=? n else d <=? n * 2 ^ (- l))
  then l else l - 1.

(** Integral values are kept in the form [mant * 2 ^ 0]. *)
Definition normalize (m e : Z) : double :=
  if 0 <=? e then mk (m * 2 ^ e) 0
  else if m mod 2 ^ (- e) =? 0 then mk (m / 2 ^ (- e)) 0
  else mk m e.

(** Rounding of the positive rational [n / d] to 53 significant bits. *)
Definition round_pos (n d : Z) : double :=
  let e := ilog2 n d - 52 in
  let m := if 0 <=? e then rne n (d * 2 ^ e) else rne (n * 2 ^ (- e)) d in
  normalize m e.

Definition round (n d : Z) : option double :=
  if d =? 0 then None
  else if n =? 0 then Some (mk 0 0)
  else
    let r := round_pos (Z.abs n) (Z.abs d) in
    Some (mk (Z.sgn n * Z.sgn d * mant r) (expo r)).

(** [static_cast<double>(z)] for a 64-bit integer [z]. *)
Definition of_int (z : Z) : option double := round z 1.

Definition mul (x y : double) : option double :=
  round (num x * num y) (den x * den y).

Definition div (x y : double) : option double :=
  round (num x * den y) (den x * num y).

(** [static_cast<int>(x)]: truncation toward zero; undefined when the
    truncated value is not representable in an [int]. *)
Definition to_int (x : double) : option Z :=
  let t := Z.quot (num x) (den x) in
  if MachineInt.in_int t then Some t else None.

(** The literal [100.0]. *)
Definition hundred : double := mk 100 0.

End Double.

(** ** JSON values, as [QJsonValue] / [QJsonObject] / [QJsonDocument] *)

Inductive QJsonValue : Type :=
| JNull
| JBool (b : bool)
| JDouble (x : Double.double)
| JString (s : QString)
| JArray (l : list QJsonValue)
| JObject (o : gmap string QJsonValue)
| JUndefined.

Abbreviation QJsonObject := (gmap string QJsonValue).

Module Json.

(** [QJsonObject::contains(key)] *)
Definition contains (o : QJsonObject) (key : string) : bool :=
  match o !! key with Some _ => true | None => false end.

(** [QJsonObject::value(key)]: [Undefined] when the key is absent. *)
Definition value (o : QJsonObject) (key : string) : QJsonValue :=
  match o !! key with Some v => v | None => JUndefined end.

(** [QJsonValue::toString()]: the null string unless the value is a
    string. *)
Definition toString (v : QJsonValue) : QString :=
  match v with JString s => s | _ => EmptyString end.

Inductive QJsonDocument : Type :=
| DocNull
| DocArray (l : list QJsonValue)
| DocObject (o : QJsonObject).

(** [QJsonDocument::object()]: empty unless the document is an object. *)
Definition object (doc : QJsonDocument) : QJsonObject :=
  match doc with
  | DocObject o => o
  | _ => ∅
  end.

(** The outcome of [QJsonDocument::fromJson(bytes, &error)]: either a
    document with [error.error == NoError], or [error.errorString()]. *)
Inductive ParseResult : Type :=
| ParseOk (doc : QJsonDocument)
| ParseError (errorString : QString).

End Json.

(** ** Packets, items, bundles *)

Inductive PacketType : Type := Success | Error | Json | Binary.

Record Packet : Type := mkPacket { ptype : PacketType; content : QByteArray }.

Inductive OpenMode : Type := Read | Write.

(** An [Item] object.  [openRead] / [openWrite] say whether [open] in that
    mode succeeds, [pending] holds the chunks successive [read()] calls
    return, [written] the chunks passed to [write], [is_open] whether the
    item is currently open and [alive] whether it has not been deleted. *)
Record Item : Type := mkItem {
  name : QString;
  size : Z;
  openRead : bool;
  openWrite : bool;
  pending : list QByteArray;
  written : list QByteArray;
  is_open : bool;
  alive : bool
}.

(** [Handler::createItem(type, properties)]. *)
Record Handler : Type := mkHandler {
  createItem : QString -> QJsonObject -> Item
}.

(** A bundle: its rows are pointers to items of the object store. *)
Record Bundle : Type := mkBundle {
  rows : list nat;
  totalSize : Z
}.

Definition rowCount (b : Bundle) : Z := Z.of_nat (length (rows b)).

(** [bundle->index(row, 0).data(Qt::UserRole).value<Item*>()]: the item
    pointer of a valid row.  For any other row a Qt list model has no
    valid index, the data of an invalid index is an invalid [QVariant],
    and its [value<Item*>()] is [nullptr]. *)
Definition bundleItem (b : Bundle) (row : Z) : option nat :=
  if 0 <=? row then rows b !! Z.to_nat row else None.

(** The collaborators the transfer is built on: the application (device
    name, handler registry), [JsonUtil::objectToJson] and Qt's JSON
    reader and writer. *)
Record Application : Type := mkApplication {
  app_deviceName : QString;
  handlerRegistry_find : QString -> option Handler;
  objectToJson : Item -> QJsonObject;
  fromJson : QByteArray -> Json.ParseResult;
  toJson : QJsonObject -> QByteArray
}.

(** ** The transfer object *)

Inductive ProtocolState : Type := TransferHeader | ItemHeader | ItemContent | Finished.
Inductive Direction : Type := Send | Receive.
Inductive State : Type := Connecting | InProgress | Failed | Succeeded.

(** The data members of [TransferPrivate].  Their types are those of the values
    the source stores in them: [itemCount] receives [rowCount()] and
    [toInt()] (an [int], like [itemIndex] and [progress]), the byte
    counters receive [totalSize()], [toLongLong()] and [Item::size()]
    ([qint64]).  [currentItem] is a pointer into the object store ([None]
    is [nullptr]). *)
Record TransferPrivate : Type := mkTransferPrivate {
  bundle : option Bundle;
  protocolState : ProtocolState;
  direction : Direction;
  state : State;
  progress : Z;
  deviceName : QString;
  error : QString;
  itemIndex : Z;
  itemCount : Z;
  bytesTransferred : Z;
  bytesTotal : Z;
  currentItem : option nat;
  currentItemBytesTransferred : Z;
  currentItemBytesTotal : Z
}.

Definition set_protocolState (v : ProtocolState) (d : TransferPrivate) :=
  mkTransferPrivate (bundle d) v (direction d) (state d) (progress d)
    (deviceName d) (error d) (itemIndex d) (itemCount d) (bytesTransferred d)
    (bytesTotal d) (currentItem d) (currentItemBytesTransferred d)
    (currentItemBytesTotal d).

Definition set_state (v : State) (d : TransferPrivate) :=
  mkTransferPrivate (bundle d) (protocolState d) (direction d) v (progress d)
    (deviceName d) (error d) (itemIndex d) (itemCount d) (bytesTransferred d)
    (bytesTotal d) (currentItem d) (currentItemBytesTransferred d)
    (currentItemBytesTotal d).

Definition set_progress (v : Z) (d : TransferPrivate) :=
  mkTransferPrivate (bundle d) (protocolState d) (direction d) (state d) v
    (deviceName d) (error d) (itemIndex d) (itemCount d) (bytesTransferred d)
    (bytesTotal d) (currentItem d) (currentItemBytesTransferred d)
    (currentItemBytesTotal d).

Definition set_deviceName (v : QString) (d : TransferPrivate) :=
  mkTransferPrivate (bundle d) (protocolState d) (direction d) (state d)
    (progress d) v (error d) (itemIndex d) (itemCount d) (bytesTransferred d)
    (bytesTotal d) (currentItem d) (currentItemBytesTransferred d)
    (currentItemBytesTotal d).

Definition set_error (v : QString) (d : TransferPrivate) :=
  mkTransferPrivate (bundle d) (protocolState d) (direction d) (state d)
    (progress d) (deviceName d) v (itemIndex d) (itemCount d)
    (bytesTransferred d) (bytesTotal d) (currentItem d)
    (currentItemBytesTransferred d) (currentItemBytesTotal d).

Definition set_itemIndex (v : Z) (d : TransferPrivate) :=
  mkTransferPrivate (bundle d) (protocolState d) (direction d) (state d)
    (progress d) (deviceName d) (error d) v (itemCount d) (bytesTransferred d)
    (bytesTotal d) (currentItem d) (currentItemBytesTransferred d)
    (currentItemBytesTotal d).

Definition set_itemCount (v : Z) (d : TransferPrivate) :=
  mkTransferPrivate (bundle d) (protocolState d) (direction d) (state d)
    (progress d) (deviceName d) (error d) (itemIndex d) v (bytesTransferred d)
    (bytesTotal d) (currentItem d) (currentItemBytesTransferred d)
    (currentItemBytesTotal d).

Definition set_bytesTransferred (v : Z) (d : TransferPrivate) :=
  mkTransferPrivate (bundle d) (protocolState d) (direction d) (state d)
    (progress d) (deviceName d) (error d) (itemIndex d) (itemCount d) v
    (bytesTotal d) (currentItem d) (currentItemBytesTransferred d)
    (currentItemBytesTotal d).

Definition set_bytesTotal (v : Z) (d : TransferPrivate) :=
  mkTransferPrivate (bundle d) (protocolState d) (direction d) (state d)
    (progress d) (deviceName d) (error d) (itemIndex d) (itemCount d)
    (bytesTransferred d) v (currentItem d) (currentItemBytesTransferred d)
    (currentItemBytesTotal d).

Definition set_currentItem (v : option nat) (d : TransferPrivate) :=
  mkTransferPrivate (bundle d) (protocolState d) (direction d) (state d)
    (progress d) (deviceName d) (error d) (itemIndex d) (itemCount d)
    (bytesTransferred d) (bytesTotal d) v (currentItemBytesTransferred d)
    (currentItemBytesTotal d).

Definition set_currentItemBytesTransferred (v : Z) (d : TransferPrivate) :=
  mkTransferPrivate (bundle d) (protocolState d) (direction d) (state d)
    (progress d) (deviceName d) (error d) (itemIndex d) (itemCount d)
    (bytesTransferred d) (bytesTotal d) (currentItem d) v
    (currentItemBytesTotal d).

Definition set_currentItemBytesTotal (v : Z) (d : TransferPrivate) :=
  mkTransferPrivate (bundle d) (protocolState d) (direction d) (state d)
    (progress d) (deviceName d) (error d) (itemIndex d) (itemCount d)
    (bytesTransferred d) (bytesTotal d) (currentItem d)
    (currentItemBytesTransferred d) v.

(** ** Observable effects *)

(** The four signals of [Transfer]. *)
Inductive Signal : Type :=
| StateChanged (s : State)
| ProgressChanged (p : Z)
| DeviceNameChanged (n : QString)
| ErrorChanged (m : QString).

(** What a member function does to the outside world, in program order. *)
Inductive Action : Type :=
| SendPacket (p : Packet)      (* transport->sendPacket(&packet) *)
| TransportClose               (* transport->close() *)
| Emit (s : Signal)            (* emit q->...Changed(...) *)
| Log (tag message : QString). (* logger()->log(new Message(Error, tag, message)) *)

(** The transfer together with the [Item] objects it points to. *)
Record World : Type := mkWorld {
  priv : TransferPrivate;
  items : list Item
}.

(** ** The monad of member functions

    A computation reads and updates the [World], appends to the output
    trace, and may have no defined result ([None]): a null or dangling
    [currentItem] dereference, a missing bundle, or a floating-point value
    that cannot be cast to [int]. *)

Definition M (A : Type) : Type := World -> option (A * World * list Action).

Definition ret {A} (a : A) : M A := fun w => Some (a, w, []).

Definition bind {A B} (c : M A) (k : A -> M B) : M B :=
  fun w =>
    match c w with
    | Some (a, w1, t1) =>
        match k a w1 with
        | Some (b, w2, t2) => Some (b, w2, (t1 ++ t2)%list)
        | None => None
        end
    | None => None
    end.

Declare Scope transfer_scope.
Delimit Scope transfer_scope with transfer.
Notation "x <- c ;; k" := (bind c (fun x => k))
  (at level 100, c at next level, right associativity) : transfer_scope.
Notation "c ;; k" := (bind c (fun _ => k))
  (at level 100, right associativity) : transfer_scope.
#[local] Open Scope transfer_scope.

Definition undefined {A} : M A := fun _ => None.

Definition get : M TransferPrivate := fun w => Some (priv w, w, []).

Definition modify (f : TransferPrivate -> TransferPrivate) : M unit :=
  fun w => Some (tt, mkWorld (f (priv w)) (items w), []).

Definition tell (a : Action) : M unit := fun w => Some (tt, w, [a]).

Definition when (b : bool) (c : M unit) : M unit := if b then c else ret tt.

Definition sendPacket (p : Packet) : M unit := tell (SendPacket p).
Definition transportClose : M unit := tell TransportClose.
Definition emit (s : Signal) : M unit := tell (Emit s).

(** *** Item objects behind [currentItem] *)

Definition set_is_open (v : bool) (it : Item) : Item :=
  mkItem (name it) (size it) (openRead it) (openWrite it) (pending it)
    (written it) v (alive it).

Definition set_pending (v : list QByteArray) (it : Item) : Item :=
  mkItem (name it) (size it) (openRead it) (openWrite it) v (written it)
    (is_open it) (alive it).

Definition set_written (v : list QByteArray) (it : Item) : Item :=
  mkItem (name it) (size it) (openRead it) (openWrite it) (pending it) v
    (is_open it) (alive it).

Definition set_alive (v : bool) (it : Item) : Item :=
  mkItem (name it) (size it) (openRead it) (openWrite it) (pending it)
    (written it) (is_open it) v.

(** [*currentItem]: the address and the object; undefined for [nullptr]
    and for an object that has been deleted. *)
Definition current : M (nat * Item) :=
  fun w =>
    match currentItem (priv w) with
    | Some a =>
        match items w !! a with
        | Some it => if alive it then Some ((a, it), w, []) else None
        | None => None
        end
    | None => None
    end.

Definition store (a : nat) (it : Item) : M unit :=
  fun w => Some (tt, mkWorld (priv w) (<[a := it]> (items w)), []).

(** [new]: the fresh object gets the next free address. *)
Definition alloc (it : Item) : M nat :=
  fun w => Some (length (items w), mkWorld (priv w) (items w ++ [it])%list, []).

Definition canOpen (mode : OpenMode) (it : Item) : bool :=
  match mode with Read => openRead it | Write => openWrite it end.

(** [currentItem->open(mode)] *)
Definition item_open (mode : OpenMode) : M bool :=
  c <- current ;;
  if canOpen mode (snd c)
  then store (fst c) (set_is_open true (snd c)) ;; ret true
  else ret false.

(** [currentItem->close()] *)
Definition item_close : M unit :=
  c <- current ;; store (fst c) (set_is_open false (snd c)).

(** [currentItem->name()] and [currentItem->size()] *)
Definition item_name : M QString := c <- current ;; ret (name (snd c)).
Definition item_size : M Z := c <- current ;; ret (size (snd c)).

(** [currentItem->read()]: the next chunk, empty once drained. *)
Definition item_read : M QByteArray :=
  c <- current ;;
  match pending (snd c) with
  | chunk :: rest => store (fst c) (set_pending rest (snd c)) ;; ret chunk
  | [] => ret EmptyString
  end.

(** [currentItem->write(data)] *)
Definition item_write (data : QByteArray) : M unit :=
  c <- current ;;
  store (fst c) (set_written (written (snd c) ++ [data])%list (snd c)).

(** [delete currentItem]: the object is gone, the pointer dangles. *)
Definition item_delete : M unit :=
  c <- current ;; store (fst c) (set_alive false (set_is_open false (snd c))).

(** [QByteArray::length()] / [size()], an [int]. *)
Definition byteLength (b : QByteArray) : Z := Z.of_nat (String.length b).

(** ** Member functions of [TransferPrivate] *)

Definition MessageTag : QString := "transfer".

Definition dquote : string := String "034" EmptyString.

(** Modelled from the spec: [transfer_p.h], which declares
    [setSuccess(bool send = false)] and
    [setError(const QString &message, bool send = false)], is not part of
    the sources at hand.  The spec says that an inbound [Error] packet
    fails the transfer "without sending any packet in response" and that
    the sender, on [Success], only emits [StateChanged] and closes the
    transport; both calls omit the argument, so the default is [false]. *)
Definition default_send : bool := false.

Definition liftOption {A} (o : option A) : M A :=
  match o with Some a => ret a | None => undefined end.

(** [static_cast<int>(100.0 * static_cast<double>(transferred)
                           / static_cast<double>(total))] *)
Definition percentage (transferred total : Z) : option Z :=
  a ← Double.of_int transferred;
  p ← Double.mul Double.hundred a;
  b ← Double.of_int total;
  q ← Double.div p b;
  Double.to_int q.

Section MemberFunctions.

Variable app : Application.

Definition updateProgress : M unit :=
  d <- get ;;
  newProgress <-
    (if bytesTotal d =? 0 then ret 0
     else liftOption (percentage (bytesTransferred d) (bytesTotal d))) ;;
  (* Only update progress if it has actually changed *)
  if newProgress =? progress d then ret tt
  else modify (set_progress newProgress) ;; emit (ProgressChanged newProgress).

Definition setSuccess (send : bool) : M unit :=
  when send (sendPacket (mkPacket Success EmptyString)) ;;
  modify (set_state Succeeded) ;;
  emit (StateChanged Succeeded) ;;
  (* Both peers should be aware that the transfer succeeded at this point *)
  transportClose.

Definition setError (message : QString) (send : bool) : M unit :=
  tell (Log MessageTag message) ;;
  when send (sendPacket (mkPacket Error (toUtf8 message))) ;;
  modify (set_error message) ;;
  emit (ErrorChanged message) ;;
  modify (set_state Failed) ;;
  emit (StateChanged Failed) ;;
  (* An error on either end necessitates the transport be closed *)
  transportClose ;;
  (* The protocol dictates that the transfer is now "finished" *)
  modify (set_protocolState Finished).

Definition theBundle : M Bundle :=
  d <- get ;; liftOption (bundle d).

Definition sendTransferHeader : M unit :=
  b <- theBundle ;;
  let object : QJsonObject :=
    <["name" := JString (app_deviceName app)]>
      (<["count" := JString (QtNumber.number (rowCount b))]>
         (<["size" := JString (QtNumber.number (totalSize b))]> ∅)) in
  sendPacket (mkPacket Json (toJson app object)) ;;
  (* The next packet will be an item header *)
  modify (set_protocolState ItemHeader).

Definition sendNext : M unit :=
  (* Close the current item and increment the index *)
  item_close ;;
  modify (fun d => set_itemIndex (MachineInt.int_add (itemIndex d) 1) d) ;;
  d <- get ;;
  if itemIndex d =? itemCount d
  then modify (set_protocolState Finished)
  else modify (set_protocolState ItemHeader).

Definition sendItemHeader : M unit :=
  (* Grab the next item and attempt to open it *)
  b <- theBundle ;;
  modify (fun d => set_currentItem (bundleItem b (itemIndex d)) d) ;;
  opened <- item_open Read ;;
  if negb opened then
    n <- item_name ;;
    setError (arg1 (tr "unable to open " ++ dquote) n (dquote ++ " for reading")) true
  else
    (* Reset transfer stats *)
    modify (set_currentItemBytesTransferred 0) ;;
    sz <- item_size ;;
    modify (set_currentItemBytesTotal sz) ;;
    (* Send the item header *)
    c <- current ;;
    sendPacket (mkPacket Json (toJson app (objectToJson app (snd c)))) ;;
    (* If the item has a size, switch states; otherwise send the next item *)
    if sz =? 0 then sendNext else modify (set_protocolState ItemContent).

Definition sendItemContent : M unit :=
  data <- item_read ;;
  sendPacket (mkPacket Binary data) ;;
  (* Increment the number of bytes written to the socket *)
  modify (fun d =>
    set_bytesTransferred
      (MachineInt.qint64_add (bytesTransferred d) (byteLength data)) d) ;;
  modify (fun d =>
    set_currentItemBytesTransferred
      (MachineInt.qint64_add (currentItemBytesTransferred d) (byteLength data)) d) ;;
  updateProgress ;;
  (* If the item completed, send the next one *)
  d <- get ;;
  when (currentItemBytesTotal d <=? currentItemBytesTransferred d) sendNext.

Definition processTransferHeader (packet : Packet) : M unit :=
  match fromJson app (content packet) with
  | Json.ParseError errorString =>
      setError (arg1 "transfer header: " errorString EmptyString) true
  | Json.ParseOk doc =>
      let object := Json.object doc in
      (* If the device name was provided, use it *)
      let n := Json.toString (Json.value object "name") in
      modify (set_deviceName n) ;;
      when (negb (isEmpty n)) (emit (DeviceNameChanged n)) ;;
      (* Strings must be used for 64-bit numbers *)
      modify (set_itemCount (QtNumber.toInt (Json.toString (Json.value object "count")))) ;;
      modify (set_bytesTotal (QtNumber.toLongLong (Json.toString (Json.value object "size")))) ;;
      (* Prepare to receive the first item *)
      modify (set_protocolState ItemHeader)
  end.

Definition processNext : M unit :=
  (* Close & free the current item and increment the index *)
  item_close ;;
  item_delete ;;
  modify (fun d => set_itemIndex (MachineInt.int_add (itemIndex d) 1) d) ;;
  (* If there are no more items, send the success packet *)
  d <- get ;;
  if itemIndex d =? itemCount d
  then setSuccess true
  else modify (set_protocolState ItemHeader).

(** Lines 193-202: the type tag of an incoming item header. *)
Definition headerType (object : QJsonObject) : QString :=
  if Json.contains object "type" then Json.toString (Json.value object "type")
  else if Json.contains object "directory" then "directory"
  else "file".

Definition processItemHeader (packet : Packet) : M unit :=
  match fromJson app (content packet) with
  | Json.ParseError errorString =>
      setError (arg1 "item header: " errorString EmptyString) true
  | Json.ParseOk doc =>
      let object := Json.object doc in
      let type := headerType object in
      (* Attempt to locate a handler for the type *)
      match handlerRegistry_find app type with
      | None =>
          setError (arg1 (tr "unrecognized item type " ++ dquote) type dquote) true
      | Some handler =>
          (* Use the handler to create an item and open it *)
          a <- alloc (createItem handler type object) ;;
          modify (set_currentItem (Some a)) ;;
          opened <- item_open Write ;;
          if negb opened then
            n <- item_name ;;
            setError (arg1 (tr "unable to open " ++ dquote) n (dquote ++ " for writing")) true
          else
            (* Reset transfer stats *)
            modify (set_currentItemBytesTransferred 0) ;;
            sz <- item_size ;;
            modify (set_currentItemBytesTotal sz) ;;
            (* If the item has a size, switch states; otherwise receive
               the next item *)
            if sz =? 0 then processNext else modify (set_protocolState ItemContent)
      end
  end.

Definition processItemContent (packet : Packet) : M unit :=
  item_write (content packet) ;;
  (* Add the number of bytes to the global & current item totals *)
  modify (fun d =>
    set_bytesTransferred
      (MachineInt.qint64_add (bytesTransferred d) (byteLength (content packet))) d) ;;
  modify (fun d =>
    set_currentItemBytesTransferred
      (MachineInt.qint64_add (currentItemBytesTransferred d)
         (byteLength (content packet))) d) ;;
  updateProgress ;;
  (* If the current item is complete, advance to the next item or finish *)
  d <- get ;;
  when (currentItemBytesTotal d <=? currentItemBytesTransferred d) processNext.

Definition unexpectedPacket : QString := tr "protocol error - unexpected packet".

Definition onPacketReceived (packet : Packet) : M unit :=
  match ptype packet with
  | Error =>
      (* If an error packet is received, set the error and quit *)
      setError (fromUtf8 (content packet)) default_send
  | _ =>
      d <- get ;;
      match direction d with
      | Send =>
          (* The only packet expected when sending items is the success
             packet which indicates the receiver got all of the files *)
          match protocolState d, ptype packet with
          | Finished, Success => setSuccess default_send
          | _, _ =>
              (* Any other packet was unexpected - assume this is an error *)
              setError unexpectedPacket true
          end
      | Receive =>
          (* Dispatch the packet to the appropriate method based on state *)
          match protocolState d with
          | TransferHeader => processTransferHeader packet
          | ItemHeader => processItemHeader packet
          | ItemContent => processItemContent packet
          | Finished => ret tt
          end
      end
  end.

Definition onPacketSent : M unit :=
  d <- get ;;
  match direction d with
  | Receive =>
      (* We don't care about sent packets when receiving data *)
      ret tt
  | Send =>
      match protocolState d with
      | TransferHeader => sendTransferHeader
      | ItemHeader => sendItemHeader
      | ItemContent => sendItemContent
      | Finished => ret tt
      end
  end.

Definition onError (message : QString) : M unit := setError message true.

(** The slot connected to [Transport::connected]; the connection is
    only made when sending. *)
Definition onConnected : M unit :=
  d <- get ;;
  match direction d with
  | Send =>
      modify (set_state InProgress) ;;
      emit (StateChanged InProgress) ;;
      onPacketSent
  | Receive => ret tt
  end.

(** [Transfer::cancel()] *)
Definition cancel : M unit := setError (tr "transfer cancelled") true.

(** [Transfer::isFinished()] *)
Definition isFinished (d : TransferPrivate) : bool :=
  match state d with Failed | Succeeded => true | _ => false end.

(** ** Events and executions *)

Inductive Event : Type :=
| Connected
| PacketReceived (packet : Packet)
| PacketSent
| TransportError (message : QString)
| Cancel.

Definition handle (e : Event) : M unit :=
  match e with
  | Connected => onConnected
  | PacketReceived packet => onPacketReceived packet
  | PacketSent => onPacketSent
  | TransportError message => onError message
  | Cancel => cancel
  end.

(** One event handled to completion: the new world and what was output. *)
Definition step (e : Event) (w : World) : option (World * list Action) :=
  match handle e w with
  | Some (_, w', t) => Some (w', t)
  | None => None
  end.

(** A sequence of events, each handled to completion before the next. *)
Fixpoint run (es : list Event) (w : World) : option (World * list Action) :=
  match es with
  | [] => Some (w, [])
  | e :: es' =>
      match step e w with
      | Some (w1, t1) =>
          match run es' w1 with
          | Some (w2, t2) => Some (w2, (t1 ++ t2)%list)
          | None => None
          end
      | None => None
      end
  end.

End MemberFunctions.

(** The constructor: a transfer with a bundle sends, one without receives. *)
Definition newTransferPrivate (b : option Bundle) : TransferPrivate :=
  {| bundle := b;
     protocolState := TransferHeader;
     direction := match b with Some _ => Send | None => Receive end;
     state := match b with Some _ => Connecting | None => InProgress end;
     progress := 0;
     deviceName := EmptyString;
     error := EmptyString;
     itemIndex := 0;
     itemCount := match b with Some b' => rowCount b' | None => 0 end;
     bytesTransferred := 0;
     bytesTotal := match b with Some b' => totalSize b' | None => 0 end;
     currentItem := None;
     currentItemBytesTransferred := 0;
     currentItemBytesTotal := 0 |}.

Definition newTransfer (b : option Bundle) (objects : list Item) : World :=
  mkWorld (newTransferPrivate b) objects.

(** ** Vocabulary of the properties *)

Module Trace.

Definition isTerminalState (s : State) : bool :=
  match s with Failed | Succeeded => true | _ => false end.

Definition isClose (a : Action) : bool :=
  match a with TransportClose => true | _ => false end.

Definition isTerminalSignal (a : Action) : bool :=
  match a with Emit (StateChanged s) => isTerminalState s | _ => false end.

Definition isErrorSignal (a : Action) : bool :=
  match a with Emit (ErrorChanged _) => true | _ => false end.


Definition isSignal (a : Action) : bool :=
  match a with Emit _ => true | _ => false end.

Definition isSend (a : Action) : bool :=
  match a with SendPacket _ => true | _ => false end.

(** How often the transport is closed / a terminal state is announced. *)
Definition closes (t : list Action) : nat := length (List.filter isClose t).
Definition terminals (t : list Action) : nat :=
  length (List.filter isTerminalSignal t).

(** The trace ends with [StateChanged s; close()] for a terminal [s]. *)
Definition endsWithTerminalClose (t : list Action) : option State :=
  match rev t with
  | TransportClose :: Emit (StateChanged s) :: _ =>
      if isTerminalState s then Some s else None
  | _ => None
  end.

(** No notification and no outbound packet. *)
Definition silent (t : list Action) : bool :=
  forallb (fun a => negb (isSignal a || isSend a)) t.

(** Some terminal error was raised ([setError] ran). *)
Definition raisesError (t : list Action) : bool := existsb isErrorSignal t.

End Trace.

(** An inbound [Error] packet: the error is the peer's, not ours. *)
Definition peerReported (e : Event) : bool :=
  match e with
  | PacketReceived p => match ptype p with Error => true | _ => false end
  | _ => false
  end.

(** Whether the object behind [currentItem] is open. *)
Definition currentItemOpen (w : World) : bool :=
  match currentItem (priv w) with
  | Some a =>
      match items w !! a with
      | Some it => is_open it
      | None => false
      end
  | None => false
  end.

(** The worlds a transfer can be in: a freshly constructed one, followed
    by any sequence of events. *)
Definition reachable (app : Application) (w : World) : Prop :=
  exists b objects es t, run app es (newTransfer b objects) = Some (w, t).

(** *** Invariants used in the proofs *)

(** A failed transfer, and a sender that succeeded, is in [Finished]. *)
Definition terminalIsFinished (w : World) : Prop :=
  (state (priv w) = Failed -> protocolState (priv w) = Finished) /\
  (direction (priv w) = Send -> state (priv w) = Succeeded ->
   protocolState (priv w) = Finished).

(** Unless a receiver has succeeded, the current item is open exactly
    in [ItemContent]. *)
Definition itemDiscipline (w : World) : Prop :=
  (direction (priv w) = Receive /\ state (priv w) = Succeeded) \/
  (currentItemOpen w = true <-> protocolState (priv w) = ItemContent).


(** ** A small application, for concrete runs *)

Module Demo.

(** A JSON reader given by the documents it knows; any other input is
    a parse error. *)
Fixpoint reader (table : list (QByteArray * Json.QJsonDocument))
    (bytes : QByteArray) : Json.ParseResult :=
  match table with
  | (b, doc) :: rest =>
      if String.eqb b bytes then Json.ParseOk doc else reader rest bytes
  | [] => Json.ParseError "illegal value"
  end.

Definition header (n count sz : QString) : QJsonObject :=
  <["name" := JString n]>
    (<["count" := JString count]> (<["size" := JString sz]> ∅)).

Definition fileHandler : Handler :=
  mkHandler (fun _ props =>
    mkItem (Json.toString (Json.value props "name"))
           (QtNumber.toLongLong (Json.toString (Json.value props "size")))
           true true [] [] false true).

Definition registry (type : QString) : option Handler :=
  if String.eqb type "file" then Some fileHandler else None.

Definition documents : list (QByteArray * Json.QJsonDocument) :=
  [ ("header-empty", Json.DocObject (header "peer" "0" "0"));
    ("header-one", Json.DocObject (header "peer" "1" "5"));
    ("header-many", Json.DocObject (header "peer" "2147483648" "5"));
    ("header-nosize", Json.DocObject (<["count" := JString "1"]> ∅));
    ("item-a", Json.DocObject
       (<["name" := JString "a.txt"]> (<["size" := JString "5"]> ∅)));
    ("item-dir", Json.DocObject
       (<["name" := JString "d"]> (<["directory" := JBool true]> ∅)));
    ("item-widget", Json.DocObject
       (<["name" := JString "w"]> (<["type" := JString "widget"]> ∅))) ].

Definition app : Application :=
  {| app_deviceName := "local";
     handlerRegistry_find := registry;
     objectToJson := fun it => <["name" := JString (name it)]> ∅;
     fromJson := reader documents;
     toJson := fun _ => "json" |}.

Definition receiver : World := newTransfer None [].

(** A file of five bytes, read in one chunk. *)
Definition fileA : Item := mkItem "a.txt" 5 true true ["hello"] [] false true.

Definition sender : World :=
  newTransfer (Some (mkBundle [0%nat] 5)) [fileA].

Definition emptySender : World :=
  newTransfer (Some (mkBundle [] 0)) [].


(** The world reached from [w] by the events [es]. *)
Definition after (es : list Event) (w : World) : World :=
  match run app es w with Some (w', _) => w' | None => w end.

(** What is output on the way. *)
Definition output (es : list Event) (w : World) : list Action :=
  match run app es w with Some (_, t) => t | None => [] end.

Definition failedReceiver : World := after [Cancel] receiver.

(** A receiver in the middle of the content of one item. *)
Definition receivingContent : World :=
  after [PacketReceived (mkPacket Json "header-one");
         PacketReceived (mkPacket Json "item-a")] receiver.

(** A receiver whose transfer header had no [size]. *)
Definition receiverWithoutTotal : World :=
  after [PacketReceived (mkPacket Json "header-nosize")] receiver.

(** Two of five bytes accounted, progress not yet updated. *)
Definition twoOfFive : World :=
  mkWorld (set_bytesTransferred 2 (set_bytesTotal 5 (newTransferPrivate None))) [].

(** All but one of 2^62 bytes accounted. *)
Definition oneByteMissing : World :=
  mkWorld (set_bytesTransferred (2 ^ 62 - 1)
             (set_bytesTotal (2 ^ 62) (newTransferPrivate None))) [].

(** One byte accounted against a transfer header that said [size: -1]. *)
Definition negativeTotal : World :=
  mkWorld (set_bytesTransferred 1 (set_bytesTotal (-1) (newTransferPrivate None))) [].

End Demo.

(** * Vocabulary of the further properties *)

(** ** What a trace announces *)

Module Signals.

(** How many packets a trace sends. *)
Definition sends (t : list Action) : nat := length (List.filter Trace.isSend t).

(** The values announced by each kind of signal, in order. *)
Fixpoint progressValues (t : list Action) : list Z :=
  match t with
  | Emit (ProgressChanged p) :: r => p :: progressValues r
  | _ :: r => progressValues r
  | [] => []
  end.

Fixpoint stateValues (t : list Action) : list State :=
  match t with
  | Emit (StateChanged s) :: r => s :: stateValues r
  | _ :: r => stateValues r
  | [] => []
  end.

Fixpoint errorValues (t : list Action) : list QString :=
  match t with
  | Emit (ErrorChanged m) :: r => m :: errorValues r
  | _ :: r => errorValues r
  | [] => []
  end.

Fixpoint deviceNames (t : list Action) : list QString :=
  match t with
  | Emit (DeviceNameChanged n) :: r => n :: deviceNames r
  | _ :: r => deviceNames r
  | [] => []
  end.

(** The packets sent, in order. *)
Fixpoint packets (t : list Action) : list Packet :=
  match t with
  | SendPacket p :: r => p :: packets r
  | _ :: r => packets r
  | [] => []
  end.

(** The message of a trace that ends with
    [ErrorChanged m; StateChanged(Failed); close()]. *)
Definition failureTail (t : list Action) : option QString :=
  match rev t with
  | TransportClose :: Emit (StateChanged Failed) :: Emit (ErrorChanged m) :: _ =>
      Some m
  | _ => None
  end.

(** No two neighbours of the list are equal. *)
Fixpoint changing (l : list Z) : Prop :=
  match l with
  | a :: (b :: _) as r => a <> b /\ changing r
  | _ => True
  end.

End Signals.

(** A receiver that has not succeeded, or any sender. *)
Definition stillTransferring (d : TransferPrivate) : Prop :=
  direction d = Receive -> state d <> Succeeded.

(** In [ItemContent] the current item is incomplete (or, for an item of
    negative size, untouched). *)
Definition contentPending (w : World) : Prop :=
  protocolState (priv w) = ItemContent ->
  stillTransferring (priv w) ->
  currentItemBytesTransferred (priv w) < currentItemBytesTotal (priv w) \/
  (currentItemBytesTransferred (priv w) = 0 /\
   currentItemBytesTotal (priv w) < 0).


(** The device name against the names announced so far: none while the
    receiver waits for the transfer header; afterwards (and for a
    sender) either none, with an empty [deviceName], or exactly one, the
    non-empty [deviceName] of a receiver. *)
Definition deviceNameSettled (w : World) (names : list QString) : Prop :=
  (direction (priv w) = Receive /\ protocolState (priv w) = TransferHeader /\
   names = [] /\ deviceName (priv w) = EmptyString) \/
  ((direction (priv w) = Send \/ protocolState (priv w) <> TransferHeader) /\
   ((names = [] /\ deviceName (priv w) = EmptyString) \/
    (names = [deviceName (priv w)] /\ deviceName (priv w) <> EmptyString /\
     direction (priv w) = Receive))).

(** A sender's cursor against its bundle. *)
Definition senderCursor (b : Bundle) (w : World) : Prop :=
  direction (priv w) = Send /\
  bundle (priv w) = Some b /\
  itemCount (priv w) = rowCount b /\
  0 <= itemIndex (priv w) <= rowCount b /\
  (protocolState (priv w) = TransferHeader -> itemIndex (priv w) = 0) /\
  (protocolState (priv w) = ItemHeader ->
   itemIndex (priv w) < rowCount b \/ rowCount b = 0) /\
  (protocolState (priv w) = ItemContent ->
   itemIndex (priv w) < rowCount b /\
   currentItem (priv w) = bundleItem b (itemIndex (priv w))).


(** The number of bytes in a list of chunks. *)
Definition totalLength (chunks : list QByteArray) : Z :=
  fold_right (fun c n => byteLength c + n) 0 chunks.

(** The arrival of a content packet. *)
Definition contentReceived (data : QByteArray) : Event :=
  PacketReceived (mkPacket Binary data).

(** What [read()] returns next: the first pending chunk, nothing once
    the item is drained. *)
Definition nextChunk (it : Item) : QByteArray :=
  match pending it with c :: _ => c | [] => EmptyString end.

(** Lines 264-269: the value [updateProgress] computes from the two
    counters; there is none when the quotient cannot be cast to [int]. *)
Definition progressOf (total transferred : Z) : option Z :=
  if total =? 0 then Some 0 else percentage transferred total.

(** The progress computation is defined for these counters. *)
Definition progressDefined (total transferred : Z) : Prop :=
  progressOf total transferred <> None.

(** It is defined after each of the chunks, accounted one after the
    other. *)
Fixpoint progressDefinedAlong (total transferred : Z) (chunks : list QByteArray)
    : Prop :=
  match chunks with
  | [] => True
  | c :: rest =>
      progressDefined total (transferred + byteLength c) /\
      progressDefinedAlong total (transferred + byteLength c) rest
  end.

(** What [setError(message, true)] outputs (lines 292-307). *)
Definition failureTrace (message : QString) : list Action :=
  [Log MessageTag message;
   SendPacket (mkPacket Error (toUtf8 message));
   Emit (ErrorChanged message);
   Emit (StateChanged Failed);
   TransportClose].


(** Lines 84-88: the JSON object of the transfer header. *)
Definition transferHeaderObject (app : Application) (b : Bundle) : QJsonObject :=
  <["name" := JString (app_deviceName app)]>
    (<["count" := JString (QtNumber.number (rowCount b))]>
       (<["size" := JString (QtNumber.number (totalSize b))]> ∅)).


(** What [Item::write] and [delete] can change of the items: what has
    been written to each, and which are alive. *)
Definition itemContents (w : World) : list (list QByteArray * bool) :=
  map (fun it => (written it, alive it)) (items w).

(** ** More fixtures *)

Module Scenario.

(** A handler whose items cannot be opened for writing. *)
Definition lockedHandler : Handler :=
  mkHandler (fun _ props =>
    mkItem (Json.toString (Json.value props "name"))
           (QtNumber.toLongLong (Json.toString (Json.value props "size")))
           true false [] [] false true).

Definition registry (type : QString) : option Handler :=
  if String.eqb type "locked" then Some lockedHandler else Demo.registry type.

Definition itemObject (n sz : QString) : QJsonObject :=
  <["name" := JString n]> (<["size" := JString sz]> ∅).

Definition documents : list (QByteArray * Json.QJsonDocument) :=
  ("header-negative", Json.DocObject (Demo.header "peer" "1" "-1"))
  :: ("item-empty", Json.DocObject (itemObject "empty" "0"))
  :: ("item-locked",
      Json.DocObject (<["type" := JString "locked"]> (itemObject "secret" "5")))
  :: Demo.documents.

(** The device [peer]: its writer produces the transfer header and the
    item header that [Demo.reader] knows. *)
Definition app : Application :=
  {| app_deviceName := "peer";
     handlerRegistry_find := registry;
     objectToJson := fun it => itemObject (name it) (QtNumber.number (size it));
     fromJson := Demo.reader documents;
     toJson := fun o => if Json.contains o "count" then "header-one" else "item-a" |}.

Definition after (es : list Event) (w : World) : World :=
  match run app es w with Some (w', _) => w' | None => w end.

Definition output (es : list Event) (w : World) : list Action :=
  match run app es w with Some (_, t) => t | None => [] end.

Definition oneFile : Bundle := mkBundle [0%nat] 5.

(** A sender about to send its only item, and in the middle of it. *)
Definition connectedSender : World := after [Connected] Demo.sender.
Definition streamingSender : World := after [Connected; PacketSent] Demo.sender.

(** Five bytes read in two chunks, with more behind them. *)
Definition chunkedFile : Item :=
  mkItem "a.txt" 5 true true ["he"; "llo"; "extra"] [] false true.
Definition chunkedSender : World :=
  after [Connected] (newTransfer (Some oneFile) [chunkedFile]).

Definition emptyFile : Item := mkItem "empty" 0 true true [] [] false true.
Definition senderOfEmptyFile : World :=
  after [Connected] (newTransfer (Some (mkBundle [0%nat] 0)) [emptyFile]).

(** A file that cannot be opened for reading. *)
Definition lockedFile : Item :=
  mkItem "secret" 5 false true ["hello"] [] false true.
Definition senderOfLockedFile : World :=
  after [Connected] (newTransfer (Some oneFile) [lockedFile]).

(** A file of five bytes that has nothing to read. *)
Definition shortFile : Item := mkItem "short" 5 true true [] [] false true.
Definition drainedSender : World :=
  after [Connected; PacketSent] (newTransfer (Some oneFile) [shortFile]).

(** A receiver that has had the transfer header of one item of five
    bytes. *)
Definition awaitingItem : World :=
  after [PacketReceived (mkPacket Json "header-one")] Demo.receiver.

(** A whole transfer as the receiver sees it. *)
Definition wholeTransfer : list Event :=
  [PacketReceived (mkPacket Json "header-one");
   PacketReceived (mkPacket Json "item-a");
   PacketReceived (mkPacket Binary "he");
   PacketReceived (mkPacket Binary "llo")].

(** A transfer whose header announces a size of -1, up to the first
    byte of content. *)
Definition negativeTransfer : list Event :=
  [PacketReceived (mkPacket Json "header-negative");
   PacketReceived (mkPacket Json "item-a");
   PacketReceived (mkPacket Binary "h")].

(** A receiver in the middle of an item, with two of 2^62 bytes
    missing. *)
Definition almostAll : World :=
  mkWorld (set_progress 99
             (set_bytesTransferred (2 ^ 62 - 2)
                (set_bytesTotal (2 ^ 62) (priv Demo.receivingContent))))
          (items Demo.receivingContent).

End Scenario.

(** * Facts about the embedding *)

(** ** Machine integers *)

Lemma wrap_small w z :
  0 < w -> - 2 ^ (w - 1) <= z < 2 ^ (w - 1) -> MachineInt.wrap w z = z.
Proof.
  intros Hw Hz. unfold MachineInt.wrap.
  assert (E : 2 ^ w = 2 * 2 ^ (w - 1)).
  { replace w with (Z.succ (w - 1)) at 1 by lia. apply Z.pow_succ_r. lia. }
  rewrite Z.mod_small; lia.
Qed.

(** ** Decimal strings: [toLongLong] and [toInt] undo [number] *)

Section DecimalStrings.
Import QtNumber.

Lemma digits_of_uint_acc (u : Decimal.uint) (p : positive) :
  digits (NilEmpty.string_of_uint u) (Z.pos p) = Some (Z.pos (Pos.of_uint_acc u p)).
Proof.
  revert p. induction u; intros p; cbn [NilEmpty.string_of_uint digits Pos.of_uint_acc];
    [reflexivity | ..];
    (change (digitValue _) with (Some 0)
     || change (digitValue _) with (Some 1)
     || change (digitValue _) with (Some 2)
     || change (digitValue _) with (Some 3)
     || change (digitValue _) with (Some 4)
     || change (digitValue _) with (Some 5)
     || change (digitValue _) with (Some 6)
     || change (digitValue _) with (Some 7)
     || change (digitValue _) with (Some 8)
     || change (digitValue _) with (Some 9));
    cbv iota beta; rewrite <- IHu; f_equal; lia.
Qed.

Lemma digits_of_uint (u : Decimal.uint) :
  digits (NilEmpty.string_of_uint u) 0 = Some (Z.of_N (Pos.of_uint u)).
Proof.
  induction u; cbn [NilEmpty.string_of_uint digits Pos.of_uint];
    [reflexivity | exact IHu | ..];
    cbn [Z.of_N]; rewrite <- digits_of_uint_acc; reflexivity.
Qed.

Lemma trimRight_of_uint (u : Decimal.uint) :
  trimRight (NilEmpty.string_of_uint u) = NilEmpty.string_of_uint u.
Proof.
  induction u; cbn [NilEmpty.string_of_uint trimRight]; [reflexivity | ..];
    rewrite IHu; reflexivity.
Qed.

Lemma trimRight_cons (c : ascii) (s : string) :
  isSpace c = false -> trimRight (String c s) = String c (trimRight s).
Proof. intros H. cbn [trimRight]. rewrite H. reflexivity. Qed.

Lemma trimLeft_cons (c : ascii) (s : string) :
  isSpace c = false -> trimLeft (String c s) = String c s.
Proof. intros H. cbn [trimLeft]. rewrite H. reflexivity. Qed.

Lemma parse_of_uint (u : Decimal.uint) :
  u <> Decimal.Nil ->
  parseInteger (NilEmpty.string_of_uint u) = Some (Z.of_N (Pos.of_uint u)) /\
  parseInteger (String "-" (NilEmpty.string_of_uint u)) =
    Some (- Z.of_N (Pos.of_uint u)).
Proof.
  intros Hu. pose proof (digits_of_uint u) as Hd.
  pose proof (trimRight_of_uint u) as Ht.
  unfold parseInteger.
  rewrite (trimLeft_cons "-") by reflexivity.
  rewrite (trimRight_cons "-") by reflexivity.
  rewrite Ht.
  destruct u; [congruence | ..];
    cbn [NilEmpty.string_of_uint] in *;
    rewrite trimLeft_cons by reflexivity; rewrite Ht;
    cbv iota beta; unfold unsignedDigits; cbn [isEmpty]; rewrite Hd;
    split; reflexivity.
Qed.

Lemma parse_number (n : Z) : parseInteger (number n) = Some n.
Proof.
  unfold number. destruct n as [|p|p]; [reflexivity | ..];
    cbn [Z.to_int NilZero.string_of_int];
    pose proof (Unsigned.to_uint_nonnil p) as Hn;
    destruct (parse_of_uint (Pos.to_uint p) Hn) as [Hp Hm];
    rewrite DecimalPos.Unsigned.of_to in Hp, Hm;
    unfold NilZero.string_of_uint;
    destruct (Pos.to_uint p) eqn:E; try congruence; assumption.
Qed.

Lemma toLongLong_number (n : Z) :
  - 2 ^ 63 <= n <= 2 ^ 63 - 1 -> toLongLong (number n) = n.
Proof.
  intros Hn. unfold toLongLong. rewrite parse_number.
  unfold MachineInt.in_qint64, MachineInt.qint64_min, MachineInt.qint64_max.
  destruct (Z.leb_spec (- 2 ^ 63) n), (Z.leb_spec n (2 ^ 63 - 1)); cbn; lia.
Qed.

Lemma toInt_number (n : Z) :
  - 2 ^ 31 <= n <= 2 ^ 31 - 1 -> toInt (number n) = n.
Proof.
  intros Hn. unfold toInt. rewrite parse_number.
  unfold MachineInt.in_int, MachineInt.int_min, MachineInt.int_max.
  destruct (Z.leb_spec (- 2 ^ 31) n), (Z.leb_spec n (2 ^ 31 - 1)); cbn; lia.
Qed.

(** Beyond the range of an [int], [toInt] fails and yields 0. *)
Lemma toInt_number_out_of_range (n : Z) :
  2 ^ 31 <= n -> toInt (number n) = 0.
Proof.
  intros Hn. unfold toInt. rewrite parse_number.
  unfold MachineInt.in_int, MachineInt.int_min, MachineInt.int_max.
  destruct (Z.leb_spec n (2 ^ 31 - 1)); [lia |].
  rewrite andb_false_r. reflexivity.
Qed.

End DecimalStrings.

(** ** Doubles: where the percentage is exact *)

Section DoubleFacts.
Import Double.

Lemma pow2_pos (k : Z) : 0 <= k -> 0 < 2 ^ k.
Proof. intros. apply Z.pow_pos_nonneg; lia. Qed.

Lemma pow2_split (a b : Z) : 0 <= a -> 0 <= b -> 2 ^ (a + b) = 2 ^ a * 2 ^ b.
Proof. intros. apply Z.pow_add_r; lia. Qed.

Lemma pow2_succ (k : Z) : 0 <= k -> 2 ^ (k + 1) = 2 * 2 ^ k.
Proof. intros. rewrite pow2_split by lia. change (2 ^ 1) with 2. lia. Qed.

(** [ilog2 n d] is the binary exponent of [n / d]. *)
Lemma ilog2_spec (n d : Z) :
  0 < n -> 0 < d ->
  (0 <= ilog2 n d ->
     d * 2 ^ ilog2 n d <= n < d * 2 ^ (ilog2 n d + 1)) /\
  (ilog2 n d < 0 ->
     d <= n * 2 ^ (- ilog2 n d) /\ n * 2 ^ (- ilog2 n d - 1) < d).
Proof.
  intros Hn Hd. unfold ilog2.
  pose proof (Z.log2_spec n Hn) as [Ha1 Ha2].
  pose proof (Z.log2_spec d Hd) as [Hb1 Hb2].
  pose proof (Z.log2_nonneg n) as Ha0.
  pose proof (Z.log2_nonneg d) as Hb0.
  set (a := Z.log2 n) in *. set (b := Z.log2 d) in *.
  rewrite <- Z.add_1_r in Ha2, Hb2.
  rewrite pow2_succ in Ha2, Hb2 by lia.
  pose proof (pow2_pos a Ha0) as HA. pose proof (pow2_pos b Hb0) as HB.
  destruct (Z.leb_spec 0 (a - b)) as [Hl | Hl].
  - (* n at least as long as d *)
    assert (HAB : 2 ^ a = 2 ^ (a - b) * 2 ^ b).
    { rewrite <- pow2_split by lia. f_equal. lia. }
    pose proof (pow2_pos (a - b) Hl) as HL.
    destruct (Z.leb_spec (d * 2 ^ (a - b)) n) as [Ht | Ht].
    + split; [intros _ | lia].
      rewrite pow2_succ by lia. split; [lia | nia].
    + destruct (Z.eq_dec (a - b) 0) as [Hz | Hz].
      * split; [lia | intros _].
        rewrite Hz in *. change (2 ^ 0) with 1 in *.
        change (- (0 - 1)) with 1. change (1 - 1) with 0.
        change (2 ^ 1) with 2. change (2 ^ 0) with 1. lia.
      * split; [intros _ | lia].
        replace (a - b - 1 + 1) with (a - b) by lia.
        split; [| lia].
        assert (HL' : 2 ^ (a - b) = 2 * 2 ^ (a - b - 1)).
        { rewrite <- pow2_succ by lia. f_equal. lia. }
        pose proof (pow2_pos (a - b - 1) ltac:(lia)). nia.
  - (* d longer than n *)
    assert (HAB : 2 ^ b = 2 ^ (- (a - b)) * 2 ^ a).
    { rewrite <- pow2_split by lia. f_equal. lia. }
    pose proof (pow2_pos (- (a - b)) ltac:(lia)) as HL.
    destruct (Z.leb_spec d (n * 2 ^ (- (a - b)))) as [Ht | Ht].
    + split; [lia | intros _]. split; [lia |].
      assert (HL' : 2 ^ (- (a - b)) = 2 * 2 ^ (- (a - b) - 1)).
      { rewrite <- pow2_succ by lia. f_equal. lia. }
      pose proof (pow2_pos (- (a - b) - 1) ltac:(lia)). nia.
    + split; [lia | intros _].
      replace (- (a - b - 1) - 1) with (- (a - b)) by lia.
      replace (- (a - b - 1)) with (- (a - b) + 1) by lia.
      rewrite pow2_succ by lia. split; [nia | lia].
Qed.

(** The same, scaled so that the significand has 53 bits. *)
Lemma ilog2_scaled (n d : Z) :
  0 < n -> 0 < d -> ilog2 n d <= 52 ->
  d * 2 ^ 52 <= n * 2 ^ (52 - ilog2 n d) < d * 2 ^ 53.
Proof.
  intros Hn Hd HE. destruct (ilog2_spec n d Hn Hd) as [Hp Hm].
  set (E := ilog2 n d) in *.
  pose proof (pow2_pos (52 - E) ltac:(lia)) as HS.
  destruct (Z_lt_le_dec E 0) as [Hneg | Hpos].
  - destruct (Hm Hneg) as [H1 H2].
    assert (E1 : 2 ^ (52 - E) = 2 ^ (- E) * 2 ^ 52).
    { rewrite <- pow2_split by lia. f_equal. lia. }
    assert (E2 : 2 ^ (52 - E) = 2 ^ (- E - 1) * 2 ^ 53).
    { rewrite <- pow2_split by lia. f_equal. lia. }
    pose proof (pow2_pos (- E) ltac:(lia)).
    pose proof (pow2_pos (- E - 1) ltac:(lia)).
    split; nia.
  - destruct (Hp Hpos) as [H1 H2].
    assert (E1 : 2 ^ 52 = 2 ^ E * 2 ^ (52 - E)).
    { rewrite <- pow2_split by lia. f_equal. lia. }
    assert (E2 : 2 ^ 53 = 2 ^ (E + 1) * 2 ^ (52 - E)).
    { rewrite <- pow2_split by lia. f_equal. lia. }
    pose proof (pow2_pos E Hpos). pose proof (pow2_pos (E + 1) ltac:(lia)).
    split; nia.
Qed.

Lemma ilog2_le_52 (n d : Z) : 0 < n < 2 ^ 53 -> 0 < d -> ilog2 n d <= 52.
Proof.
  intros Hn Hd. destruct (ilog2_spec n d ltac:(lia) Hd) as [Hp _].
  destruct (Z_le_gt_dec (ilog2 n d) 52) as [|Hgt]; [assumption | exfalso].
  destruct (Hp ltac:(lia)) as [H1 _].
  assert (2 ^ 53 <= 2 ^ ilog2 n d) by (apply Z.pow_le_mono_r; lia).
  nia.
Qed.

Lemma rne_bounds (n d : Z) :
  0 <= n -> 0 < d ->
  n / d <= rne n d <= n / d + 1 /\
  (rne n d = n / d + 1 -> d <= 2 * (n mod d)).
Proof.
  intros Hn Hd. unfold rne.
  destruct (Z.ltb_spec (2 * (n mod d)) d); [lia |].
  destruct (Z.ltb_spec d (2 * (n mod d))); [lia |].
  destruct (Z.even (n / d)); lia.
Qed.

Lemma rne_exact (n : Z) : rne n 1 = n.
Proof.
  unfold rne. rewrite Z.mod_1_r, Z.div_1_r. reflexivity.
Qed.

(** Integers below 2^53 are doubles. *)
Lemma round_pos_int (n : Z) : 0 < n < 2 ^ 53 -> round_pos n 1 = mk n 0.
Proof.
  intros Hn. unfold round_pos.
  pose proof (ilog2_le_52 n 1 Hn ltac:(lia)) as HE.
  set (E := ilog2 n 1) in *.
  destruct (Z.leb_spec 0 (E - 52)) as [H0 | H0].
  - replace (E - 52) with 0 by lia. change (2 ^ 0) with 1.
    rewrite rne_exact. unfold normalize. cbn [Z.leb Z.compare].
    change (2 ^ 0) with 1. f_equal. lia.
  - rewrite rne_exact. unfold normalize.
    destruct (Z.leb_spec 0 (E - 52)); [lia |].
    pose proof (pow2_pos (- (E - 52)) ltac:(lia)) as HP.
    rewrite Z.mod_mul by lia. cbn [Z.eqb].
    rewrite Z.div_mul by lia. reflexivity.
Qed.

(** Truncating the rounded quotient of two integers gives their integer
    quotient, as long as the dividend is below 2^53. *)
Lemma round_pos_trunc (n d : Z) :
  0 < n < 2 ^ 53 -> 0 < d ->
  Z.quot (num (round_pos n d)) (den (round_pos n d)) = n / d.
Proof.
  intros Hn Hd.
  pose proof (ilog2_le_52 n d Hn Hd) as HE.
  pose proof (ilog2_scaled n d ltac:(lia) Hd HE) as [Hlo Hhi].
  unfold round_pos. set (E := ilog2 n d) in *.
  assert (Hk : n / d * d <= n < (n / d + 1) * d).
  { pose proof (Z.div_mod n d ltac:(lia)). pose proof (Z.mod_pos_bound n d Hd). nia. }
  assert (Hk0 : 0 <= n / d) by (apply Z.div_pos; lia).
  destruct (Z.leb_spec 0 (E - 52)) as [H0 | H0].
  - (* 53 significant bits already: d = 1 *)
    assert (HE52 : E = 52) by lia. rewrite HE52 in *.
    change (52 - 52) with 0 in *. change (2 ^ 0) with 1 in *.
    assert (d = 1) by lia. subst d. rewrite Z.mul_1_r, rne_exact.
    unfold normalize, num, den. cbn [Z.leb Z.compare mant expo Z.max Z.opp].
    change (2 ^ 0) with 1. rewrite !Z.mul_1_r, Z.quot_1_r, Z.div_1_r. reflexivity.
  - set (s := - (E - 52)) in *.
    replace (52 - E) with s in * by (unfold s; lia).
    assert (Hs : 0 < s) by (unfold s; lia).
    pose proof (pow2_pos s ltac:(lia)) as HP.
    set (P := 2 ^ s) in *. set (N := n * P) in *.
    assert (HN : 0 <= N) by (unfold N; nia).
    destruct (rne_bounds N d HN Hd) as [[Hm1 Hm2] Hup].
    set (m := rne N d) in *.
    pose proof (Z.div_mod N d ltac:(lia)) as HNd.
    pose proof (Z.mod_pos_bound N d Hd) as HNr.
    assert (HdP : d < 2 * P).
    { change (2 ^ 53) with (2 * 2 ^ 52) in Hn, Hhi. unfold N in *. nia. }
    assert (Hq_lo : n / d * P <= N / d).
    { apply Z.div_le_lower_bound; [lia |]. unfold N. nia. }
    assert (Hq_hi : N / d < (n / d + 1) * P).
    { apply Z.div_lt_upper_bound; [lia |]. unfold N. nia. }
    assert (Hm_lo : n / d * P <= m) by lia.
    assert (Hm_hi : m < (n / d + 1) * P).
    { destruct (Z.eq_dec m (N / d + 1)) as [Hmq | Hmq]; [| lia].
      specialize (Hup Hmq).
      destruct (Z_lt_le_dec m ((n / d + 1) * P)) as [| Hge]; [assumption | exfalso].
      assert (Hq : N / d = (n / d + 1) * P - 1) by lia.
      assert (N <= (n / d + 1) * d * P - P) by (unfold N; nia).
      nia. }
    assert (Hres : m / P = n / d).
    { symmetry. apply Z.div_unique with (r := m - n / d * P); lia. }
    assert (Hm0 : 0 <= m) by nia.
    unfold normalize.
    destruct (Z.leb_spec 0 (E - 52)); [lia |].
    fold s. fold P.
    destruct (Z.eqb_spec (m mod P) 0) as [Hdiv | Hdiv].
    + unfold num, den. cbn [mant expo Z.max Z.opp Z.leb Z.compare].
      change (2 ^ 0) with 1. rewrite Z.mul_1_r, Z.quot_1_r. exact Hres.
    + unfold num, den. cbn [mant expo].
      rewrite Z.max_l by lia. rewrite Z.max_r by lia.
      change (2 ^ 0) with 1. rewrite Z.mul_1_r. fold s. fold P.
      rewrite Z.quot_div_nonneg by lia. exact Hres.
Qed.

Lemma of_int_exact (n : Z) : 0 <= n < 2 ^ 53 -> of_int n = Some (mk n 0).
Proof.
  intros Hn. unfold of_int, round. cbn [Z.eqb].
  destruct (Z.eqb_spec n 0) as [-> | Hz]; [reflexivity |].
  rewrite Z.abs_eq by lia. change (Z.abs 1) with 1.
  rewrite round_pos_int by lia. cbn [mant expo].
  rewrite Z.sgn_pos by lia. change (Z.sgn 1) with 1.
  f_equal. f_equal. lia.
Qed.

(** In the exact range, the C++ expression is [floor (100 a / b)]. *)
Lemma percentage_exact (a b : Z) :
  0 <= a -> 100 * a < 2 ^ 53 -> 0 < b < 2 ^ 53 ->
  100 * a / b <= MachineInt.int_max ->
  percentage a b = Some (100 * a / b).
Proof.
  intros Ha Ha' Hb Hfit. unfold percentage.
  rewrite (of_int_exact a) by lia. cbn [mbind option_bind].
  assert (Hmul : mul hundred (mk a 0) = Some (mk (100 * a) 0)).
  { unfold mul, hundred, num, den. cbn [mant expo Z.max Z.opp Z.leb Z.compare].
    change (2 ^ 0) with 1. rewrite !Z.mul_1_r. change (1 * 1) with 1.
    apply of_int_exact. lia. }
  rewrite Hmul. cbn [mbind option_bind].
  rewrite (of_int_exact b) by lia. cbn [mbind option_bind].
  assert (Hq0 : 0 <= 100 * a / b) by (apply Z.div_pos; lia).
  unfold div, num at 1, den at 1, num at 1, den at 1.
  cbn [mant expo Z.max Z.opp Z.leb Z.compare]. change (2 ^ 0) with 1.
  rewrite !Z.mul_1_r, Z.mul_1_l. unfold round.
  destruct (Z.eqb_spec b 0); [lia |].
  destruct (Z.eqb_spec (100 * a) 0) as [Hz | Hz].
  - cbn [mbind option_bind]. rewrite Hz in *. rewrite Z.div_0_l by lia. reflexivity.
  - cbn [mbind option_bind]. rewrite !Z.abs_eq by lia.
    rewrite !Z.sgn_pos by lia. rewrite !Z.mul_1_l.
    unfold to_int.
    assert (Hsame : forall r, mk (mant r) (expo r) = r) by (intros []; reflexivity).
    rewrite Hsame. rewrite round_pos_trunc by lia.
    unfold MachineInt.in_int, MachineInt.int_min.
    destruct (Z.leb_spec (- 2 ^ 31) (100 * a / b)); [| lia].
    destruct (Z.leb_spec (100 * a / b) MachineInt.int_max); [| lia].
    reflexivity.
Qed.

End DoubleFacts.

(** ** One event at a time *)

Ltac unfold_members :=
  unfold step, handle, onConnected, cancel, onError, onPacketSent, onPacketReceived,
    processItemContent, processItemHeader, processTransferHeader, processNext,
    sendItemContent, sendItemHeader, sendNext, sendTransferHeader, theBundle,
    setError, setSuccess, updateProgress, unexpectedPacket, default_send,
    item_delete, item_write, item_read, item_size, item_name, item_close, item_open,
    alloc, store, current, liftOption, when, sendPacket, transportClose, emit,
    tell, modify, get, undefined, bind, ret in *.

(** Case analysis on whatever a hypothesis still branches on. *)
Ltac break_match :=
  match goal with
  | H : context [match ?x with _ => _ end] |- _ =>
      lazymatch x with
      | context [match _ with _ => _ end] => fail
      | _ => destruct x eqn:?
      end
  end.

Ltac crush_step :=
  unfold_members; cbn in *;
  repeat (first [break_match | progress simplify_eq]; cbn in *).

(** Name the fields of the transfer, so that projections compute. *)
Ltac destruct_world w :=
  let d := fresh "d" in
  let its := fresh "its" in
  destruct w as [d its]; destruct d; cbn in *.

(** C1 (as amended): whenever a handler raises a terminal error, it sends
    an [Error] packet carrying the message to the peer, unless the error
    was reported by the peer (an inbound [Error] packet), in which case
    the handler sends no packet at all.  A transport error is not an
    exception: [onError] passes [send = true]. *)
Theorem error_packet_unless_peer_reported
    (app : Application) (e : Event) (w w' : World) (t : list Action) (m : QString) :
  step app e w = Some (w', t) ->
  In (Emit (ErrorChanged m)) t ->
  if peerReported e
  then forall q, ~ In (SendPacket q) t
  else In (SendPacket (mkPacket Error (toUtf8 m))) t.
Proof.
  intros H Hin. destruct_world w.
  destruct e; cbn [peerReported]; crush_step; cbn in *; intuition congruence.
Qed.

(** Closing the transport goes with the terminal [StateChanged]. *)
Lemma step_close_discipline
    (app : Application) (e : Event) (w w' : World) (t : list Action) :
  step app e w = Some (w', t) ->
  (Trace.closes t = 0%nat /\ Trace.terminals t = 0%nat) \/
  (Trace.closes t = 1%nat /\ Trace.terminals t = 1%nat /\
   Trace.endsWithTerminalClose t = Some (state (priv w'))).
Proof.
  intros H. destruct_world w. destruct e; crush_step; cbn; auto.
Qed.

Lemma closes_app (t1 t2 : list Action) :
  Trace.closes (t1 ++ t2) = (Trace.closes t1 + Trace.closes t2)%nat.
Proof. unfold Trace.closes. rewrite List.filter_app, length_app. reflexivity. Qed.

Lemma terminals_app (t1 t2 : list Action) :
  Trace.terminals (t1 ++ t2) = (Trace.terminals t1 + Trace.terminals t2)%nat.
Proof. unfold Trace.terminals. rewrite List.filter_app, length_app. reflexivity. Qed.

Lemma run_closes_terminals
    (app : Application) (es : list Event) (w w' : World) (t : list Action) :
  run app es w = Some (w', t) -> Trace.closes t = Trace.terminals t.
Proof.
  revert w w' t. induction es as [|e es IH]; intros w w' t H; cbn in H.
  - simplify_eq. reflexivity.
  - destruct (step app e w) as [[w1 t1]|] eqn:E1; [| discriminate].
    destruct (run app es w1) as [[w2 t2]|] eqn:E2; [| discriminate].
    simplify_eq. rewrite closes_app, terminals_app.
    rewrite (IH _ _ _ E2).
    destruct (step_close_discipline _ _ _ _ _ E1) as [[-> ->] | (-> & -> & _)];
      reflexivity.
Qed.

(** C4 (as amended): the transport is closed once per terminal
    transition, not once per execution.  A handler that announces
    [Succeeded] or [Failed] closes the transport exactly once, right
    after that announcement, and leaves the transfer in the announced
    state; a handler that announces no terminal state does not close;
    over any execution the number of [close()] calls equals the number of
    terminal announcements. *)
Theorem transport_closed_once_per_terminal_transition
    (app : Application) (es : list Event) (e : Event)
    (w0 w w' : World) (t0 t : list Action) :
  run app es w0 = Some (w, t0) ->
  step app e w = Some (w', t) ->
  Trace.closes t0 = Trace.terminals t0 /\
  ((Trace.closes t = 0%nat /\ Trace.terminals t = 0%nat) \/
   (Trace.closes t = 1%nat /\ Trace.terminals t = 1%nat /\
    Trace.endsWithTerminalClose t = Some (state (priv w')))).
Proof.
  intros Hrun Hstep. split.
  - eapply run_closes_terminals; eassumption.
  - eapply step_close_discipline; eassumption.
Qed.

(** ** After a terminal state *)

Lemma step_terminalIsFinished
    (app : Application) (e : Event) (w w' : World) (t : list Action) :
  step app e w = Some (w', t) -> terminalIsFinished w -> terminalIsFinished w'.
Proof.
  unfold terminalIsFinished. intros H [K1 K2]. destruct_world w.
  destruct e; crush_step; cbn in *; split; intros;
    first [congruence | solve [auto] | exfalso; intuition congruence].
Qed.

Lemma run_terminalIsFinished
    (app : Application) (es : list Event) (w w' : World) (t : list Action) :
  run app es w = Some (w', t) -> terminalIsFinished w -> terminalIsFinished w'.
Proof.
  revert w w' t. induction es as [|e es IH]; intros w w' t H K; cbn in H.
  - simplify_eq. assumption.
  - destruct (step app e w) as [[w1 t1]|] eqn:E1; [| discriminate].
    destruct (run app es w1) as [[w2 t2]|] eqn:E2; [| discriminate].
    simplify_eq. eapply IH; [eassumption |].
    eapply step_terminalIsFinished; eassumption.
Qed.

Lemma reachable_terminalIsFinished (app : Application) (w : World) :
  reachable app w -> terminalIsFinished w.
Proof.
  intros (b & objects & es & t & H).
  eapply run_terminalIsFinished; [eassumption |].
  unfold terminalIsFinished, newTransfer, newTransferPrivate; cbn.
  destruct b; split; congruence.
Qed.

(** C3 (as amended): the handlers have no terminal-state guard.  Once the
    transfer is [Succeeded] or [Failed], a [PacketSent] event does
    nothing, and a failed receiver ignores every packet except [Error];
    but [cancel()], a transport error and an inbound [Error] packet run
    [setError] again: each emits [ErrorChanged] and [StateChanged(Failed)]
    and closes the transport once more ([cancel()] and the transport error
    also send another [Error] packet). *)
Theorem terminal_state_quiet_events
    (app : Application) (w : World) :
  reachable app w ->
  isFinished (priv w) = true ->
  step app PacketSent w = Some (w, []) /\
  (state (priv w) = Failed -> direction (priv w) = Receive ->
   forall p, ptype p <> Error -> step app (PacketReceived p) w = Some (w, [])) /\
  (exists w',
     step app Cancel w =
       Some (w', [Log MessageTag (tr "transfer cancelled");
                  SendPacket (mkPacket Error (toUtf8 (tr "transfer cancelled")));
                  Emit (ErrorChanged (tr "transfer cancelled"));
                  Emit (StateChanged Failed);
                  TransportClose])) /\
  (forall m, exists w',
     step app (TransportError m) w =
       Some (w', [Log MessageTag m;
                  SendPacket (mkPacket Error (toUtf8 m));
                  Emit (ErrorChanged m);
                  Emit (StateChanged Failed);
                  TransportClose])) /\
  (forall p, ptype p = Error -> exists w',
     step app (PacketReceived p) w =
       Some (w', [Log MessageTag (fromUtf8 (content p));
                  Emit (ErrorChanged (fromUtf8 (content p)));
                  Emit (StateChanged Failed);
                  TransportClose])).
Proof.
  intros Hreach Hterm.
  destruct (reachable_terminalIsFinished _ _ Hreach) as [K1 K2].
  destruct w as [d its]; unfold isFinished in Hterm; cbn in *.
  assert (Hfin : direction d = Send \/ state d = Failed -> protocolState d = Finished).
  { intros [Hs | Hf]; [| auto].
    destruct (state d) eqn:Es; cbn in Hterm; try discriminate; auto. }
  split; [| split; [| split; [| split]]].
  - unfold_members; cbn.
    destruct (direction d) eqn:Ed; [| reflexivity].
    rewrite Hfin by auto. reflexivity.
  - intros Hf Hr p Hp. unfold_members.
    destruct (ptype p) eqn:Ep; try congruence; cbn; rewrite Hr, (K1 Hf); reflexivity.
  - eexists. unfold_members; cbn. reflexivity.
  - intros m. eexists. unfold_members; cbn. reflexivity.
  - intros p Hp. eexists. unfold_members; cbn. rewrite Hp. reflexivity.
Qed.

(** ** The current item *)

Ltac lookup_side :=
  rewrite ?length_insert, ?length_app; cbn [length];
  repeat match goal with
         | H : ?l !! ?a = Some _ |- _ =>
             lazymatch goal with
             | _ : (a < length l)%nat |- _ => fail
             | _ => pose proof (lookup_lt_Some l a _ H)
             end
         end;
  lia.

Ltac rewrite_lookup :=
  match goal with
  | H : context [ <[?a := ?x]> ?l !! ?a ] |- _ =>
      rewrite (list_lookup_insert_eq l a x) in H by lookup_side
  | H : context [ (?l ++ [?x])%list !! length ?l ] |- _ =>
      rewrite (list_lookup_middle l [] x (length l) eq_refl) in H
  | |- context [ <[?a := ?x]> ?l !! ?a ] =>
      rewrite (list_lookup_insert_eq l a x) by lookup_side
  | |- context [ (?l ++ [?x])%list !! length ?l ] =>
      rewrite (list_lookup_middle l [] x (length l) eq_refl)
  end.

Ltac rewrite_eqs :=
  repeat match goal with
         | H : ?x = ?r |- context [?x] =>
             lazymatch x with
             | _ _ => lazymatch r with context [x] => fail | _ => rewrite H end
             end
         end.

Ltac crush_items :=
  unfold_members; cbn in *;
  repeat (first [rewrite_lookup | break_match | progress simplify_eq]; cbn in *);
  rewrite_eqs; repeat rewrite_lookup; cbn in *.

Lemma step_itemDiscipline
    (app : Application) (e : Event) (w w' : World) (t : list Action) :
  step app e w = Some (w', t) ->
  Trace.raisesError t = false ->
  itemDiscipline w -> itemDiscipline w'.
Proof.
  unfold itemDiscipline, currentItemOpen. intros H Hq HJ.
  destruct_world w.
  destruct e; crush_items; try discriminate.
  all: (destruct HJ as [[? ?] | [HJ1 HJ2]];
    [ left; split; congruence
    | first [ left; split; congruence
            | right; split; intros;
              first [ congruence | apply HJ1; congruence | apply HJ2; congruence
                    | exfalso;
                      match goal with
                      | X : _ |- _ => apply HJ1 in X; congruence
                      | X : _ |- _ => apply HJ2 in X; congruence
                      end ] ] ]).
Qed.

Lemma raisesError_app (t1 t2 : list Action) :
  Trace.raisesError (t1 ++ t2) = Trace.raisesError t1 || Trace.raisesError t2.
Proof. apply existsb_app. Qed.

Lemma run_itemDiscipline
    (app : Application) (es : list Event) (w w' : World) (t : list Action) :
  run app es w = Some (w', t) ->
  Trace.raisesError t = false ->
  itemDiscipline w -> itemDiscipline w'.
Proof.
  revert w w' t. induction es as [|e es IH]; intros w w' t H Hq HJ; cbn in H.
  - simplify_eq. assumption.
  - destruct (step app e w) as [[w1 t1]|] eqn:E1; [| discriminate].
    destruct (run app es w1) as [[w2 t2]|] eqn:E2; [| discriminate].
    simplify_eq. rewrite raisesError_app in Hq.
    apply orb_false_elim in Hq as [Hq1 Hq2].
    eapply IH; [eassumption | assumption |].
    eapply step_itemDiscipline; eassumption.
Qed.

Lemma sendNext_closes (w w' : World) (t : list Action) :
  sendNext w = Some (tt, w', t) -> currentItemOpen w' = false.
Proof.
  unfold currentItemOpen. intros H. crush_items; reflexivity.
Qed.

Lemma processNext_closes (w w' : World) (t : list Action) :
  processNext w = Some (tt, w', t) -> currentItemOpen w' = false.
Proof.
  unfold currentItemOpen. intros H. crush_items; reflexivity.
Qed.

(** C5 (as amended): advancing to the next item ([sendNext],
    [processNext]) closes the current item; and along every execution in
    which no terminal error has been raised, at each event boundary
    before success the current item is open iff [protocolState] is
    [ItemContent].  In [ItemHeader] no item is open: the previous one has
    been closed and the next one is opened only when its header is
    handled. *)
Theorem item_open_iff_content_and_closed_on_advance
    (app : Application) (b : option Bundle) (objects : list Item)
    (es : list Event) (w : World) (t : list Action) :
  run app es (newTransfer b objects) = Some (w, t) ->
  Trace.raisesError t = false ->
  (state (priv w) <> Succeeded ->
   (currentItemOpen w = true <-> protocolState (priv w) = ItemContent)) /\
  (forall w' t', sendNext w = Some (tt, w', t') -> currentItemOpen w' = false) /\
  (forall w' t', processNext w = Some (tt, w', t') -> currentItemOpen w' = false).
Proof.
  intros Hrun Hq. split; [| split].
  - intros Hs.
    assert (HJ : itemDiscipline w).
    { eapply run_itemDiscipline; [eassumption | assumption |].
      right. unfold currentItemOpen, newTransfer, newTransferPrivate; cbn.
      split; discriminate. }
    destruct HJ as [[_ ?] | HJ]; [contradiction | exact HJ].
  - intros w' t'. apply sendNext_closes.
  - intros w' t'. apply processNext_closes.
Qed.

(** ** Progress *)



Lemma den_pos (x : Double.double) : 0 < Double.den x.
Proof. unfold Double.den. apply Z.pow_pos_nonneg; lia. Qed.




(** ** One chunk of content *)

Lemma receiver_dispatch (app : Application) (p : Packet) (w : World) :
  direction (priv w) = Receive -> ptype p <> Error ->
  onPacketReceived app p w =
    match protocolState (priv w) with
    | TransferHeader => processTransferHeader app p w
    | ItemHeader => processItemHeader app p w
    | ItemContent => processItemContent p w
    | Finished => Some (tt, w, [])
    end.
Proof.
  intros Hd Hp. unfold onPacketReceived.
  destruct (ptype p) eqn:Ep; try congruence;
    unfold bind at 1, get; cbv beta iota; rewrite Hd;
    destruct (protocolState (priv w)) eqn:Es; try reflexivity;
    match goal with
    | |- match ?c with _ => _ end = _ => destruct c as [[[[] ?] ?]|]; reflexivity
    end.
Qed.

Lemma qint64_add_small (a b : Z) :
  - 2 ^ 63 <= a + b < 2 ^ 63 -> MachineInt.qint64_add a b = a + b.
Proof. intros H. apply wrap_small; [lia | exact H]. Qed.

Lemma byteLength_nonneg (b : QByteArray) : 0 <= byteLength b.
Proof. unfold byteLength. lia. Qed.

(** [updateProgress] stores the computed value, and announces it when it
    differs from the stored one. *)
Lemma updateProgress_value (w : World) (q : Z) :
  progressOf (bytesTotal (priv w)) (bytesTransferred (priv w)) = Some q ->
  updateProgress w =
    Some (tt, mkWorld (set_progress q (priv w)) (items w),
          if q =? progress (priv w) then [] else [Emit (ProgressChanged q)]).
Proof.
  unfold progressOf. intros Hq. unfold_members. cbv beta iota.
  assert (Heta : forall d, set_progress (progress d) d = d) by (intros []; reflexivity).
  assert (Hw : forall v, mkWorld (priv v) (items v) = v) by (intros []; reflexivity).
  destruct (bytesTotal (priv w) =? 0).
  - injection Hq as <-. cbv beta iota.
    destruct (Z.eqb_spec 0 (progress (priv w))) as [E | E]; [| reflexivity].
    assert (Hset : mkWorld (set_progress 0 (priv w)) (items w) = w)
      by (rewrite E, Heta; apply Hw).
    rewrite Hset. reflexivity.
  - rewrite Hq. cbv beta iota.
    destruct (Z.eqb_spec q (progress (priv w))) as [E | E]; [| reflexivity].
    assert (Hset : mkWorld (set_progress q (priv w)) (items w) = w)
      by (rewrite E, Heta; apply Hw).
    rewrite Hset. reflexivity.
Qed.

Lemma progress_trace (q p : Z) :
  let tp := if q =? p then [] else [Emit (ProgressChanged q)] in
  Signals.packets tp = [] /\ Trace.raisesError tp = false /\
  Signals.progressValues tp = (if q =? p then [] else [q]).
Proof. cbv zeta. destruct (q =? p); repeat split; reflexivity. Qed.

Lemma processNext_result (w : World) (a : nat) (it : Item) :
  currentItem (priv w) = Some a ->
  items w !! a = Some it ->
  alive it = true ->
  processNext w =
    let d := set_itemIndex (MachineInt.int_add (itemIndex (priv w)) 1) (priv w) in
    let its := <[a := set_alive false (set_is_open false it)]> (items w) in
    if itemIndex d =? itemCount d
    then Some (tt, mkWorld (set_state Succeeded d) its,
               [SendPacket (mkPacket Success EmptyString);
                Emit (StateChanged Succeeded); TransportClose])
    else Some (tt, mkWorld (set_protocolState ItemHeader d) its, []).
Proof.
  intros Hc Hi Ha. pose proof (lookup_lt_Some _ _ _ Hi) as Hlt.
  destruct w as [[bn ps dir st pr dn er ii ic bt btot ci cbt cbtot] its].
  cbn in *. subst.
  unfold_members. cbn.
  repeat first
    [ rewrite list_lookup_insert_eq by (rewrite ?length_insert; assumption)
    | rewrite Hi | rewrite Ha | rewrite list_insert_insert_eq | progress cbn ].
  destruct (_ =? ic); reflexivity.
Qed.

(** What a receiver in [ItemContent] does with a packet: its payload is
    written to the current item and accounted, whatever its type. *)
Lemma content_result
    (app : Application) (w : World) (a : nat) (it : Item) (p : Packet) (q : Z) :
  direction (priv w) = Receive ->
  ptype p <> Error ->
  protocolState (priv w) = ItemContent ->
  currentItem (priv w) = Some a ->
  items w !! a = Some it ->
  alive it = true ->
  let B' := MachineInt.qint64_add (bytesTransferred (priv w))
              (byteLength (content p)) in
  let c' := MachineInt.qint64_add (currentItemBytesTransferred (priv w))
              (byteLength (content p)) in
  progressOf (bytesTotal (priv w)) B' = Some q ->
  let tp := if q =? progress (priv w) then [] else [Emit (ProgressChanged q)] in
  let it' := set_written (written it ++ [content p])%list it in
  let d := set_progress q
             (set_currentItemBytesTransferred c'
                (set_bytesTransferred B' (priv w))) in
  step app (PacketReceived p) w =
    if currentItemBytesTotal (priv w) <=? c' then
      let d' := set_itemIndex (MachineInt.int_add (itemIndex d) 1) d in
      let its := <[a := set_alive false (set_is_open false it')]> (items w) in
      if itemIndex d' =? itemCount d'
      then Some (mkWorld (set_state Succeeded d') its,
                 (tp ++ [SendPacket (mkPacket Success EmptyString);
                         Emit (StateChanged Succeeded); TransportClose])%list)
      else Some (mkWorld (set_protocolState ItemHeader d') its, tp)
    else Some (mkWorld d (<[a := it']> (items w)), tp).
Proof.
  intros Hd Hp Hs Hc Hi Ha B' c' Hq tp it' d.
  pose proof (lookup_lt_Some _ _ _ Hi) as Hlt.
  unfold step, handle.
  rewrite receiver_dispatch by assumption.
  rewrite Hs. unfold processItemContent.
  subst d it' tp. revert Hq. subst B' c'.
  destruct w as [[bn ps dir st pr dn er ii ic bt btot ci cbt cbtot] its].
  cbn in Hd, Hs, Hc, Hi, Hlt. subst.
  cbn [priv bytesTotal bytesTransferred currentItemBytesTransferred
       currentItemBytesTotal progress items].
  intros Hq.
  unfold bind at 1. unfold item_write, current, store, bind at 1.
  cbn [priv items currentItem]. rewrite Hi, Ha.
  cbv beta iota. cbn [fst snd priv items].
  unfold bind at 1. unfold modify at 1. cbv beta iota. cbn [priv items].
  unfold bind at 1. unfold modify at 1. cbv beta iota. cbn [priv items].
  unfold bind at 1.
  cbn [set_bytesTransferred set_currentItemBytesTransferred
       bytesTransferred currentItemBytesTransferred priv items].
  erewrite updateProgress_value by exact Hq.
  cbv beta iota.
  unfold bind at 1, get, when. cbv beta iota. cbn.
  destruct (cbtot <=? _) eqn:E.
  - erewrite processNext_result;
      [| reflexivity
       | cbn; apply list_lookup_insert_eq; assumption
       | exact Ha ].
    cbn. rewrite list_insert_insert_eq.
    destruct (_ =? ic); cbn; rewrite ?app_nil_r; reflexivity.
  - cbn. rewrite !app_nil_r. reflexivity.
Qed.

Lemma sendNext_result (w : World) (a : nat) (it : Item) :
  currentItem (priv w) = Some a ->
  items w !! a = Some it ->
  alive it = true ->
  sendNext w =
    let d := set_itemIndex (MachineInt.int_add (itemIndex (priv w)) 1) (priv w) in
    let its := <[a := set_is_open false it]> (items w) in
    Some (tt,
          mkWorld (set_protocolState
                     (if itemIndex d =? itemCount d then Finished else ItemHeader) d)
                  its,
          []).
Proof.
  intros Hc Hi Ha.
  destruct w as [[bn ps dir st pr dn er ii ic bt btot ci cbt cbtot] its].
  cbn in *. subst.
  unfold_members. cbn. rewrite Hi, Ha. cbn.
  destruct (_ =? ic); reflexivity.
Qed.

(** What a sender in [ItemContent] does on [PacketSent]: the next chunk
    is read, sent and accounted. *)
Lemma send_result
    (app : Application) (w : World) (a : nat) (it : Item) (q : Z) :
  direction (priv w) = Send ->
  protocolState (priv w) = ItemContent ->
  currentItem (priv w) = Some a ->
  items w !! a = Some it ->
  alive it = true ->
  let data := nextChunk it in
  let it' := match pending it with _ :: r => set_pending r it | [] => it end in
  let B' := MachineInt.qint64_add (bytesTransferred (priv w)) (byteLength data) in
  let c' := MachineInt.qint64_add (currentItemBytesTransferred (priv w))
              (byteLength data) in
  progressOf (bytesTotal (priv w)) B' = Some q ->
  let tp := if q =? progress (priv w) then [] else [Emit (ProgressChanged q)] in
  let d := set_progress q
             (set_currentItemBytesTransferred c'
                (set_bytesTransferred B' (priv w))) in
  step app PacketSent w =
    if currentItemBytesTotal (priv w) <=? c' then
      let d' := set_itemIndex (MachineInt.int_add (itemIndex d) 1) d in
      Some (mkWorld
              (set_protocolState
                 (if itemIndex d' =? itemCount d' then Finished else ItemHeader) d')
              (<[a := set_is_open false it']> (items w)),
            SendPacket (mkPacket Binary data) :: tp)
    else Some (mkWorld d (<[a := it']> (items w)),
               SendPacket (mkPacket Binary data) :: tp).
Proof.
  intros Hd Hs Hc Hi Ha data it' B' c' Hq tp d.
  pose proof (lookup_lt_Some _ _ _ Hi) as Hlt.
  assert (Hid : <[a := it]> (items w) = items w) by (apply list_insert_id; exact Hi).
  unfold step, handle, onPacketSent.
  unfold bind at 1, get. cbv beta iota. rewrite Hd, Hs.
  unfold sendItemContent.
  subst d tp. revert Hq. subst B' c'.
  destruct w as [[bn ps dir st pr dn er ii ic bt btot ci cbt cbtot] its].
  cbn in Hd, Hs, Hc, Hi, Hlt, Hid. subst.
  cbn [priv bytesTotal bytesTransferred currentItemBytesTransferred
       currentItemBytesTotal progress items].
  intros Hq.
  assert (Hread : item_read
            (mkWorld (mkTransferPrivate bn ItemContent Send st pr dn er ii ic bt
                        btot (Some a) cbt cbtot) its)
          = Some (data,
                  mkWorld (mkTransferPrivate bn ItemContent Send st pr dn er ii ic
                             bt btot (Some a) cbt cbtot) (<[a := it']> its),
                  [])).
  { unfold item_read, current, store, bind, ret. cbn. rewrite Hi, Ha. cbn.
    subst data it'. unfold nextChunk.
    destruct (pending it); cbn; [rewrite Hid |]; reflexivity. }
  unfold bind at 1. rewrite Hread. cbv beta iota.
  unfold bind at 1. unfold sendPacket, tell. cbv beta iota.
  unfold bind at 1. unfold modify at 1. cbv beta iota. cbn [priv items].
  unfold bind at 1. unfold modify at 1. cbv beta iota. cbn [priv items].
  unfold bind at 1.
  cbn [set_bytesTransferred set_currentItemBytesTransferred
       bytesTransferred currentItemBytesTransferred priv items].
  erewrite updateProgress_value by exact Hq.
  cbv beta iota.
  unfold bind at 1, get, when. cbv beta iota. cbn.
  assert (Ha' : alive it' = true).
  { subst it'. destruct (pending it); exact Ha. }
  destruct (cbtot <=? _) eqn:E.
  - erewrite sendNext_result;
      [| reflexivity
       | cbn; apply list_lookup_insert_eq; assumption
       | exact Ha' ].
    cbn. rewrite list_insert_insert_eq, app_nil_r. reflexivity.
  - cbn. rewrite !app_nil_r. reflexivity.
Qed.

(** The counters and the progress change in [sendItemContent] and
    [processItemContent] only. *)
Lemma accounting_events
    (app : Application) (e : Event) (w w' : World) (t : list Action) :
  step app e w = Some (w', t) ->
  bytesTransferred (priv w') <> bytesTransferred (priv w) \/
  progress (priv w') <> progress (priv w) ->
  protocolState (priv w) = ItemContent /\
  match direction (priv w) with
  | Send => e = PacketSent \/ e = Connected
  | Receive => exists p, e = PacketReceived p /\ ptype p <> Error
  end.
Proof.
  intros H Hne. destruct_world w.
  destruct e; crush_step; cbn in *;
    try (exfalso; destruct Hne as [Hne | Hne]; apply Hne; reflexivity);
    (split; [reflexivity |]);
    first [ left; reflexivity | right; reflexivity
          | eexists; split; [reflexivity | congruence] ].
Qed.

(** The slot of [connected] announces [InProgress] and then does what
    [onPacketSent] does. *)
Lemma connected_step (app : Application) (w : World) :
  direction (priv w) = Send ->
  step app Connected w =
    match step app PacketSent (mkWorld (set_state InProgress (priv w)) (items w)) with
    | Some (w', t) => Some (w', Emit (StateChanged InProgress) :: t)
    | None => None
    end.
Proof.
  intros Hd. unfold step, handle, onConnected.
  unfold bind at 1, get. cbv beta iota. rewrite Hd.
  unfold bind at 1, modify. cbv beta iota.
  unfold bind at 1, emit, tell. cbv beta iota.
  destruct (onPacketSent app _) as [[[[] w'] t]|]; reflexivity.
Qed.

(** C7 (as amended): the bytes are accounted by [sendItemContent] (a
    sender's [PacketSent], or [connected], in [ItemContent]) and by
    [processItemContent]
    (a packet other than [Error] for a receiver in [ItemContent]), and by
    no other handler.  Each of them, after adding the length of the
    chunk to [bytesTransferred], leaves [progress] at
    [floor (100 * bytesTransferred / bytesTotal)] when [bytesTotal] is
    positive and the operands are in the range where the double
    computation is exact ([100 * bytesTransferred] and [bytesTotal] below
    2^53, the quotient representable as an [int]), and at 0 when
    [bytesTotal] is 0; [ProgressChanged] is emitted exactly when that
    value differs from the stored [progress], and carries it. *)
Theorem progress_is_floor_in_exact_range (app : Application) :
  (forall (e : Event) (w : World) (a : nat) (it : Item) (data : QByteArray),
     protocolState (priv w) = ItemContent ->
     currentItem (priv w) = Some a ->
     items w !! a = Some it ->
     alive it = true ->
     (direction (priv w) = Send /\ (e = PacketSent \/ e = Connected) /\
      data = nextChunk it) \/
     (direction (priv w) = Receive /\
      exists type, type <> Error /\ e = PacketReceived (mkPacket type data)) ->
     let total := bytesTotal (priv w) in
     let transferred :=
       MachineInt.qint64_add (bytesTransferred (priv w)) (byteLength data) in
     let p := if total =? 0 then 0 else 100 * transferred / total in
     total = 0 \/
     (0 <= transferred /\ 100 * transferred < 2 ^ 53 /\
      0 < total < 2 ^ 53 /\
      100 * transferred / total <= MachineInt.int_max) ->
     exists w' t,
       step app e w = Some (w', t) /\
       bytesTransferred (priv w') = transferred /\
       bytesTotal (priv w') = total /\
       progress (priv w') = p /\
       Signals.progressValues t = (if p =? progress (priv w) then [] else [p])) /\
  (forall (e : Event) (w w' : World) (t : list Action),
     step app e w = Some (w', t) ->
     bytesTransferred (priv w') <> bytesTransferred (priv w) \/
     progress (priv w') <> progress (priv w) ->
     protocolState (priv w) = ItemContent /\
     match direction (priv w) with
     | Send => e = PacketSent \/ e = Connected
     | Receive => exists p, e = PacketReceived p /\ ptype p <> Error
     end).
Proof.
  split; [| intros e w w' t; apply accounting_events].
  intros e w a it data Hs Hc Hi Ha Hcase total transferred p Hrange.
  assert (Hq : progressOf total transferred = Some p).
  { unfold progressOf. subst p.
    destruct Hrange as [Hz | (H0 & H1 & H2 & H3)].
    - rewrite Hz. reflexivity.
    - destruct (Z.eqb_spec total 0) as [Hz | _]; [lia |].
      apply percentage_exact; assumption. }
  clearbody p. subst total transferred.
  destruct Hcase as [(Hd & [-> | ->] & ->) | (Hd & type & Htype & ->)].
  - rewrite (send_result app w a it p Hd Hs Hc Hi Ha Hq).
    destruct (p =? progress (priv w));
      destruct (currentItemBytesTotal (priv w) <=? _);
      eexists _, _; (split; [reflexivity |]);
      destruct w as [[bn ps dir st pr dn er ii ic bt btot ci cbt cbtot] its];
      cbn; repeat split; reflexivity.
  - rewrite (connected_step app w Hd).
    rewrite (send_result app (mkWorld (set_state InProgress (priv w)) (items w))
               a it p);
      try (destruct w as [[bn ps dir st pr dn er ii ic bt btot ci cbt cbtot] its];
           cbn in *; assumption).
    destruct (p =? progress (priv w)) eqn:Ep;
      destruct w as [[bn ps dir st pr dn er ii ic bt btot ci cbt cbtot] its];
      cbn in *; rewrite ?Ep;
      destruct (cbtot <=? _);
      eexists _, _; (split; [reflexivity |]);
      cbn; repeat split; reflexivity.
  - rewrite (content_result app w a it (mkPacket type data) p Hd Htype Hs Hc Hi Ha Hq).
    cbn [content].
    destruct (p =? progress (priv w));
      (destruct (currentItemBytesTotal (priv w) <=? _);
       [destruct (_ =? _) |]);
      eexists _, _; (split; [reflexivity |]);
      destruct w as [[bn ps dir st pr dn er ii ic bt btot ci cbt cbtot] its];
      cbn; repeat split; reflexivity.
Qed.

(** ** The receiver's headers *)

(** C2 (as amended): for a received transfer header whose [count] and
    [size] are the decimal strings of [c] and [z], the receiver sets
    [bytesTotal] to exactly [z] for every [z] up to 2^63 - 1 (a [qint64],
    parsed with [toLongLong]), but [itemCount] to [c] only for [c] up to
    2^31 - 1: the count is an [int], parsed with [toInt], and a larger
    count is read as 0. *)
Theorem header_size_64bit_count_32bit
    (app : Application) (w : World) (p : Packet)
    (doc : Json.QJsonDocument) (c z : Z) :
  direction (priv w) = Receive ->
  protocolState (priv w) = TransferHeader ->
  ptype p <> Error ->
  fromJson app (content p) = Json.ParseOk doc ->
  Json.value (Json.object doc) "count" = JString (QtNumber.number c) ->
  Json.value (Json.object doc) "size" = JString (QtNumber.number z) ->
  0 <= c -> 0 <= z <= 2 ^ 63 - 1 ->
  exists w' t,
    step app (PacketReceived p) w = Some (w', t) /\
    itemCount (priv w') = (if c <=? 2 ^ 31 - 1 then c else 0) /\
    bytesTotal (priv w') = z.
Proof.
  intros Hd Hs Hp Hdoc Hc Hz Hc0 Hz0.
  unfold step, handle. rewrite receiver_dispatch by assumption.
  rewrite Hs. unfold processTransferHeader. rewrite Hdoc, Hc, Hz.
  cbn [Json.toString]. rewrite toLongLong_number by lia.
  replace (QtNumber.toInt (QtNumber.number c))
    with (if c <=? 2 ^ 31 - 1 then c else 0).
  2:{ destruct (Z.leb_spec c (2 ^ 31 - 1)).
      - rewrite toInt_number; lia.
      - rewrite toInt_number_out_of_range; lia. }
  unfold_members.
  destruct (negb (isEmpty _)); cbn; eexists _, _; repeat split; reflexivity.
Qed.

(** C6 (what the code does with an empty bundle): the receiver handles
    a transfer header announcing no items by moving to [ItemHeader] and
    waiting, still [InProgress]: it sends no [Success] packet.  The
    sender sends the transfer header; on the next [PacketSent] it fetches
    row 0 of the empty bundle, a null pointer, and dereferences it; a
    [Success] packet arriving at that point is a protocol error. *)
Theorem empty_bundle_not_completed
    (app : Application) (p : Packet) (doc : Json.QJsonDocument)
    (objects : list Item) (total : Z) :
  ptype p <> Error ->
  fromJson app (content p) = Json.ParseOk doc ->
  QtNumber.toInt (Json.toString (Json.value (Json.object doc) "count")) = 0 ->
  (exists w t,
     step app (PacketReceived p) (newTransfer None objects) = Some (w, t) /\
     itemCount (priv w) = 0 /\
     state (priv w) = InProgress /\
     protocolState (priv w) = ItemHeader /\
     existsb Trace.isSend t = false) /\
  (exists w header,
     run app [Connected] (newTransfer (Some (mkBundle [] total)) objects) =
       Some (w, [Emit (StateChanged InProgress); SendPacket (mkPacket Json header)]) /\
     protocolState (priv w) = ItemHeader) /\
  run app [Connected; PacketSent]
    (newTransfer (Some (mkBundle [] total)) objects) = None /\
  (exists w t,
     run app [Connected; PacketReceived (mkPacket Success EmptyString)]
       (newTransfer (Some (mkBundle [] total)) objects) = Some (w, t) /\
     state (priv w) = Failed /\
     error (priv w) = unexpectedPacket).
Proof.
  intros Hp Hdoc Hcount. split; [| split; [| split]].
  - unfold step, handle. rewrite receiver_dispatch by (assumption || reflexivity).
    cbn [newTransfer newTransferPrivate priv protocolState].
    unfold processTransferHeader. rewrite Hdoc, Hcount.
    unfold_members.
    destruct (negb (isEmpty _)); cbn; eexists _, _; repeat split; reflexivity.
  - cbn. eexists _, _. split; reflexivity.
  - reflexivity.
  - cbn. eexists _, _. repeat split; reflexivity.
Qed.

(** C8: the type tag of an incoming item header is the (string) value of
    its [type] field when the object has one; otherwise it is
    ["directory"] when a [directory] field is present and ["file"] when
    it is not.  That tag is what the handler registry is asked for: it is
    named in the error raised when no handler is registered, and passed
    to the handler that creates the item. *)
Theorem item_header_type_rule
    (app : Application) (w : World) (p : Packet) (doc : Json.QJsonDocument) :
  direction (priv w) = Receive ->
  protocolState (priv w) = ItemHeader ->
  ptype p <> Error ->
  fromJson app (content p) = Json.ParseOk doc ->
  let object := Json.object doc in
  exists type : QString,
    (forall v, object !! "type" = Some v -> type = Json.toString v) /\
    (object !! "type" = None -> object !! "directory" <> None ->
     type = "directory") /\
    (object !! "type" = None -> object !! "directory" = None ->
     type = "file") /\
    (handlerRegistry_find app type = None ->
     exists w',
       step app (PacketReceived p) w =
         Some (w', let message :=
                     arg1 (tr "unrecognized item type " ++ dquote) type dquote in
                   [Log MessageTag message;
                    SendPacket (mkPacket Error (toUtf8 message));
                    Emit (ErrorChanged message);
                    Emit (StateChanged Failed);
                    TransportClose])) /\
    (forall h w' t,
       handlerRegistry_find app type = Some h ->
       step app (PacketReceived p) w = Some (w', t) ->
       exists item,
         items w' !! length (items w) = Some item /\
         name item = name (createItem h type object) /\
         size item = size (createItem h type object) /\
         currentItem (priv w') = Some (length (items w))).
Proof.
  intros Hd Hs Hp Hdoc object.
  exists (headerType object).
  split; [| split; [| split; [| split]]].
  - intros v Hv. unfold headerType, Json.contains, Json.value. rewrite Hv. reflexivity.
  - intros Ht Hdir. unfold headerType, Json.contains. rewrite Ht.
    destruct (object !! "directory"); [reflexivity | congruence].
  - intros Ht Hdir. unfold headerType, Json.contains. rewrite Ht, Hdir. reflexivity.
  - intros Hnone. unfold step, handle.
    rewrite receiver_dispatch by assumption. rewrite Hs.
    unfold processItemHeader. rewrite Hdoc. fold object. rewrite Hnone.
    unfold_members. cbn. eexists. reflexivity.
  - intros h w' t Hsome Hstep. unfold step, handle in Hstep.
    rewrite receiver_dispatch in Hstep by assumption. rewrite Hs in Hstep.
    unfold processItemHeader in Hstep. rewrite Hdoc in Hstep.
    fold object in Hstep. rewrite Hsome in Hstep.
    set (new := createItem h (headerType object) object) in *.
    clearbody new. clear Hsome Hdoc Hs Hd.
    destruct_world w.
    crush_items; eexists; repeat split;
      repeat rewrite_lookup; try reflexivity;
      rewrite ?list_lookup_insert_eq by lookup_side;
      try apply (list_lookup_middle _ [] _ _ eq_refl); reflexivity.
Qed.

Lemma receiver_never_unexpected
    (app : Application) (w w' : World) (p : Packet) (t : list Action) :
  direction (priv w) = Receive ->
  step app (PacketReceived p) w = Some (w', t) ->
  ~ In (SendPacket (mkPacket Error (toUtf8 unexpectedPacket))) t /\
  (ptype p <> Error -> ~ In (Emit (ErrorChanged unexpectedPacket)) t).
Proof.
  intros Hd H. destruct_world w. subst.
  crush_items; unfold arg1, tr, toUtf8, fromUtf8 in *; cbn;
    cbv beta iota delta [String.append];
    split; intros; intuition congruence.
Qed.

Lemma receiver_writes_content
    (app : Application) (w : World) (p : Packet) (a : nat) (it : Item) :
  direction (priv w) = Receive ->
  ptype p <> Error ->
  protocolState (priv w) = ItemContent ->
  currentItem (priv w) = Some a ->
  items w !! a = Some it ->
  alive it = true ->
  progressDefined (bytesTotal (priv w))
    (MachineInt.qint64_add (bytesTransferred (priv w)) (byteLength (content p))) ->
  exists w' t it',
    step app (PacketReceived p) w = Some (w', t) /\
    items w' !! a = Some it' /\
    written it' = (written it ++ [content p])%list.
Proof.
  intros Hd Hp Hs Hc Hi Ha Hdef.
  pose proof (lookup_lt_Some _ _ _ Hi) as Hlt.
  unfold progressDefined in Hdef.
  destruct (progressOf _ _) as [q|] eqn:Hq; [| congruence].
  rewrite (content_result app w a it p q Hd Hp Hs Hc Hi Ha Hq).
  cbv zeta.
  repeat match goal with
         | |- context [if ?c then _ else _] => destruct c
         end;
    eexists _, _, _; (split; [reflexivity |]); cbn [items];
    (split; [apply list_lookup_insert_eq; assumption | reflexivity]).
Qed.

(** What becomes of a payload that the reader accepts while an item
    header is expected. *)
Lemma item_header_outcome
    (app : Application) (w : World) (p : Packet) (doc : Json.QJsonDocument) :
  direction (priv w) = Receive ->
  ptype p <> Error ->
  protocolState (priv w) = ItemHeader ->
  fromJson app (content p) = Json.ParseOk doc ->
  let type := headerType (Json.object doc) in
  match handlerRegistry_find app type with
  | None =>
      exists w',
        step app (PacketReceived p) w =
          Some (w', failureTrace
                      (arg1 (tr "unrecognized item type " ++ dquote) type dquote))
  | Some h =>
      let new := createItem h type (Json.object doc) in
      alive new = true ->
      if openWrite new
      then exists w' t,
             step app (PacketReceived p) w = Some (w', t) /\
             Trace.raisesError t = false
      else exists w',
             step app (PacketReceived p) w =
               Some (w', failureTrace
                           (arg1 (tr "unable to open " ++ dquote) (name new)
                              (dquote ++ " for writing")))
  end.
Proof.
  intros Hd Hp Hs Hdoc type.
  unfold step, handle. rewrite receiver_dispatch by assumption.
  rewrite Hs. unfold processItemHeader. rewrite Hdoc. fold type.
  assert (Hins : forall x (l : list Item) y,
            <[length l := y]> (l ++ [x])%list = (l ++ [y])%list).
  { intros x l y. rewrite insert_app_r_alt by lia.
    rewrite Nat.sub_diag. reflexivity. }
  destruct (handlerRegistry_find app type) as [h|].
  - intros Halive. set (new := createItem h type (Json.object doc)) in *.
    clearbody new type. clear Hdoc.
    destruct w as [[bn ps dir st pr dn er ii ic bt btot ci cbt cbtot] its].
    cbn in Hd, Hs. subst.
    destruct (openWrite new) eqn:Hopen.
    + destruct (size new =? 0) eqn:Hsize;
        [destruct (MachineInt.int_add ii 1 =? ic) eqn:E |];
        unfold_members; cbn;
        repeat first
          [ rewrite (list_lookup_middle its [] _ _ eq_refl)
          | rewrite Hins | rewrite Halive | rewrite Hopen | rewrite Hsize
          | rewrite E | progress cbn ];
        eexists _, _; split; reflexivity.
    + unfold_members. cbn.
      repeat first
        [ rewrite (list_lookup_middle its [] _ _ eq_refl)
        | rewrite Halive | rewrite Hopen | progress cbn ].
      eexists. reflexivity.
  - unfold_members. cbn. eexists. reflexivity.
Qed.

Lemma transfer_header_fails_only_on_parse
    (app : Application) (w w' : World) (p : Packet) (t : list Action) (m : QString) :
  direction (priv w) = Receive ->
  ptype p <> Error ->
  protocolState (priv w) = TransferHeader ->
  step app (PacketReceived p) w = Some (w', t) ->
  In (Emit (ErrorChanged m)) t ->
  exists errorString,
    fromJson app (content p) = Json.ParseError errorString /\
    m = arg1 "transfer header: " errorString EmptyString.
Proof.
  intros Hd Hp Hs H Hin. unfold step, handle in H.
  rewrite receiver_dispatch in H by assumption. rewrite Hs in H.
  unfold processTransferHeader in H.
  destruct (fromJson app (content p)) as [doc | e] eqn:Ep.
  - exfalso. crush_step; cbn in Hin; intuition congruence.
  - exists e. split; [reflexivity |].
    crush_step. cbn in Hin. intuition congruence.
Qed.

(** C9 (as amended): a receiver dispatches every packet other than
    [Error] on [protocolState] alone.  Two such packets with the same
    payload are handled identically whatever their type.  While a header
    is expected the payload goes to the JSON reader, and a payload it
    rejects fails the transfer with the reader's message
    ([transfer header: ...] or [item header: ...]); this is the only way
    the transfer header can fail.  A payload the reader accepts while an
    item header is expected is handled as an item header: it fails with
    [unrecognized item type "..."] when no handler is registered for its
    type, with [unable to open "..." for writing] when the new item
    cannot be opened, and not at all otherwise.  In [ItemContent] the
    packet is handled and its payload is written to the current item.
    No input makes a receiver raise
    [protocol error - unexpected packet]. *)
Theorem receiver_dispatches_on_state_only (app : Application) (w : World) :
  direction (priv w) = Receive ->
  (forall p q,
     ptype p <> Error -> ptype q <> Error -> content p = content q ->
     step app (PacketReceived p) w = step app (PacketReceived q) w) /\
  (forall p,
     ptype p <> Error ->
     onPacketReceived app p w =
       match protocolState (priv w) with
       | TransferHeader => processTransferHeader app p w
       | ItemHeader => processItemHeader app p w
       | ItemContent => processItemContent p w
       | Finished => Some (tt, w, [])
       end) /\
  (forall p errorString,
     ptype p <> Error ->
     fromJson app (content p) = Json.ParseError errorString ->
     forall prefix,
       (protocolState (priv w) = TransferHeader /\ prefix = "transfer header: ") \/
       (protocolState (priv w) = ItemHeader /\ prefix = "item header: ") ->
       exists w',
         step app (PacketReceived p) w =
           Some (w', failureTrace (arg1 prefix errorString EmptyString))) /\
  (forall p w' t m,
     ptype p <> Error ->
     protocolState (priv w) = TransferHeader ->
     step app (PacketReceived p) w = Some (w', t) ->
     In (Emit (ErrorChanged m)) t ->
     exists errorString,
       fromJson app (content p) = Json.ParseError errorString /\
       m = arg1 "transfer header: " errorString EmptyString) /\
  (forall p doc,
     ptype p <> Error ->
     protocolState (priv w) = ItemHeader ->
     fromJson app (content p) = Json.ParseOk doc ->
     let type := headerType (Json.object doc) in
     match handlerRegistry_find app type with
     | None =>
         exists w',
           step app (PacketReceived p) w =
             Some (w', failureTrace
                         (arg1 (tr "unrecognized item type " ++ dquote) type dquote))
     | Some h =>
         let new := createItem h type (Json.object doc) in
         alive new = true ->
         if openWrite new
         then exists w' t,
                step app (PacketReceived p) w = Some (w', t) /\
                Trace.raisesError t = false
         else exists w',
                step app (PacketReceived p) w =
                  Some (w', failureTrace
                              (arg1 (tr "unable to open " ++ dquote) (name new)
                                 (dquote ++ " for writing")))
     end) /\
  (forall p a it,
     ptype p <> Error ->
     protocolState (priv w) = ItemContent ->
     currentItem (priv w) = Some a ->
     items w !! a = Some it ->
     alive it = true ->
     progressDefined (bytesTotal (priv w))
       (MachineInt.qint64_add (bytesTransferred (priv w))
          (byteLength (content p))) ->
     exists w' t it',
       step app (PacketReceived p) w = Some (w', t) /\
       items w' !! a = Some it' /\
       written it' = (written it ++ [content p])%list) /\
  (forall p w' t,
     step app (PacketReceived p) w = Some (w', t) ->
     ~ In (SendPacket (mkPacket Error (toUtf8 unexpectedPacket))) t /\
     (ptype p <> Error -> ~ In (Emit (ErrorChanged unexpectedPacket)) t)).
Proof.
  intros Hd. split; [| split; [| split; [| split; [| split; [| split]]]]].
  - intros [tp cp] [tq cq] Hp Hq Hc. cbn in Hc. subst cq.
    unfold step, handle. rewrite !receiver_dispatch by assumption.
    reflexivity.
  - intros p Hp. apply receiver_dispatch; assumption.
  - intros p msg Hp Hparse prefix Hcase. unfold step, handle.
    rewrite receiver_dispatch by assumption.
    destruct Hcase as [[-> ->] | [-> ->]];
      unfold processTransferHeader, processItemHeader; rewrite Hparse;
      unfold_members; cbn; eexists; reflexivity.
  - intros p w' t m Hp Hs H Hin.
    eapply transfer_header_fails_only_on_parse; eassumption.
  - intros p doc Hp Hs Hdoc.
    exact (item_header_outcome app w p doc Hd Hp Hs Hdoc).
  - intros p a it Hp Hs Hc Hi Ha Hdef.
    eapply receiver_writes_content; eassumption.
  - intros p w' t H. eapply receiver_never_unexpected; eassumption.
Qed.

(** ** Concrete runs *)

Example number_5 : QtNumber.number 5 = "5".
Proof. reflexivity. Qed.

Example toInt_spaces : QtNumber.toInt " 42 " = 42.
Proof. reflexivity. Qed.

Example toLongLong_max : QtNumber.toLongLong "9223372036854775807" = 2 ^ 63 - 1.
Proof. reflexivity. Qed.

Example toLongLong_junk : QtNumber.toLongLong "12a" = 0.
Proof. reflexivity. Qed.

Example one_third : Double.div (Double.mk 1 0) (Double.mk 3 0)
                    = Some (Double.mk 6004799503160661 (-54)).
Proof. reflexivity. Qed.

(** Scenario S1 of the specification, receiver side. *)
Example single_small_file_received :
  run Demo.app
    [PacketReceived (mkPacket Json "header-one");
     PacketReceived (mkPacket Json "item-a");
     PacketReceived (mkPacket Binary "hello")] Demo.receiver
  = Some (mkWorld
            {| bundle := None; protocolState := ItemContent; direction := Receive;
               state := Succeeded; progress := 100; deviceName := "peer";
               error := EmptyString; itemIndex := 1; itemCount := 1;
               bytesTransferred := 5; bytesTotal := 5; currentItem := Some 0%nat;
               currentItemBytesTransferred := 5; currentItemBytesTotal := 5 |}
            [mkItem "a.txt" 5 true true [] ["hello"] false false],
          [Emit (DeviceNameChanged "peer"); Emit (ProgressChanged 100);
           SendPacket (mkPacket Success EmptyString);
           Emit (StateChanged Succeeded); TransportClose]).
Proof. reflexivity. Qed.

(** Scenario S1, sender side. *)
Example single_small_file_sent :
  run Demo.app
    [Connected; PacketSent; PacketSent; PacketReceived (mkPacket Success EmptyString)]
    Demo.sender
  = Some (mkWorld
            {| bundle := Some (mkBundle [0%nat] 5); protocolState := Finished;
               direction := Send; state := Succeeded; progress := 100;
               deviceName := EmptyString; error := EmptyString;
               itemIndex := 1; itemCount := 1;
               bytesTransferred := 5; bytesTotal := 5; currentItem := Some 0%nat;
               currentItemBytesTransferred := 5; currentItemBytesTotal := 5 |}
            [mkItem "a.txt" 5 true true [] [] false true],
          [Emit (StateChanged InProgress);
           SendPacket (mkPacket Json "json"); SendPacket (mkPacket Json "json");
           SendPacket (mkPacket Binary "hello"); Emit (ProgressChanged 100);
           Emit (StateChanged Succeeded); TransportClose]).
Proof. reflexivity. Qed.

(** A cancel in the middle of an item's content leaves that item open. *)
Example cancel_leaves_item_open :
  currentItemOpen Demo.receivingContent = true /\
  exists w t,
    step Demo.app Cancel Demo.receivingContent = Some (w, t) /\
    state (priv w) = Failed /\ protocolState (priv w) = Finished /\
    currentItemOpen w = true.
Proof. split; [reflexivity |]. eexists _, _. repeat split; reflexivity. Qed.

(** A header without [size] leaves the total at 0. *)
Example header_without_size :
  bytesTotal (priv Demo.receiverWithoutTotal) = 0 /\
  protocolState (priv Demo.receiverWithoutTotal) = ItemHeader.
Proof. split; reflexivity. Qed.

(** *** C1 *)

(** C1, counterexample: a transport error does send an [Error] packet. *)
Lemma transport_error_sends_error_packet :
  exists w t,
    step Demo.app (TransportError "connection lost") Demo.receiver = Some (w, t) /\
    peerReported (TransportError "connection lost") = false /\
    In (Emit (ErrorChanged "connection lost")) t /\
    In (SendPacket (mkPacket Error "connection lost")) t.
Proof. eexists _, _. repeat split; cbn; auto 10. Qed.

Lemma error_packet_unless_peer_reported_witness :
  exists w t,
    step Demo.app Cancel Demo.receiver = Some (w, t) /\
    In (SendPacket (mkPacket Error (toUtf8 "transfer cancelled"))) t.
Proof.
  eexists _, _. split; [reflexivity |].
  exact (error_packet_unless_peer_reported Demo.app Cancel Demo.receiver _ _
           "transfer cancelled" eq_refl
           ltac:(cbn; auto 10)).
Defined.

(** *** C2 *)

(** C2, counterexample: a count of 2^31, well below 2^63 - 1, is lost. *)
Lemma header_count_beyond_int_lost :
  QtNumber.number (2 ^ 31) = "2147483648" /\
  2 ^ 31 <= 2 ^ 63 - 1 /\
  fromJson Demo.app "header-many"
    = Json.ParseOk (Json.DocObject (Demo.header "peer" "2147483648" "5")) /\
  exists w t,
    step Demo.app (PacketReceived (mkPacket Json "header-many")) Demo.receiver
      = Some (w, t) /\
    itemCount (priv w) = 0 /\
    itemCount (priv w) <> 2 ^ 31.
Proof.
  split; [reflexivity |]. split; [lia |]. split; [reflexivity |].
  eexists _, _. split; [reflexivity |]. split; [reflexivity | discriminate].
Qed.

Lemma header_size_64bit_count_32bit_witness :
  exists w t,
    step Demo.app (PacketReceived (mkPacket Json "header-one")) Demo.receiver
      = Some (w, t) /\
    itemCount (priv w) = (if 1 <=? 2 ^ 31 - 1 then 1 else 0) /\
    bytesTotal (priv w) = 5.
Proof.
  apply (header_size_64bit_count_32bit Demo.app Demo.receiver
           (mkPacket Json "header-one")
           (Json.DocObject (Demo.header "peer" "1" "5")) 1 5);
    first [reflexivity | discriminate | lia].
Defined.

(** *** C3 *)

Lemma failedReceiver_reachable : reachable Demo.app Demo.failedReceiver.
Proof. exists None, [], [Cancel]. eexists. reflexivity. Defined.

(** C3, counterexample: [cancel()] on a failed transfer is not a no-op;
    it notifies and sends again. *)
Lemma cancel_after_failure_not_noop :
  reachable Demo.app Demo.failedReceiver /\
  state (priv Demo.failedReceiver) = Failed /\
  exists w t,
    step Demo.app Cancel Demo.failedReceiver = Some (w, t) /\
    Trace.silent t = false /\
    In (Emit (StateChanged Failed)) t /\
    In (SendPacket (mkPacket Error "transfer cancelled")) t.
Proof.
  split; [exact failedReceiver_reachable |]. split; [reflexivity |].
  eexists _, _. repeat split; cbn; auto 10.
Qed.

Lemma terminal_state_quiet_events_witness :
  step Demo.app PacketSent Demo.failedReceiver = Some (Demo.failedReceiver, []) /\
  step Demo.app (PacketReceived (mkPacket Binary "late"))
    Demo.failedReceiver = Some (Demo.failedReceiver, []).
Proof.
  destruct (terminal_state_quiet_events Demo.app Demo.failedReceiver
              failedReceiver_reachable eq_refl) as (Hsent & Hrecv & _).
  split; [exact Hsent |].
  apply Hrecv; [reflexivity | reflexivity | discriminate].
Defined.

(** *** C4 *)

(** C4, counterexample: two cancels close the transport twice. *)
Lemma transport_closed_twice :
  exists w t,
    run Demo.app [Cancel; Cancel] Demo.receiver = Some (w, t) /\
    Trace.closes t = 2%nat.
Proof. eexists _, _. split; reflexivity. Qed.

Lemma transport_closed_once_per_terminal_transition_witness :
  exists w t,
    step Demo.app Cancel Demo.failedReceiver = Some (w, t) /\
    Trace.closes t = 1%nat /\
    Trace.endsWithTerminalClose t = Some (state (priv w)).
Proof.
  eexists _, _. split; [reflexivity |].
  destruct (transport_closed_once_per_terminal_transition Demo.app
              [Cancel] Cancel Demo.receiver Demo.failedReceiver _ _ _
              eq_refl eq_refl) as [_ [[H _] | (H1 & _ & H2)]].
  - discriminate H.
  - split; [exact H1 | exact H2].
Defined.

(** *** C5 *)

(** C5, counterexample: after the transfer header the receiver is in
    [ItemHeader] and no item is open. *)
Lemma no_item_open_in_item_header :
  exists w t,
    run Demo.app [PacketReceived (mkPacket Json "header-one")] Demo.receiver
      = Some (w, t) /\
    Trace.raisesError t = false /\
    protocolState (priv w) = ItemHeader /\
    currentItemOpen w = false.
Proof. eexists _, _. repeat split; reflexivity. Qed.

Lemma item_open_iff_content_and_closed_on_advance_witness :
  currentItemOpen Demo.receivingContent = true <->
  protocolState (priv Demo.receivingContent) = ItemContent.
Proof.
  assert (Hrun : run Demo.app
            [PacketReceived (mkPacket Json "header-one");
             PacketReceived (mkPacket Json "item-a")] (newTransfer None [])
          = Some (Demo.receivingContent, [Emit (DeviceNameChanged "peer")]))
    by (vm_compute; reflexivity).
  apply (item_open_iff_content_and_closed_on_advance Demo.app None [] _ _ _
           Hrun eq_refl).
  vm_compute. discriminate.
Defined.

(** *** C6 *)

Lemma empty_bundle_not_completed_witness :
  (exists w t,
     step Demo.app (PacketReceived (mkPacket Json "header-empty")) Demo.receiver
       = Some (w, t) /\
     itemCount (priv w) = 0 /\
     state (priv w) = InProgress /\
     protocolState (priv w) = ItemHeader /\
     existsb Trace.isSend t = false) /\
  run Demo.app [Connected; PacketSent] Demo.emptySender = None.
Proof.
  destruct (empty_bundle_not_completed Demo.app (mkPacket Json "header-empty")
              (Json.DocObject (Demo.header "peer" "0" "0")) [] 0
              ltac:(discriminate) eq_refl eq_refl) as (Hrecv & _ & Hsend & _).
  split; [exact Hrecv | exact Hsend].
Defined.

(** *** C7 *)

(** C7, counterexample: a receiver whose transfer header said
    [size: -1] has a negative total, and after one byte of content its
    progress is -100, not 0; and with two bytes of 2^62 still missing, a
    packet of one byte leaves the progress at 100 and not at
    [floor (100 (2^62 - 1) / 2^62) = 99], because the conversion to
    [double] rounds 2^62 - 1 up to 2^62. *)
Lemma progress_not_floor :
  (exists w t,
     run Scenario.app Scenario.negativeTransfer Demo.receiver = Some (w, t) /\
     bytesTotal (priv w) = -1 /\
     bytesTransferred (priv w) = 1 /\
     progress (priv w) = -100 /\
     Signals.progressValues t = [-100]) /\
  (0 < bytesTotal (priv Scenario.almostAll) /\
   exists w t,
     step Demo.app (PacketReceived (mkPacket Binary "h")) Scenario.almostAll
       = Some (w, t) /\
     bytesTransferred (priv w) = 2 ^ 62 - 1 /\
     100 * bytesTransferred (priv w) / bytesTotal (priv w) = 99 /\
     progress (priv w) = 100 /\
     Signals.progressValues t = [100]).
Proof.
  split.
  - exists (Scenario.after Scenario.negativeTransfer Demo.receiver),
      (Scenario.output Scenario.negativeTransfer Demo.receiver).
    repeat (split; [vm_compute; reflexivity |]). vm_compute. reflexivity.
  - split; [vm_compute; reflexivity |].
    exists (Demo.after [PacketReceived (mkPacket Binary "h")] Scenario.almostAll),
      (Demo.output [PacketReceived (mkPacket Binary "h")] Scenario.almostAll).
    repeat (split; [vm_compute; reflexivity |]). vm_compute. reflexivity.
Qed.

Lemma progress_is_floor_in_exact_range_witness :
  exists w' t,
    step Demo.app (PacketReceived (mkPacket Binary "he")) Demo.receivingContent
      = Some (w', t) /\
    bytesTransferred (priv w') = 2 /\
    bytesTotal (priv w') = 5 /\
    progress (priv w') = 40 /\
    Signals.progressValues t = [40].
Proof.
  destruct (progress_is_floor_in_exact_range Demo.app) as [H _].
  destruct (H (PacketReceived (mkPacket Binary "he")) Demo.receivingContent 0%nat
              (mkItem "a.txt" 5 true true [] [] true true) "he"
              ltac:(vm_compute; reflexivity) ltac:(vm_compute; reflexivity)
              ltac:(vm_compute; reflexivity) ltac:(reflexivity)
              ltac:(right; split; [vm_compute; reflexivity |];
                    exists Binary; split; [discriminate | reflexivity])
              ltac:(right; vm_compute; repeat split;
                    first [reflexivity | discriminate]))
    as (w' & t & Hstep & HB & HT & HP & HV).
  exists w', t. split; [exact Hstep |].
  split; [rewrite HB; vm_compute; reflexivity |].
  split; [rewrite HT; vm_compute; reflexivity |].
  split; [rewrite HP; vm_compute; reflexivity |].
  rewrite HV. vm_compute. reflexivity.
Defined.

(** *** C8 *)

Lemma item_header_type_rule_witness :
  exists type : QString,
    type = "directory" /\
    exists w,
      step Demo.app (PacketReceived (mkPacket Json "item-dir"))
        (Demo.receiverWithoutTotal) =
      Some (w, let message :=
                 arg1 (tr "unrecognized item type " ++ dquote) type dquote in
               [Log MessageTag message;
                SendPacket (mkPacket Error (toUtf8 message));
                Emit (ErrorChanged message);
                Emit (StateChanged Failed);
                TransportClose]).
Proof.
  destruct (item_header_type_rule Demo.app Demo.receiverWithoutTotal
              (mkPacket Json "item-dir")
              (Json.DocObject
                 (<["name" := JString "d"]> (<["directory" := JBool true]> ∅)))
              eq_refl eq_refl ltac:(discriminate) eq_refl)
    as (type & _ & Hdir & _ & Hnone & _).
  exists type.
  assert (E : type = "directory") by (apply Hdir; [reflexivity | discriminate]).
  split; [exact E |].
  apply Hnone. rewrite E. reflexivity.
Defined.

(** *** C9 *)

(** C9, counterexample: a [Binary] packet that arrives while an item
    header is expected and whose payload is valid JSON naming a type
    without a handler: the transfer fails, and not with a parse-error
    message. *)
Lemma item_header_fails_without_parse_error :
  let w := Demo.after [PacketReceived (mkPacket Json "header-one")] Demo.receiver in
  let message := arg1 (tr "unrecognized item type " ++ dquote) "widget" dquote in
  direction (priv w) = Receive /\
  protocolState (priv w) = ItemHeader /\
  (exists doc, fromJson Demo.app "item-widget" = Json.ParseOk doc) /\
  (exists w',
     step Demo.app (PacketReceived (mkPacket Binary "item-widget")) w
       = Some (w', failureTrace message)) /\
  forall errorString, message <> arg1 "item header: " errorString EmptyString.
Proof.
  intros w message.
  split; [vm_compute; reflexivity |]. split; [vm_compute; reflexivity |].
  split; [eexists; reflexivity |].
  split.
  - exists (Demo.after [PacketReceived (mkPacket Binary "item-widget")] w).
    vm_compute. reflexivity.
  - intros errorString H. vm_compute in H. discriminate H.
Qed.

Lemma receiver_dispatches_on_state_only_witness :
  exists w' t it',
    step Demo.app (PacketReceived (mkPacket Success "he")) Demo.receivingContent
      = Some (w', t) /\
    items w' !! 0%nat = Some it' /\
    written it' = ["he"].
Proof.
  destruct (receiver_dispatches_on_state_only Demo.app Demo.receivingContent
              ltac:(vm_compute; reflexivity)) as (_ & _ & _ & _ & _ & H & _).
  destruct (H (mkPacket Success "he") 0%nat
              (mkItem "a.txt" 5 true true [] [] true true)
              ltac:(discriminate) ltac:(vm_compute; reflexivity)
              ltac:(vm_compute; reflexivity) ltac:(vm_compute; reflexivity)
              ltac:(reflexivity) ltac:(vm_compute; discriminate))
    as (w' & t & it' & Hstep & Hit & Hw).
  exists w', t, it'. split; [exact Hstep |]. split; [exact Hit | exact Hw].
Defined.

(** *** C10 *)


(** * Further properties of the transfer *)

(** ** What one event can do *)

(** X1: Every handler sends at most one packet. *)
Theorem one_packet_per_event
    (app : Application) (e : Event) (w w' : World) (t : list Action) :
  step app e w = Some (w', t) -> (Signals.sends t <= 1)%nat.
Proof.
  intros H. destruct_world w.
  destruct e; crush_step; cbn; lia.
Qed.

(** X2: A handler that raises an error leaves the transfer failed and
    finished, with [error()] returning the message; the message was
    logged, and the handler ends with [ErrorChanged], then
    [StateChanged(Failed)], then [close()]. *)
Theorem failure_outcome
    (app : Application) (e : Event) (w w' : World) (t : list Action) (m : QString) :
  step app e w = Some (w', t) ->
  In (Emit (ErrorChanged m)) t ->
  error (priv w') = m /\
  state (priv w') = Failed /\
  protocolState (priv w') = Finished /\
  isFinished (priv w') = true /\
  In (Log MessageTag m) t /\
  Signals.failureTail t = Some m /\
  Signals.errorValues t = [m].
Proof.
  intros H Hin. destruct_world w.
  destruct e; crush_step; cbn in *;
    repeat match goal with
           | H : _ \/ _ |- _ => destruct H
           | H : False |- _ => destruct H
           end;
    simplify_eq; cbn; auto 10.
Qed.



(** X3: [Succeeded] is announced in two situations only: by a receiver that
    has just closed its last item, which sends the [Success] packet
    first; and by a sender in [Finished] that receives [Success], which
    sends nothing.  Either way the handler ends with
    [StateChanged(Succeeded)] and [close()]. *)
Theorem success_outcome
    (app : Application) (e : Event) (w w' : World) (t : list Action) :
  step app e w = Some (w', t) ->
  In (Emit (StateChanged Succeeded)) t ->
  state (priv w') = Succeeded /\
  Trace.endsWithTerminalClose t = Some Succeeded /\
  Trace.raisesError t = false /\
  match direction (priv w) with
  | Receive =>
      Signals.packets t = [mkPacket Success EmptyString] /\
      itemIndex (priv w') = itemCount (priv w') /\
      currentItemOpen w' = false
  | Send =>
      Signals.packets t = [] /\
      protocolState (priv w) = Finished /\
      exists p, e = PacketReceived p /\ ptype p = Success
  end.
Proof.
  intros H Hin. unfold currentItemOpen. destruct_world w.
  destruct e; crush_items; cbn in *;
    repeat match goal with
           | H : _ \/ _ |- _ => destruct H
           | H : False |- _ => destruct H
           | H : (_ =? _) = true |- _ => apply Z.eqb_eq in H
           end;
    simplify_eq; cbn; repeat split; eauto.
Qed.

(** X4: A receiver only ever sends [Success] and [Error] packets; a sender
    never sends [Success]. *)
Theorem packet_kinds_by_direction
    (app : Application) (e : Event) (w w' : World) (t : list Action) (p : Packet) :
  step app e w = Some (w', t) ->
  In (SendPacket p) t ->
  match direction (priv w) with
  | Receive => ptype p = Success \/ ptype p = Error
  | Send => ptype p = Json \/ ptype p = Binary \/ ptype p = Error
  end.
Proof.
  intros H Hin. destruct_world w.
  destruct e; crush_step; cbn in *;
    repeat match goal with
           | H : _ \/ _ |- _ => destruct H
           | H : False |- _ => destruct H
           end;
    simplify_eq; cbn; auto;
    match goal with |- match ?d with _ => _ end => destruct d; auto end.
Qed.

(** X5: What a sender does with an inbound packet that is not [Error]:
    [Success] while [Finished] completes the transfer without sending
    anything; every other packet is a protocol error, reported to the
    peer. *)
Theorem sender_inbound_packet
    (app : Application) (w : World) (p : Packet) :
  direction (priv w) = Send ->
  ptype p <> Error ->
  step app (PacketReceived p) w =
    if match protocolState (priv w), ptype p with
       | Finished, Success => true
       | _, _ => false
       end
    then Some (mkWorld (set_state Succeeded (priv w)) (items w),
               [Emit (StateChanged Succeeded); TransportClose])
    else Some (mkWorld (set_protocolState Finished
                          (set_state Failed (set_error unexpectedPacket (priv w))))
                       (items w),
               [Log MessageTag unexpectedPacket;
                SendPacket (mkPacket Error (toUtf8 unexpectedPacket));
                Emit (ErrorChanged unexpectedPacket);
                Emit (StateChanged Failed);
                TransportClose]).
Proof.
  intros Hd Hp. unfold_members.
  destruct (ptype p) eqn:Ep; try congruence; cbn; rewrite Hd;
    destruct (protocolState (priv w)); reflexivity.
Qed.



(** ** Notifications and getters *)

Lemma progressValues_app (t1 t2 : list Action) :
  Signals.progressValues (t1 ++ t2) =
  (Signals.progressValues t1 ++ Signals.progressValues t2)%list.
Proof.
  induction t1 as [|a t1 IH]; [reflexivity |].
  destruct a as [| | [] |]; cbn; rewrite ?IH; reflexivity.
Qed.

Lemma stateValues_app (t1 t2 : list Action) :
  Signals.stateValues (t1 ++ t2) =
  (Signals.stateValues t1 ++ Signals.stateValues t2)%list.
Proof.
  induction t1 as [|a t1 IH]; [reflexivity |].
  destruct a as [| | [] |]; cbn; rewrite ?IH; reflexivity.
Qed.

Lemma errorValues_app (t1 t2 : list Action) :
  Signals.errorValues (t1 ++ t2) =
  (Signals.errorValues t1 ++ Signals.errorValues t2)%list.
Proof.
  induction t1 as [|a t1 IH]; [reflexivity |].
  destruct a as [| | [] |]; cbn; rewrite ?IH; reflexivity.
Qed.

Lemma deviceNames_app (t1 t2 : list Action) :
  Signals.deviceNames (t1 ++ t2) =
  (Signals.deviceNames t1 ++ Signals.deviceNames t2)%list.
Proof.
  induction t1 as [|a t1 IH]; [reflexivity |].
  destruct a as [| | [] |]; cbn; rewrite ?IH; reflexivity.
Qed.

Lemma last_cons_default {A} (l : list A) (a d : A) :
  List.last (a :: l) d = List.last l a.
Proof.
  revert a d. induction l as [|b l IH]; intros a d; [reflexivity |].
  change (List.last (a :: b :: l) d) with (List.last (b :: l) d).
  rewrite (IH b d), (IH b a). reflexivity.
Qed.

Lemma last_app_default {A} (l1 l2 : list A) (d : A) :
  List.last (l1 ++ l2) d = List.last l2 (List.last l1 d).
Proof.
  revert d. induction l1 as [|a l1 IH]; intros d; [reflexivity |].
  change ((a :: l1) ++ l2)%list with (a :: (l1 ++ l2))%list.
  rewrite !last_cons_default. apply IH.
Qed.

Lemma step_progress_announced
    (app : Application) (e : Event) (w w' : World) (t : list Action) :
  step app e w = Some (w', t) ->
  (Signals.progressValues t = [] /\ progress (priv w') = progress (priv w)) \/
  (Signals.progressValues t = [progress (priv w')] /\
   progress (priv w') <> progress (priv w)).
Proof.
  intros H. destruct_world w.
  destruct e; crush_step; cbn;
    repeat match goal with
           | H : (_ =? _) = false |- _ => apply Z.eqb_neq in H
           end;
    auto.
Qed.

(** X6: [ProgressChanged] always carries a value different from the one
    before it, and [progress()] is the value announced last: over any
    sequence of events, the progress before it followed by the announced
    values never repeats a value twice in a row and ends with the current
    progress. *)
Theorem progress_announced_on_change_only
    (app : Application) (es : list Event) (w w' : World) (t : list Action) :
  run app es w = Some (w', t) ->
  Signals.changing (progress (priv w) :: Signals.progressValues t) /\
  List.last (Signals.progressValues t) (progress (priv w)) = progress (priv w').
Proof.
  revert w w' t. induction es as [|e es IH]; intros w w' t H; cbn in H.
  - simplify_eq. split; [exact I | reflexivity].
  - destruct (step app e w) as [[w1 t1]|] eqn:E1; [| discriminate].
    destruct (run app es w1) as [[w2 t2]|] eqn:E2; [| discriminate].
    simplify_eq. rewrite progressValues_app, last_app_default.
    destruct (IH _ _ _ E2) as [Hc Hl].
    destruct (step_progress_announced _ _ _ _ _ E1) as [[-> Hp] | [-> Hp]].
    + cbn [List.app List.last]. rewrite <- Hp. split; assumption.
    + cbn [List.app List.last]. split; [| exact Hl].
      cbn [Signals.changing]. split; [congruence | exact Hc].
Qed.

Lemma step_state_error_announced
    (app : Application) (e : Event) (w w' : World) (t : list Action) :
  step app e w = Some (w', t) ->
  List.last (Signals.stateValues t) (state (priv w)) = state (priv w') /\
  List.last (Signals.errorValues t) (error (priv w)) = error (priv w').
Proof.
  intros H. destruct_world w.
  destruct e; crush_step; cbn; auto.
Qed.

(** X7: [state()] and [error()] always return what was announced last:
    every assignment to them is accompanied by its signal. *)
Theorem state_and_error_are_the_last_announced
    (app : Application) (es : list Event) (w w' : World) (t : list Action) :
  run app es w = Some (w', t) ->
  List.last (Signals.stateValues t) (state (priv w)) = state (priv w') /\
  List.last (Signals.errorValues t) (error (priv w)) = error (priv w').
Proof.
  revert w w' t. induction es as [|e es IH]; intros w w' t H; cbn in H.
  - simplify_eq. split; reflexivity.
  - destruct (step app e w) as [[w1 t1]|] eqn:E1; [| discriminate].
    destruct (run app es w1) as [[w2 t2]|] eqn:E2; [| discriminate].
    simplify_eq. rewrite stateValues_app, errorValues_app, !last_app_default.
    destruct (step_state_error_announced _ _ _ _ _ E1) as [-> ->].
    apply (IH _ _ _ E2).
Qed.


Lemma step_deviceNameSettled
    (app : Application) (e : Event) (w w' : World) (t : list Action)
    (names : list QString) :
  step app e w = Some (w', t) ->
  deviceNameSettled w names ->
  deviceNameSettled w' (names ++ Signals.deviceNames t).
Proof.
  unfold deviceNameSettled. intros H HN. destruct_world w.
  destruct e; crush_step; cbn; rewrite ?app_nil_r;
    repeat match goal with
           | H : _ \/ _ |- _ => destruct H
           | H : _ /\ _ |- _ => destruct H
           end;
    subst; cbn in *; try congruence;
    try match goal with
        | H : negb (isEmpty ?n) = _ |- _ => destruct n; cbn in H; try discriminate
        end;
    first [ left; repeat split; congruence
          | right; split; [right; congruence | left; split; congruence]
          | right; split; [right; congruence | right; repeat split; congruence]
          | right; split; [left; congruence | left; split; congruence]
          | right; split; [left; congruence | right; repeat split; congruence] ].
Qed.

Lemma run_deviceNameSettled
    (app : Application) (es : list Event) (w w' : World) (t : list Action)
    (names : list QString) :
  run app es w = Some (w', t) ->
  deviceNameSettled w names ->
  deviceNameSettled w' (names ++ Signals.deviceNames t).
Proof.
  revert w w' t names.
  induction es as [|e es IH]; intros w w' t names H HN; cbn in H.
  - simplify_eq. cbn. rewrite app_nil_r. assumption.
  - destruct (step app e w) as [[w1 t1]|] eqn:E1; [| discriminate].
    destruct (run app es w1) as [[w2 t2]|] eqn:E2; [| discriminate].
    simplify_eq. rewrite deviceNames_app, List.app_assoc.
    eapply IH; [eassumption |].
    eapply step_deviceNameSettled; eassumption.
Qed.

(** X8: Over the whole life of a transfer [DeviceNameChanged] is emitted at
    most once, only by a receiver, with a non-empty name, and
    [deviceName()] is that name (the empty string if none was
    announced). *)
Theorem device_name_announced_at_most_once
    (app : Application) (b : option Bundle) (objects : list Item)
    (es : list Event) (w : World) (t : list Action) :
  run app es (newTransfer b objects) = Some (w, t) ->
  (Signals.deviceNames t = [] /\ deviceName (priv w) = EmptyString) \/
  (Signals.deviceNames t = [deviceName (priv w)] /\
   deviceName (priv w) <> EmptyString /\
   direction (priv w) = Receive).
Proof.
  intros Hrun.
  assert (H0 : deviceNameSettled (newTransfer b objects) []).
  { unfold deviceNameSettled, newTransfer, newTransferPrivate; cbn.
    destruct b; [right | left]; auto 10. }
  pose proof (run_deviceNameSettled _ _ _ _ _ _ Hrun H0) as HN.
  cbn [List.app] in HN. unfold deviceNameSettled in HN.
  destruct HN as [(_ & _ & Hn & Hd) | [_ HN]]; [left; auto | exact HN].
Qed.

(** ** Counters *)

Lemma step_contentPending
    (app : Application) (e : Event) (w w' : World) (t : list Action) :
  step app e w = Some (w', t) -> contentPending w -> contentPending w'.
Proof.
  unfold contentPending, stillTransferring. intros H HC. destruct_world w.
  destruct e; crush_step; cbn in *; intros;
    repeat match goal with
           | H : (_ =? _) = true |- _ => apply Z.eqb_eq in H
           | H : (_ =? _) = false |- _ => apply Z.eqb_neq in H
           | H : (_ <=? _) = true |- _ => apply Z.leb_le in H
           | H : (_ <=? _) = false |- _ => apply Z.leb_gt in H
           end;
    first [ congruence | lia | solve [auto]
          | apply HC; [congruence | intros; congruence]
          | exfalso; match goal with X : _ -> _ <> _ |- _ => apply X; congruence end ].
Qed.

Lemma run_contentPending
    (app : Application) (es : list Event) (w w' : World) (t : list Action) :
  run app es w = Some (w', t) -> contentPending w -> contentPending w'.
Proof.
  revert w w' t. induction es as [|e es IH]; intros w w' t H HC; cbn in H.
  - simplify_eq. assumption.
  - destruct (step app e w) as [[w1 t1]|] eqn:E1; [| discriminate].
    destruct (run app es w1) as [[w2 t2]|] eqn:E2; [| discriminate].
    simplify_eq. eapply IH; [eassumption |].
    eapply step_contentPending; eassumption.
Qed.

(** X9: While a transfer is in [ItemContent] (a receiver that has not yet
    succeeded, or any sender), the current item is incomplete: fewer
    bytes have been accounted to it than its size.  The one exception is
    an item that declares a negative size, which sits in [ItemContent]
    with nothing accounted until its first content packet. *)
Theorem content_expected_only_while_incomplete
    (app : Application) (w : World) :
  reachable app w ->
  protocolState (priv w) = ItemContent ->
  (direction (priv w) = Receive -> state (priv w) <> Succeeded) ->
  currentItemBytesTransferred (priv w) < currentItemBytesTotal (priv w) \/
  (currentItemBytesTransferred (priv w) = 0 /\
   currentItemBytesTotal (priv w) < 0).
Proof.
  intros (b & objects & es & t & Hrun) Hs Hd.
  assert (H0 : contentPending (newTransfer b objects)).
  { unfold contentPending, newTransfer, newTransferPrivate; cbn. discriminate. }
  exact (run_contentPending _ _ _ _ _ Hrun H0 Hs Hd).
Qed.



Lemma int_add_small (a b : Z) :
  - 2 ^ 31 <= a + b < 2 ^ 31 -> MachineInt.int_add a b = a + b.
Proof. intros H. apply wrap_small; [lia | exact H]. Qed.

Lemma bundleItem_in_range (b : Bundle) (i : Z) (a : nat) :
  bundleItem b i = Some a -> 0 <= i < rowCount b.
Proof.
  unfold bundleItem, rowCount. intros H.
  destruct (Z.leb_spec 0 i); [| discriminate].
  apply lookup_lt_Some in H. lia.
Qed.

Lemma step_senderCursor
    (app : Application) (b : Bundle) (e : Event) (w w' : World) (t : list Action) :
  rowCount b <= MachineInt.int_max ->
  step app e w = Some (w', t) -> senderCursor b w -> senderCursor b w'.
Proof.
  unfold senderCursor, MachineInt.int_max.
  intros Hmax H (Hd & Hb & Hc & Hi & H1 & H2 & H3).
  destruct_world w. subst.
  destruct e; crush_step; cbn in *;
    repeat match goal with
           | H : bundleItem _ _ = Some _ |- _ =>
               pose proof (bundleItem_in_range _ _ _ H); revert H
           end; intros;
    try (specialize (H3 eq_refl)); try (specialize (H2 eq_refl));
    try (specialize (H1 eq_refl));
    try rewrite int_add_small in * by lia;
    repeat match goal with
           | H : (_ =? _) = true |- _ => apply Z.eqb_eq in H
           | H : (_ =? _) = false |- _ => apply Z.eqb_neq in H
           end;
    repeat split; intros; try congruence; try lia;
    first [ lia | intuition congruence | intuition lia ].
Qed.

Lemma run_senderCursor
    (app : Application) (b : Bundle) (es : list Event) (w w' : World)
    (t : list Action) :
  rowCount b <= MachineInt.int_max ->
  run app es w = Some (w', t) -> senderCursor b w -> senderCursor b w'.
Proof.
  intros Hmax. revert w w' t.
  induction es as [|e es IH]; intros w w' t H HS; cbn in H.
  - simplify_eq. assumption.
  - destruct (step app e w) as [[w1 t1]|] eqn:E1; [| discriminate].
    destruct (run app es w1) as [[w2 t2]|] eqn:E2; [| discriminate].
    simplify_eq. eapply IH; [eassumption |].
    eapply step_senderCursor; eassumption.
Qed.

Lemma bundleItem_valid (b : Bundle) (i : Z) :
  0 <= i < rowCount b -> bundleItem b i <> None.
Proof.
  unfold bundleItem, rowCount. intros H.
  destruct (Z.leb_spec 0 i); [| lia].
  intros Hn. apply lookup_ge_None in Hn. lia.
Qed.

(** X10: A sender's [itemIndex] stays within its bundle: between 0 and the
    row count, which [itemCount] keeps equal to.  For a non-empty bundle
    the row it is about to fetch ([ItemHeader]) or is streaming
    ([ItemContent]) is always a valid row, and in [ItemContent]
    [currentItem] is the item of that row. *)
Theorem sender_cursor_within_bundle
    (app : Application) (b : Bundle) (objects : list Item)
    (es : list Event) (w : World) (t : list Action) :
  rowCount b <= MachineInt.int_max ->
  run app es (newTransfer (Some b) objects) = Some (w, t) ->
  itemCount (priv w) = rowCount b /\
  0 <= itemIndex (priv w) <= rowCount b /\
  (protocolState (priv w) = ItemHeader -> rowCount b <> 0 ->
   bundleItem b (itemIndex (priv w)) <> None) /\
  (protocolState (priv w) = ItemContent ->
   bundleItem b (itemIndex (priv w)) <> None /\
   currentItem (priv w) = bundleItem b (itemIndex (priv w))).
Proof.
  intros Hmax Hrun.
  assert (H0 : senderCursor b (newTransfer (Some b) objects)).
  { unfold senderCursor, newTransfer, newTransferPrivate, rowCount; cbn.
    repeat split; try discriminate; lia. }
  destruct (run_senderCursor _ _ _ _ _ _ Hmax Hrun H0)
    as (_ & _ & Hc & Hi & _ & H2 & H3).
  split; [exact Hc |]. split; [exact Hi |]. split.
  - intros Hs Hne. apply bundleItem_valid.
    destruct (H2 Hs); [lia | contradiction].
  - intros Hs. destruct (H3 Hs) as [Hlt Hcur].
    split; [apply bundleItem_valid; lia | exact Hcur].
Qed.



(** X11: In the range where the double computation is exact and with no more
    bytes accounted than the total, [updateProgress] leaves a progress
    between 0 and 100, and it is 100 exactly when every byte has been
    accounted. *)
Theorem progress_within_0_100
    (w : World) :
  0 <= bytesTransferred (priv w) <= bytesTotal (priv w) ->
  0 < bytesTotal (priv w) ->
  100 * bytesTotal (priv w) < 2 ^ 53 ->
  exists w' t,
    updateProgress w = Some (tt, w', t) /\
    0 <= progress (priv w') <= 100 /\
    (progress (priv w') = 100 <->
     bytesTransferred (priv w) = bytesTotal (priv w)).
Proof.
  intros Hb Ht Hx.
  set (a := bytesTransferred (priv w)) in *. set (b := bytesTotal (priv w)) in *.
  assert (Hq0 : 0 <= 100 * a / b) by (apply Z.div_pos; lia).
  assert (Hq1 : 100 * a / b <= 100).
  { apply Z.div_le_upper_bound; lia. }
  assert (Hiff : 100 * a / b = 100 <-> a = b).
  { split.
    - intros Hq. destruct (Z.eq_dec a b) as [|Hne]; [assumption | exfalso].
      assert (100 * a / b < 100) by (apply Z.div_lt_upper_bound; lia). lia.
    - intros ->. apply Z.div_mul. lia. }
  assert (Hp : percentage a b = Some (100 * a / b)).
  { apply percentage_exact; unfold MachineInt.int_max; lia. }
  unfold_members. cbv beta iota. fold a b.
  destruct (Z.eqb_spec b 0) as [|_]; [lia |].
  rewrite Hp. cbv beta iota.
  destruct (_ =? progress (priv w)) eqn:E; cbv beta iota.
  - apply Z.eqb_eq in E. eexists _, _. split; [reflexivity |].
    rewrite <- E. auto.
  - eexists _, _. split; [reflexivity |]. cbn. auto.
Qed.

(** X12: A transfer header that is valid JSON is always accepted, whatever it
    contains: the receiver moves to [ItemHeader] without failing or
    sending anything.  A [count] or [size] that is missing or not a JSON
    string is read as 0, and a [name] that is missing, not a string or
    empty is not announced. *)
Theorem valid_json_transfer_header_accepted
    (app : Application) (w : World) (p : Packet) (doc : Json.QJsonDocument) :
  direction (priv w) = Receive ->
  protocolState (priv w) = TransferHeader ->
  ptype p <> Error ->
  fromJson app (content p) = Json.ParseOk doc ->
  let object := Json.object doc in
  exists w' t,
    step app (PacketReceived p) w = Some (w', t) /\
    protocolState (priv w') = ItemHeader /\
    state (priv w') = state (priv w) /\
    items w' = items w /\
    Signals.packets t = [] /\
    Trace.raisesError t = false /\
    ((forall s, object !! "count" <> Some (JString s)) -> itemCount (priv w') = 0) /\
    ((forall s, object !! "size" <> Some (JString s)) -> bytesTotal (priv w') = 0) /\
    ((forall s, s <> EmptyString -> object !! "name" <> Some (JString s)) ->
     deviceName (priv w') = EmptyString /\ Signals.deviceNames t = []).
Proof.
  intros Hd Hs Hp Hdoc object.
  unfold step, handle. rewrite receiver_dispatch by assumption.
  rewrite Hs. unfold processTransferHeader. rewrite Hdoc. fold object.
  assert (Hmiss : forall k,
            (forall s, object !! k <> Some (JString s)) ->
            Json.toString (Json.value object k) = EmptyString).
  { intros k Hk. unfold Json.value. destruct (object !! k) as [[]|] eqn:E;
      try reflexivity. exfalso. exact (Hk _ eq_refl). }
  assert (Hname : (forall s, s <> EmptyString -> object !! "name" <> Some (JString s)) ->
            Json.toString (Json.value object "name") = EmptyString).
  { intros Hk. unfold Json.value. destruct (object !! "name") as [[]|] eqn:E;
      try reflexivity. cbn. destruct s as [|c s]; [reflexivity |].
    exfalso. apply (Hk (String c s)); [discriminate | reflexivity]. }
  unfold_members.
  destruct (negb (isEmpty (Json.toString (Json.value object "name")))) eqn:En;
    cbn; eexists _, _; (split; [reflexivity |]); cbn;
    repeat split; intros;
    try match goal with
        | Hk : forall s : QString, _ <> Some (JString s) |- _ =>
            rewrite (Hmiss _ Hk); reflexivity
        end;
    try match goal with
        | Hk : forall s, s <> _ -> _ |- _ =>
            pose proof (Hname Hk) as Hn; rewrite Hn in *; cbn in *; congruence
        end.
Qed.



(** ** Items at the boundaries *)

(** X13: A sender's item of size 0 takes one [PacketSent]: the item is opened,
    its header is sent, and the sender advances at once, closing the item
    and never entering [ItemContent]; no byte is accounted. *)
Theorem sender_zero_size_item
    (app : Application) (w : World) (b : Bundle) (a : nat) (it : Item) :
  direction (priv w) = Send ->
  protocolState (priv w) = ItemHeader ->
  bundle (priv w) = Some b ->
  bundleItem b (itemIndex (priv w)) = Some a ->
  items w !! a = Some it ->
  alive it = true ->
  openRead it = true ->
  size it = 0 ->
  exists w',
    step app PacketSent w =
      Some (w', [SendPacket
                   (mkPacket Json (toJson app (objectToJson app (set_is_open true it))))]) /\
    items w' = <[a := set_is_open false it]> (items w) /\
    itemIndex (priv w') = MachineInt.int_add (itemIndex (priv w)) 1 /\
    protocolState (priv w') =
      (if itemIndex (priv w') =? itemCount (priv w) then Finished else ItemHeader) /\
    bytesTransferred (priv w') = bytesTransferred (priv w) /\
    state (priv w') = state (priv w).
Proof.
  intros Hd Hs Hb Hrow Hit Halive Hopen Hsize.
  pose proof (lookup_lt_Some _ _ _ Hit) as Hlt.
  destruct w as [[bn ps dir st pr dn er ii ic bt btot ci cbt cbtot] its].
  cbn in *. subst.
  unfold_members. cbn. rewrite Hrow. cbn.
  repeat first
    [ rewrite list_lookup_insert_eq by (rewrite ?length_insert; assumption)
    | rewrite Hit | rewrite Halive | rewrite Hopen | rewrite Hsize
    | rewrite list_insert_insert_eq
    | progress cbn ].
  destruct (MachineInt.int_add ii 1 =? ic) eqn:E; cbn;
    eexists; (split; [reflexivity |]); cbn; rewrite ?E; repeat split; reflexivity.
Qed.

(** X14: A receiver's item of size 0 takes only its header: the item is
    created, opened, closed and deleted while the header is handled, and
    no content packet is awaited.  If it was the last item the receiver
    sends [Success] and succeeds; otherwise it waits for the next item
    header and outputs nothing. *)
Theorem receiver_zero_size_item
    (app : Application) (w : World) (p : Packet) (doc : Json.QJsonDocument)
    (h : Handler) :
  direction (priv w) = Receive ->
  protocolState (priv w) = ItemHeader ->
  ptype p <> Error ->
  fromJson app (content p) = Json.ParseOk doc ->
  handlerRegistry_find app (headerType (Json.object doc)) = Some h ->
  let new := createItem h (headerType (Json.object doc)) (Json.object doc) in
  alive new = true ->
  openWrite new = true ->
  size new = 0 ->
  exists w' t,
    step app (PacketReceived p) w = Some (w', t) /\
    items w' = (items w ++ [set_alive false (set_is_open false new)])%list /\
    itemIndex (priv w') = MachineInt.int_add (itemIndex (priv w)) 1 /\
    bytesTransferred (priv w') = bytesTransferred (priv w) /\
    if itemIndex (priv w') =? itemCount (priv w)
    then t = [SendPacket (mkPacket Success EmptyString);
              Emit (StateChanged Succeeded); TransportClose] /\
         state (priv w') = Succeeded
    else t = [] /\
         protocolState (priv w') = ItemHeader /\
         state (priv w') = state (priv w).
Proof.
  intros Hd Hs Hp Hdoc Hh new Halive Hopen Hsize.
  unfold step, handle. rewrite receiver_dispatch by assumption.
  rewrite Hs. unfold processItemHeader. rewrite Hdoc, Hh. fold new.
  clearbody new. clear Hdoc Hh.
  assert (Hins : forall x (l : list Item) y,
            <[length l := y]> (l ++ [x])%list = (l ++ [y])%list).
  { intros x l y. rewrite insert_app_r_alt by lia.
    rewrite Nat.sub_diag. reflexivity. }
  destruct w as [[bn ps dir st pr dn er ii ic bt btot ci cbt cbtot] its].
  cbn in *. subst.
  unfold_members. cbn.
  repeat first
    [ rewrite (list_lookup_middle its [] _ _ eq_refl)
    | rewrite Hins | rewrite Halive | rewrite Hopen | rewrite Hsize
    | progress cbn ].
  destruct (MachineInt.int_add ii 1 =? ic) eqn:E; cbn;
    eexists _, _; (split; [reflexivity |]); cbn; rewrite ?E; repeat split; reflexivity.
Qed.

(** X15: A sender whose next item cannot be opened fails with
    [unable to open "<name>" for reading]: that message goes to the peer
    in an [Error] packet, no item header is sent, and no item is
    touched. *)
Theorem sender_item_open_failure
    (app : Application) (w : World) (b : Bundle) (a : nat) (it : Item) :
  direction (priv w) = Send ->
  protocolState (priv w) = ItemHeader ->
  bundle (priv w) = Some b ->
  bundleItem b (itemIndex (priv w)) = Some a ->
  items w !! a = Some it ->
  alive it = true ->
  openRead it = false ->
  let message :=
    arg1 (tr "unable to open " ++ dquote) (name it) (dquote ++ " for reading") in
  exists w',
    step app PacketSent w =
      Some (w', [Log MessageTag message;
                 SendPacket (mkPacket Error (toUtf8 message));
                 Emit (ErrorChanged message);
                 Emit (StateChanged Failed);
                 TransportClose]) /\
    items w' = items w /\
    error (priv w') = message /\
    itemIndex (priv w') = itemIndex (priv w).
Proof.
  intros Hd Hs Hb Hrow Hit Halive Hopen message.
  destruct_world w. subst.
  unfold_members. cbn. rewrite Hrow. cbn.
  repeat first [ rewrite Hit | rewrite Halive | rewrite Hopen | progress cbn ].
  eexists. repeat split; reflexivity.
Qed.

(** X16: A receiver that cannot open the item it has just created fails with
    [unable to open "<name>" for writing], reported to the peer; the
    item stays in the object store, neither opened nor deleted. *)
Theorem receiver_item_open_failure
    (app : Application) (w : World) (p : Packet) (doc : Json.QJsonDocument)
    (h : Handler) :
  direction (priv w) = Receive ->
  protocolState (priv w) = ItemHeader ->
  ptype p <> Error ->
  fromJson app (content p) = Json.ParseOk doc ->
  handlerRegistry_find app (headerType (Json.object doc)) = Some h ->
  let new := createItem h (headerType (Json.object doc)) (Json.object doc) in
  alive new = true ->
  openWrite new = false ->
  let message :=
    arg1 (tr "unable to open " ++ dquote) (name new) (dquote ++ " for writing") in
  exists w',
    step app (PacketReceived p) w =
      Some (w', [Log MessageTag message;
                 SendPacket (mkPacket Error (toUtf8 message));
                 Emit (ErrorChanged message);
                 Emit (StateChanged Failed);
                 TransportClose]) /\
    items w' = (items w ++ [new])%list /\
    currentItem (priv w') = Some (length (items w)) /\
    itemIndex (priv w') = itemIndex (priv w).
Proof.
  intros Hd Hs Hp Hdoc Hh new Halive Hopen message.
  unfold step, handle. rewrite receiver_dispatch by assumption.
  rewrite Hs. unfold processItemHeader. rewrite Hdoc, Hh. fold new.
  subst message. clearbody new. clear Hdoc Hh.
  destruct_world w. subst.
  unfold_members. cbn.
  repeat first
    [ rewrite (list_lookup_middle its [] _ _ eq_refl)
    | rewrite Halive | rewrite Hopen | progress cbn ].
  eexists. repeat split; reflexivity.
Qed.


(** ** Content, chunk by chunk *)

Lemma totalLength_nonneg (cs : list QByteArray) : 0 <= totalLength cs.
Proof.
  induction cs as [|c cs IH]; [cbn; lia |].
  change (totalLength (c :: cs)) with (byteLength c + totalLength cs).
  pose proof (byteLength_nonneg c). lia.
Qed.

Lemma packets_app (t1 t2 : list Action) :
  Signals.packets (t1 ++ t2) = (Signals.packets t1 ++ Signals.packets t2)%list.
Proof.
  induction t1 as [|a t1 IH]; [reflexivity |].
  destruct a; cbn; rewrite ?IH; reflexivity.
Qed.

Lemma content_step
    (app : Application) (w : World) (a : nat) (it : Item) (data : QByteArray) :
  direction (priv w) = Receive ->
  protocolState (priv w) = ItemContent ->
  currentItem (priv w) = Some a ->
  items w !! a = Some it ->
  alive it = true ->
  let B' := bytesTransferred (priv w) + byteLength data in
  let c' := currentItemBytesTransferred (priv w) + byteLength data in
  - 2 ^ 63 <= B' < 2 ^ 63 ->
  - 2 ^ 63 <= c' < 2 ^ 63 ->
  progressDefined (bytesTotal (priv w)) B' ->
  exists p tp,
    Signals.packets tp = [] /\ Trace.raisesError tp = false /\
    let it' := set_written (written it ++ [data])%list it in
    let d := set_progress p
               (set_currentItemBytesTransferred c'
                  (set_bytesTransferred B' (priv w))) in
    step app (contentReceived data) w =
      if currentItemBytesTotal (priv w) <=? c' then
        let d' := set_itemIndex (MachineInt.int_add (itemIndex d) 1) d in
        let its := <[a := set_alive false (set_is_open false it')]> (items w) in
        if itemIndex d' =? itemCount d'
        then Some (mkWorld (set_state Succeeded d') its,
                   (tp ++ [SendPacket (mkPacket Success EmptyString);
                           Emit (StateChanged Succeeded); TransportClose])%list)
        else Some (mkWorld (set_protocolState ItemHeader d') its, tp)
      else Some (mkWorld d (<[a := it']> (items w)), tp).
Proof.
  intros Hd Hs Hc Hi Ha B' c' HB Hc' Hdef.
  unfold progressDefined in Hdef.
  destruct (progressOf (bytesTotal (priv w)) B') as [q|] eqn:Hq; [| congruence].
  assert (Hp : ptype (mkPacket Binary data) <> Error) by discriminate.
  pose proof (content_result app w a it (mkPacket Binary data) q Hd Hp Hs Hc Hi Ha)
    as Hstep.
  cbv zeta in Hstep. cbn [content] in Hstep. subst B' c'.
  rewrite !qint64_add_small in Hstep by assumption.
  specialize (Hstep Hq).
  destruct (progress_trace q (progress (priv w))) as (Hpk & Her & _).
  exists q, (if q =? progress (priv w) then [] else [Emit (ProgressChanged q)]).
  split; [exact Hpk |]. split; [exact Her |]. exact Hstep.
Qed.

(** A receiver reassembles an item from any chunking of its content.
    Content packets are written to the current item in order and leave
    the receiver in [ItemContent] until the accounted bytes reach the
    item's size; the packet that reaches it closes and deletes the item
    and advances the cursor, and, if it was the last item, makes the
    receiver send [Success] and succeed. *)
Lemma receiver_chunks_run
    (app : Application) (chunks : list QByteArray) (final : QByteArray)
    (w : World) (a : nat) (it : Item) :
  direction (priv w) = Receive ->
  protocolState (priv w) = ItemContent ->
  currentItem (priv w) = Some a ->
  items w !! a = Some it ->
  alive it = true ->
  let n := totalLength chunks + byteLength final in
  - 2 ^ 63 <= bytesTransferred (priv w) ->
  - 2 ^ 63 <= currentItemBytesTransferred (priv w) ->
  bytesTransferred (priv w) + n < 2 ^ 63 ->
  currentItemBytesTransferred (priv w) + n < 2 ^ 63 ->
  currentItemBytesTransferred (priv w) + totalLength chunks
    < currentItemBytesTotal (priv w) ->
  currentItemBytesTotal (priv w) <= currentItemBytesTransferred (priv w) + n ->
  progressDefinedAlong (bytesTotal (priv w)) (bytesTransferred (priv w))
    (chunks ++ [final]) ->
  exists w' t,
    run app (map contentReceived (chunks ++ [final])) w = Some (w', t) /\
    items w' =
      <[a := set_alive false
               (set_is_open false
                  (set_written (written it ++ chunks ++ [final])%list it))]>
        (items w) /\
    bytesTransferred (priv w') = bytesTransferred (priv w) + n /\
    itemIndex (priv w') = MachineInt.int_add (itemIndex (priv w)) 1 /\
    Trace.raisesError t = false /\
    if itemIndex (priv w') =? itemCount (priv w)
    then Signals.packets t = [mkPacket Success EmptyString] /\
         state (priv w') = Succeeded
    else Signals.packets t = [] /\
         protocolState (priv w') = ItemHeader /\
         state (priv w') = state (priv w).
Proof.
  revert w it. induction chunks as [|c0 chunks IH];
    intros w it Hd Hs Hc Hi Ha n HB0 Hc0 HB Hcc Hlt Hge Hcomp; subst n;
    cbn [List.app progressDefinedAlong] in Hcomp; destruct Hcomp as [Hdef Hrest].
  - (* the completing packet *)
    cbn [totalLength fold_right] in *. cbn [List.app map run].
    destruct (content_step app w a it final Hd Hs Hc Hi Ha)
      as (p & tp & Hpk & Her & Hstep).
    { pose proof (byteLength_nonneg final). lia. }
    { pose proof (byteLength_nonneg final). lia. }
    { exact Hdef. }
    cbv zeta in Hstep. rewrite Hstep. clear Hstep.
    destruct (Z.leb_spec (currentItemBytesTotal (priv w))
                (currentItemBytesTransferred (priv w) + byteLength final));
      [| lia].
    destruct w as [[bn ps dir st pr dn er ii ic bt btot ci cbt cbtot] its].
    cbn in *.
    destruct (MachineInt.int_add ii 1 =? ic) eqn:E; cbn;
      eexists _, _; (split; [reflexivity |]); cbn; rewrite ?E, ?app_nil_r;
      rewrite ?packets_app, ?Hpk, ?raisesError_app, ?Her; cbn;
      repeat split; try reflexivity; lia.
  - (* one more chunk, the item still incomplete *)
    change (totalLength (c0 :: chunks)) with (byteLength c0 + totalLength chunks) in *.
    pose proof (byteLength_nonneg c0) as Hl0.
    pose proof (totalLength_nonneg chunks) as Hln.
    pose proof (byteLength_nonneg final) as Hlf.
    destruct (content_step app w a it c0 Hd Hs Hc Hi Ha)
      as (p & tp & Hpk & Her & Hstep); [lia | lia | |].
    { exact Hdef. }
    cbv zeta in Hstep.
    destruct (Z.leb_spec (currentItemBytesTotal (priv w))
                (currentItemBytesTransferred (priv w) + byteLength c0));
      [lia |].
    pose proof (lookup_lt_Some _ _ _ Hi) as Hlen.
    set (it1 := set_written (written it ++ [c0])%list it) in *.
    match type of Hstep with
    | _ = Some (?w1, _) =>
        destruct (IH w1 it1) as (w' & t & Hrun & Hits & Hbt & Hidx & Herr & Hfin)
    end;
      try (destruct w as [[bn ps dir st pr dn er ii ic bt btot ci cbt cbtot] its];
           cbn in *; first [assumption | reflexivity | lia
                           | apply list_lookup_insert_eq; assumption ]).
    exists w', (tp ++ t)%list.
    cbn [List.app map run]. rewrite Hstep.
    rewrite Hrun.
    destruct w as [[bn ps dir st pr dn er ii ic bt btot ci cbt cbtot] its].
    cbn in *.
    split; [reflexivity |].
    split.
    { rewrite Hits, list_insert_insert_eq. unfold it1. cbn.
      rewrite <- List.app_assoc. reflexivity. }
    split; [lia |]. split; [assumption |].
    split; [rewrite raisesError_app, Her, Herr; reflexivity |].
    rewrite packets_app, Hpk. cbn [List.app]. exact Hfin.
Qed.



(** What [read()] hands out next, and what is left. *)
Lemma send_step
    (app : Application) (w : World) (a : nat) (it : Item) :
  direction (priv w) = Send ->
  protocolState (priv w) = ItemContent ->
  currentItem (priv w) = Some a ->
  items w !! a = Some it ->
  alive it = true ->
  let data := match pending it with c :: _ => c | [] => EmptyString end in
  let it' := match pending it with _ :: r => set_pending r it | [] => it end in
  let B' := bytesTransferred (priv w) + byteLength data in
  let c' := currentItemBytesTransferred (priv w) + byteLength data in
  - 2 ^ 63 <= B' < 2 ^ 63 ->
  - 2 ^ 63 <= c' < 2 ^ 63 ->
  progressDefined (bytesTotal (priv w)) B' ->
  exists p tp,
    Signals.packets tp = [] /\ Trace.raisesError tp = false /\
    let d := set_progress p
               (set_currentItemBytesTransferred c'
                  (set_bytesTransferred B' (priv w))) in
    step app PacketSent w =
      if currentItemBytesTotal (priv w) <=? c' then
        let d' := set_itemIndex (MachineInt.int_add (itemIndex d) 1) d in
        Some (mkWorld
                (set_protocolState
                   (if itemIndex d' =? itemCount d' then Finished else ItemHeader) d')
                (<[a := set_is_open false it']> (items w)),
              SendPacket (mkPacket Binary data) :: tp)
      else Some (mkWorld d (<[a := it']> (items w)),
                 SendPacket (mkPacket Binary data) :: tp).
Proof.
  intros Hd Hs Hc Hi Ha data it' B' c' HB Hc' Hdef.
  unfold progressDefined in Hdef.
  destruct (progressOf (bytesTotal (priv w)) B') as [q|] eqn:Hq; [| congruence].
  pose proof (send_result app w a it q Hd Hs Hc Hi Ha) as Hstep.
  cbv zeta in Hstep. unfold nextChunk in Hstep. fold data in Hstep.
  subst B' c'.
  rewrite !qint64_add_small in Hstep by assumption.
  specialize (Hstep Hq).
  destruct (progress_trace q (progress (priv w))) as (Hpk & Her & _).
  exists q, (if q =? progress (priv w) then [] else [Emit (ProgressChanged q)]).
  split; [exact Hpk |]. split; [exact Her |]. exact Hstep.
Qed.

(** A sender streams the current item chunk by chunk: each [PacketSent]
    sends the next chunk [read()] returns as one [Binary] packet, in
    order, and the sender stays in [ItemContent] until the accounted
    bytes reach the item's size; the chunk that reaches it closes the
    item and advances the cursor, to [Finished] after the last item and
    to [ItemHeader] otherwise.  Chunks beyond that point are not read. *)
Lemma sender_chunks_run
    (app : Application) (chunks : list QByteArray) (final : QByteArray)
    (rest : list QByteArray) (w : World) (a : nat) (it : Item) :
  direction (priv w) = Send ->
  protocolState (priv w) = ItemContent ->
  currentItem (priv w) = Some a ->
  items w !! a = Some it ->
  alive it = true ->
  pending it = (chunks ++ final :: rest)%list ->
  let n := totalLength chunks + byteLength final in
  - 2 ^ 63 <= bytesTransferred (priv w) ->
  - 2 ^ 63 <= currentItemBytesTransferred (priv w) ->
  bytesTransferred (priv w) + n < 2 ^ 63 ->
  currentItemBytesTransferred (priv w) + n < 2 ^ 63 ->
  currentItemBytesTransferred (priv w) + totalLength chunks
    < currentItemBytesTotal (priv w) ->
  currentItemBytesTotal (priv w) <= currentItemBytesTransferred (priv w) + n ->
  progressDefinedAlong (bytesTotal (priv w)) (bytesTransferred (priv w))
    (chunks ++ [final]) ->
  exists w' t,
    run app (repeat PacketSent (S (length chunks))) w = Some (w', t) /\
    Signals.packets t = map (mkPacket Binary) (chunks ++ [final]) /\
    items w' = <[a := set_is_open false (set_pending rest it)]> (items w) /\
    bytesTransferred (priv w') = bytesTransferred (priv w) + n /\
    itemIndex (priv w') = MachineInt.int_add (itemIndex (priv w)) 1 /\
    protocolState (priv w') =
      (if itemIndex (priv w') =? itemCount (priv w) then Finished else ItemHeader) /\
    state (priv w') = state (priv w) /\
    Trace.raisesError t = false.
Proof.
  revert w it. induction chunks as [|c0 chunks IH];
    intros w it Hd Hs Hc Hi Ha Hpend n HB0 Hc0 HB Hcc Hlt Hge Hcomp; subst n;
    cbn [List.app progressDefinedAlong] in Hcomp; destruct Hcomp as [Hdef Hrest].
  - (* the completing chunk *)
    cbn [totalLength fold_right] in *. cbn [List.app] in Hpend.
    cbn [length repeat run List.app map].
    pose proof (byteLength_nonneg final) as Hlf.
    destruct (send_step app w a it Hd Hs Hc Hi Ha)
      as (p & tp & Hpk & Her & Hstep); rewrite ?Hpend; cbv zeta; try lia.
    { exact Hdef. }
    cbv zeta in Hstep. rewrite Hpend in Hstep. rewrite Hstep. clear Hstep.
    destruct (Z.leb_spec (currentItemBytesTotal (priv w))
                (currentItemBytesTransferred (priv w) + byteLength final));
      [| lia].
    destruct w as [[bn ps dir st pr dn er ii ic bt btot ci cbt cbtot] its].
    cbn in *.
    eexists _, _. split; [reflexivity |]. rewrite app_nil_r.
    unfold Trace.raisesError in *. cbn. rewrite Hpk.
    repeat split; try reflexivity; try assumption; lia.
  - (* one more chunk, the item still incomplete *)
    change (totalLength (c0 :: chunks)) with (byteLength c0 + totalLength chunks) in *.
    cbn [List.app] in Hpend.
    pose proof (byteLength_nonneg c0) as Hl0.
    pose proof (totalLength_nonneg chunks) as Hln.
    pose proof (byteLength_nonneg final) as Hlf.
    destruct (send_step app w a it Hd Hs Hc Hi Ha)
      as (p & tp & Hpk & Her & Hstep); rewrite ?Hpend; cbv zeta; try lia.
    { exact Hdef. }
    cbv zeta in Hstep. rewrite Hpend in Hstep.
    destruct (Z.leb_spec (currentItemBytesTotal (priv w))
                (currentItemBytesTransferred (priv w) + byteLength c0));
      [lia |].
    pose proof (lookup_lt_Some _ _ _ Hi) as Hlen.
    set (it1 := set_pending (chunks ++ final :: rest)%list it) in *.
    match type of Hstep with
    | _ = Some (?w1, _) =>
        destruct (IH w1 it1)
          as (w' & t & Hrun & Hpkts & Hits & Hbt & Hidx & Hps & Hst & Herr)
    end;
      try (destruct w as [[bn ps dir st pr dn er ii ic bt btot ci cbt cbtot] its];
           cbn in *; first [assumption | reflexivity | lia
                           | apply list_lookup_insert_eq; assumption ]).
    exists w', (SendPacket (mkPacket Binary c0) :: tp ++ t)%list.
    change (repeat PacketSent (S (length (c0 :: chunks))))
      with (PacketSent :: repeat PacketSent (S (length chunks))).
    cbn [run]. rewrite Hstep, Hrun.
    destruct w as [[bn ps dir st pr dn er ii ic bt btot ci cbt cbtot] its].
    cbn in *.
    split; [reflexivity |].
    split; [rewrite packets_app, Hpk, Hpkts; reflexivity |].
    split; [rewrite Hits, list_insert_insert_eq; reflexivity |].
    split; [lia |]. split; [assumption |]. split; [assumption |].
    split; [assumption |].
    rewrite raisesError_app, Her, Herr. reflexivity.
Qed.

(** X17: An item that runs dry before its size is reached stalls the sender:
    every further [PacketSent] sends an empty [Binary] packet and changes
    neither the counters, nor the item, nor the protocol state. *)
Theorem sender_drained_item_stalls
    (app : Application) (n : nat) (w : World) (a : nat) (it : Item) :
  direction (priv w) = Send ->
  protocolState (priv w) = ItemContent ->
  currentItem (priv w) = Some a ->
  items w !! a = Some it ->
  alive it = true ->
  pending it = [] ->
  currentItemBytesTransferred (priv w) < currentItemBytesTotal (priv w) ->
  - 2 ^ 63 <= bytesTransferred (priv w) < 2 ^ 63 ->
  - 2 ^ 63 <= currentItemBytesTransferred (priv w) < 2 ^ 63 ->
  progressDefined (bytesTotal (priv w)) (bytesTransferred (priv w)) ->
  exists w' t,
    run app (repeat PacketSent n) w = Some (w', t) /\
    Signals.packets t = repeat (mkPacket Binary EmptyString) n /\
    items w' = items w /\
    protocolState (priv w') = ItemContent /\
    bytesTransferred (priv w') = bytesTransferred (priv w) /\
    currentItemBytesTransferred (priv w') = currentItemBytesTransferred (priv w) /\
    itemIndex (priv w') = itemIndex (priv w) /\
    state (priv w') = state (priv w).
Proof.
  revert w. induction n as [|n IH];
    intros w Hd Hs Hc Hi Ha Hpend Hlt HB Hcc Hcomp.
  - exists w, []. cbn. repeat split; try reflexivity; assumption.
  - destruct (send_step app w a it Hd Hs Hc Hi Ha)
      as (p & tp & Hpk & Her & Hstep); rewrite ?Hpend; cbv zeta;
      change (byteLength EmptyString) with 0; rewrite ?Z.add_0_r; try assumption.
    cbv zeta in Hstep. rewrite Hpend in Hstep.
    change (byteLength EmptyString) with 0 in Hstep. rewrite !Z.add_0_r in Hstep.
    destruct (Z.leb_spec (currentItemBytesTotal (priv w))
                (currentItemBytesTransferred (priv w))); [lia |].
    assert (Hid : <[a := it]> (items w) = items w) by (apply list_insert_id; exact Hi).
    rewrite Hid in Hstep.
    match type of Hstep with
    | _ = Some (?w1, _) =>
        destruct (IH w1)
          as (w' & t & Hrun & Hpkts & Hits & Hps & Hbt & Hcbt & Hidx & Hst)
    end;
      try (destruct w as [[bn ps dir st pr dn er ii ic bt btot ci cbt cbtot] its];
           cbn in *; assumption).
    exists w', (SendPacket (mkPacket Binary EmptyString) :: tp ++ t)%list.
    cbn [repeat run]. rewrite Hstep, Hrun.
    destruct w as [[bn ps dir st pr dn er ii ic bt btot ci cbt cbtot] its].
    cbn in *.
    split; [reflexivity |].
    split; [rewrite packets_app, Hpk, Hpkts; reflexivity |].
    repeat split; assumption.
Qed.



(** ** An item from header to close *)

Lemma send_header_step
    (app : Application) (w : World) (b : Bundle) (a : nat) (it : Item) :
  direction (priv w) = Send ->
  protocolState (priv w) = ItemHeader ->
  bundle (priv w) = Some b ->
  bundleItem b (itemIndex (priv w)) = Some a ->
  items w !! a = Some it ->
  alive it = true ->
  openRead it = true ->
  size it <> 0 ->
  step app PacketSent w =
    Some (mkWorld
            (set_protocolState ItemContent
               (set_currentItemBytesTotal (size it)
                  (set_currentItemBytesTransferred 0
                     (set_currentItem (Some a) (priv w)))))
            (<[a := set_is_open true it]> (items w)),
          [SendPacket
             (mkPacket Json (toJson app (objectToJson app (set_is_open true it))))]).
Proof.
  intros Hd Hs Hb Hrow Hit Halive Hopen Hsize.
  pose proof (lookup_lt_Some _ _ _ Hit) as Hlt.
  apply Z.eqb_neq in Hsize.
  destruct w as [[bn ps dir st pr dn er ii ic bt btot ci cbt cbtot] its].
  cbn in Hd, Hs, Hb, Hrow, Hit, Hlt. subst.
  unfold_members. cbn. rewrite Hrow. cbn.
  repeat first
    [ rewrite list_lookup_insert_eq by (rewrite ?length_insert; assumption)
    | rewrite Hit | rewrite Halive | rewrite Hopen | rewrite Hsize
    | rewrite list_insert_insert_eq
    | progress cbn ].
  reflexivity.
Qed.

Lemma receive_header_step
    (app : Application) (w : World) (p : Packet) (doc : Json.QJsonDocument)
    (h : Handler) :
  direction (priv w) = Receive ->
  protocolState (priv w) = ItemHeader ->
  ptype p <> Error ->
  fromJson app (content p) = Json.ParseOk doc ->
  handlerRegistry_find app (headerType (Json.object doc)) = Some h ->
  let new := createItem h (headerType (Json.object doc)) (Json.object doc) in
  alive new = true ->
  openWrite new = true ->
  size new <> 0 ->
  step app (PacketReceived p) w =
    Some (mkWorld
            (set_protocolState ItemContent
               (set_currentItemBytesTotal (size new)
                  (set_currentItemBytesTransferred 0
                     (set_currentItem (Some (length (items w))) (priv w)))))
            (items w ++ [set_is_open true new])%list,
          []).
Proof.
  intros Hd Hs Hp Hdoc Hh new Halive Hopen Hsize.
  apply Z.eqb_neq in Hsize.
  unfold step, handle. rewrite receiver_dispatch by assumption.
  rewrite Hs. unfold processItemHeader. rewrite Hdoc, Hh. fold new.
  clearbody new. clear Hdoc Hh.
  assert (Hins : forall x (l : list Item) y,
            <[length l := y]> (l ++ [x])%list = (l ++ [y])%list).
  { intros x l y. rewrite insert_app_r_alt by lia.
    rewrite Nat.sub_diag. reflexivity. }
  destruct w as [[bn ps dir st pr dn er ii ic bt btot ci cbt cbtot] its].
  cbn in Hd, Hs. subst.
  unfold_members. cbn.
  repeat first
    [ rewrite (list_lookup_middle its [] _ _ eq_refl)
    | rewrite Hins | rewrite Halive | rewrite Hopen | rewrite Hsize
    | progress cbn ].
  reflexivity.
Qed.

(** X18: A sender sends an item as its header followed by its content, chunk
    by chunk: the item is opened, the [Json] header is sent, then one
    [Binary] packet for each chunk [read()] returns, in order, until the
    accounted bytes reach the item's size; the item is then closed and
    the cursor advances, to [Finished] after the last item and to
    [ItemHeader] otherwise.  Chunks beyond the size are not read. *)
Theorem sender_sends_whole_item
    (app : Application) (chunks : list QByteArray) (final : QByteArray)
    (rest : list QByteArray) (w : World) (b : Bundle) (a : nat) (it : Item) :
  direction (priv w) = Send ->
  protocolState (priv w) = ItemHeader ->
  bundle (priv w) = Some b ->
  bundleItem b (itemIndex (priv w)) = Some a ->
  items w !! a = Some it ->
  alive it = true ->
  openRead it = true ->
  pending it = (chunks ++ final :: rest)%list ->
  let n := totalLength chunks + byteLength final in
  totalLength chunks < size it <= n ->
  0 <= bytesTransferred (priv w) ->
  bytesTransferred (priv w) + n < 2 ^ 63 ->
  progressDefinedAlong (bytesTotal (priv w)) (bytesTransferred (priv w))
    (chunks ++ [final]) ->
  exists w' t,
    run app (repeat PacketSent (S (S (length chunks)))) w = Some (w', t) /\
    Signals.packets t =
      mkPacket Json (toJson app (objectToJson app (set_is_open true it)))
        :: map (mkPacket Binary) (chunks ++ [final]) /\
    items w' = <[a := set_is_open false (set_pending rest it)]> (items w) /\
    bytesTransferred (priv w') = bytesTransferred (priv w) + n /\
    itemIndex (priv w') = MachineInt.int_add (itemIndex (priv w)) 1 /\
    protocolState (priv w') =
      (if itemIndex (priv w') =? itemCount (priv w) then Finished else ItemHeader) /\
    state (priv w') = state (priv w) /\
    Trace.raisesError t = false.
Proof.
  intros Hd Hs Hb Hrow Hit Halive Hopen Hpend n Hsz HB0 HB Hcomp. subst n.
  pose proof (totalLength_nonneg chunks) as Hln.
  pose proof (lookup_lt_Some _ _ _ Hit) as Hlt.
  assert (Hsize : size it <> 0) by lia.
  pose proof (send_header_step app w b a it Hd Hs Hb Hrow Hit Halive Hopen Hsize)
    as Hstep.
  match type of Hstep with
  | _ = Some (?w1, _) =>
      destruct (sender_chunks_run app chunks final rest w1 a (set_is_open true it))
        as (w' & t & Hrun & Hpk & Hits & Hbt & Hidx & Hps & Hst & Her)
  end;
    try (destruct w as [[bn ps dir st pr dn er ii ic bt btot ci cbt cbtot] its];
         cbn in *; first [assumption | reflexivity | lia
                         | apply list_lookup_insert_eq; assumption ]).
  exists w', (SendPacket
                (mkPacket Json (toJson app (objectToJson app (set_is_open true it))))
              :: t).
  change (repeat PacketSent (S (S (length chunks))))
    with (PacketSent :: repeat PacketSent (S (length chunks))).
  cbn [run]. rewrite Hstep, Hrun.
  destruct w as [[bn ps dir st pr dn er ii ic bt btot ci cbt cbtot] its].
  cbn in *.
  split; [reflexivity |].
  split; [rewrite Hpk; reflexivity |].
  split; [rewrite Hits, list_insert_insert_eq; reflexivity |].
  split; [lia |]. repeat split; assumption.
Qed.

(** X19: A receiver builds an item from its header and its content packets:
    the header creates the item through the handler of its type and
    opens it for writing; the content packets are written to it in
    order, whatever their sizes, until the accounted bytes reach the
    item's size; the packet that reaches it closes and deletes the item
    and advances the cursor, and, if it was the last item, makes the
    receiver send [Success] and succeed. *)
Theorem receiver_receives_whole_item
    (app : Application) (chunks : list QByteArray) (final : QByteArray)
    (w : World) (p : Packet) (doc : Json.QJsonDocument) (h : Handler) :
  direction (priv w) = Receive ->
  protocolState (priv w) = ItemHeader ->
  ptype p <> Error ->
  fromJson app (content p) = Json.ParseOk doc ->
  handlerRegistry_find app (headerType (Json.object doc)) = Some h ->
  let new := createItem h (headerType (Json.object doc)) (Json.object doc) in
  alive new = true ->
  openWrite new = true ->
  let n := totalLength chunks + byteLength final in
  totalLength chunks < size new <= n ->
  0 <= bytesTransferred (priv w) ->
  bytesTransferred (priv w) + n < 2 ^ 63 ->
  progressDefinedAlong (bytesTotal (priv w)) (bytesTransferred (priv w))
    (chunks ++ [final]) ->
  exists w' t,
    run app (PacketReceived p :: map contentReceived (chunks ++ [final])) w
      = Some (w', t) /\
    items w' =
      (items w ++
       [set_alive false
          (set_is_open false
             (set_written (written new ++ chunks ++ [final])%list new))])%list /\
    bytesTransferred (priv w') = bytesTransferred (priv w) + n /\
    itemIndex (priv w') = MachineInt.int_add (itemIndex (priv w)) 1 /\
    Trace.raisesError t = false /\
    if itemIndex (priv w') =? itemCount (priv w)
    then Signals.packets t = [mkPacket Success EmptyString] /\
         state (priv w') = Succeeded
    else Signals.packets t = [] /\
         protocolState (priv w') = ItemHeader /\
         state (priv w') = state (priv w).
Proof.
  intros Hd Hs Hp Hdoc Hh new Halive Hopen n Hsz HB0 HB Hcomp. subst n.
  pose proof (totalLength_nonneg chunks) as Hln.
  assert (Hsize : size new <> 0) by lia.
  pose proof (receive_header_step app w p doc h Hd Hs Hp Hdoc Hh Halive Hopen Hsize)
    as Hstep.
  fold new in Hstep. clearbody new.
  match type of Hstep with
  | _ = Some (?w1, _) =>
      destruct (receiver_chunks_run app chunks final w1 (length (items w))
                  (set_is_open true new))
        as (w' & t & Hrun & Hits & Hbt & Hidx & Her & Hfin)
  end;
    try (destruct w as [[bn ps dir st pr dn er ii ic bt btot ci cbt cbtot] its];
         cbn in *; first [assumption | reflexivity | lia
                         | apply (list_lookup_middle its [] _ _ eq_refl) ]).
  exists w', t.
  cbn [run]. rewrite Hstep, Hrun.
  destruct w as [[bn ps dir st pr dn er ii ic bt btot ci cbt cbtot] its].
  cbn in *.
  split; [reflexivity |].
  split.
  { rewrite Hits, insert_app_r_alt by lia. rewrite Nat.sub_diag. reflexivity. }
  split; [lia |]. split; [assumption |]. split; assumption.
Qed.

(** X20: What a sender sends for an item, delivered in order to a receiver
    that is waiting for an item header, rebuilds the item on the other
    side: provided the receiver can read the header and its handler
    creates a writable item of the same size, the receiver writes to the
    new item exactly the chunks the sender has read from its own, in the
    same order, accounts the same number of bytes, and both sides close
    their item and move on to the next one without an error. *)
Theorem item_round_trip
    (sender receiver : Application) (chunks : list QByteArray)
    (final : QByteArray) (rest : list QByteArray) (ws wr : World)
    (b : Bundle) (a : nat) (it : Item) (doc : Json.QJsonDocument) (h : Handler) :
  direction (priv ws) = Send ->
  protocolState (priv ws) = ItemHeader ->
  bundle (priv ws) = Some b ->
  bundleItem b (itemIndex (priv ws)) = Some a ->
  items ws !! a = Some it ->
  alive it = true ->
  openRead it = true ->
  pending it = (chunks ++ final :: rest)%list ->
  direction (priv wr) = Receive ->
  protocolState (priv wr) = ItemHeader ->
  fromJson receiver (toJson sender (objectToJson sender (set_is_open true it)))
    = Json.ParseOk doc ->
  handlerRegistry_find receiver (headerType (Json.object doc)) = Some h ->
  let new := createItem h (headerType (Json.object doc)) (Json.object doc) in
  alive new = true ->
  openWrite new = true ->
  size new = size it ->
  let n := totalLength chunks + byteLength final in
  totalLength chunks < size it <= n ->
  0 <= bytesTransferred (priv ws) ->
  bytesTransferred (priv ws) + n < 2 ^ 63 ->
  progressDefinedAlong (bytesTotal (priv ws)) (bytesTransferred (priv ws))
    (chunks ++ [final]) ->
  0 <= bytesTransferred (priv wr) ->
  bytesTransferred (priv wr) + n < 2 ^ 63 ->
  progressDefinedAlong (bytesTotal (priv wr)) (bytesTransferred (priv wr))
    (chunks ++ [final]) ->
  exists ws' ts wr' tr,
    run sender (repeat PacketSent (S (S (length chunks)))) ws = Some (ws', ts) /\
    run receiver (map PacketReceived (Signals.packets ts)) wr = Some (wr', tr) /\
    items ws' = <[a := set_is_open false (set_pending rest it)]> (items ws) /\
    items wr' =
      (items wr ++
       [set_alive false
          (set_is_open false
             (set_written (written new ++ chunks ++ [final])%list new))])%list /\
    bytesTransferred (priv ws') - bytesTransferred (priv ws)
      = bytesTransferred (priv wr') - bytesTransferred (priv wr) /\
    itemIndex (priv ws') = MachineInt.int_add (itemIndex (priv ws)) 1 /\
    itemIndex (priv wr') = MachineInt.int_add (itemIndex (priv wr)) 1 /\
    Trace.raisesError ts = false /\
    Trace.raisesError tr = false.
Proof.
  intros Hd Hs Hb Hrow Hit Halive Hopen Hpend Hd' Hs' Hdoc Hh new Halive' Hopen'
    Hsame n Hsz HB0 HB Hcomp HB0' HB' Hcomp'. subst n.
  pose proof (totalLength_nonneg chunks) as Hln.
  pose proof (lookup_lt_Some _ _ _ Hit) as Hlt.
  assert (Hsize : size it <> 0) by lia.
  assert (Hsize' : size new <> 0) by lia.
  set (header := mkPacket Json
                   (toJson sender (objectToJson sender (set_is_open true it)))).
  (* the sender *)
  pose proof (send_header_step sender ws b a it Hd Hs Hb Hrow Hit Halive Hopen Hsize)
    as Hstep.
  fold header in Hstep.
  match type of Hstep with
  | _ = Some (?w1, _) =>
      destruct (sender_chunks_run sender chunks final rest w1 a (set_is_open true it))
        as (ws' & ts & Hrun & Hpk & Hits & Hbt & Hidx & _ & _ & Her)
  end;
    try (destruct ws as [[bn ps dir st pr dn er ii ic bt btot ci cbt cbtot] its];
         cbn in *; first [assumption | reflexivity | lia
                         | apply list_lookup_insert_eq; assumption ]).
  (* the receiver *)
  assert (Hp : ptype header <> Error) by discriminate.
  pose proof (receive_header_step receiver wr header doc h Hd' Hs' Hp Hdoc Hh
                Halive' Hopen' Hsize') as Hstep'.
  fold new in Hstep'. clearbody new.
  match type of Hstep' with
  | _ = Some (?w1, _) =>
      destruct (receiver_chunks_run receiver chunks final w1 (length (items wr))
                  (set_is_open true new))
        as (wr' & tr & Hrun' & Hits' & Hbt' & Hidx' & Her' & _)
  end;
    try (destruct wr as [[bn ps dir st pr dn er ii ic bt btot ci cbt cbtot] its];
         cbn in *; first [assumption | reflexivity | lia
                         | apply (list_lookup_middle its [] _ _ eq_refl) ]).
  exists ws', (SendPacket header :: ts), wr', tr.
  change (repeat PacketSent (S (S (length chunks))))
    with (PacketSent :: repeat PacketSent (S (length chunks))).
  cbn [run]. rewrite Hstep, Hrun.
  change ([SendPacket header] ++ ts)%list with (SendPacket header :: ts).
  change (Signals.packets (SendPacket header :: ts))
    with (header :: Signals.packets ts).
  rewrite Hpk, map_cons, map_map.
  change (map (fun x => PacketReceived (mkPacket Binary x)) (chunks ++ [final]))
    with (map contentReceived (chunks ++ [final])).
  cbn [run]. rewrite Hstep', Hrun'.
  destruct ws as [[bn ps dir st pr dn er ii ic bt btot ci cbt cbtot] its].
  destruct wr as [[bn' ps' dir' st' pr' dn' er' ii' ic' bt' btot' ci' cbt' cbtot'] its'].
  cbn in *.
  split; [reflexivity |]. split; [reflexivity |].
  split; [rewrite Hits, list_insert_insert_eq; reflexivity |].
  split.
  { rewrite Hits', insert_app_r_alt by lia. rewrite Nat.sub_diag. reflexivity. }
  split; [lia |]. repeat split; assumption.
Qed.



(** ** The order of the protocol *)

Lemma step_protocol_order
    (app : Application) (e : Event) (w w' : World) (t : list Action) :
  step app e w = Some (w', t) ->
  direction (priv w') = direction (priv w) /\
  bundle (priv w') = bundle (priv w) /\
  (protocolState (priv w) <> TransferHeader ->
   protocolState (priv w') <> TransferHeader) /\
  (protocolState (priv w) = Finished -> protocolState (priv w') = Finished).
Proof.
  intros H. destruct_world w.
  destruct e; crush_step; cbn; repeat split; congruence.
Qed.

(** X21: The protocol only moves forward.  Over any sequence of events the
    direction and the bundle of a transfer stay what the constructor
    made them, [TransferHeader] is never entered again once it has been
    left, and [Finished] is never left. *)
Theorem protocol_moves_forward
    (app : Application) (es : list Event) (w w' : World) (t : list Action) :
  run app es w = Some (w', t) ->
  direction (priv w') = direction (priv w) /\
  bundle (priv w') = bundle (priv w) /\
  (protocolState (priv w) <> TransferHeader ->
   protocolState (priv w') <> TransferHeader) /\
  (protocolState (priv w) = Finished -> protocolState (priv w') = Finished).
Proof.
  revert w w' t. induction es as [|e es IH]; intros w w' t H; cbn in H.
  - simplify_eq. auto.
  - destruct (step app e w) as [[w1 t1]|] eqn:E1; [| discriminate].
    destruct (run app es w1) as [[w2 t2]|] eqn:E2; [| discriminate].
    simplify_eq.
    destruct (step_protocol_order _ _ _ _ _ E1) as (Hd & Hb & Hh & Hf).
    destruct (IH _ _ _ E2) as (Hd' & Hb' & Hh' & Hf').
    split; [congruence |]. split; [congruence |]. split; auto.
Qed.


(** ** The transfer header, from one side to the other *)

(** X22: The transfer header survives the trip.  On [connected] a new sender
    announces [InProgress] and sends its header; a new receiver that is
    handed this packet, and whose JSON reader returns the object the
    sender has written, ends up with the sender's item count, total size
    and device name, and both wait for the first item header.  The count
    must fit an [int]; the size is any [qint64]. *)
Theorem transfer_header_round_trip
    (sender receiver : Application) (b : Bundle) (objects objects' : list Item) :
  rowCount b <= MachineInt.int_max ->
  MachineInt.qint64_min <= totalSize b <= MachineInt.qint64_max ->
  let header := mkPacket Json (toJson sender (transferHeaderObject sender b)) in
  fromJson receiver (content header)
    = Json.ParseOk (Json.DocObject (transferHeaderObject sender b)) ->
  exists ws wr tr,
    step sender Connected (newTransfer (Some b) objects)
      = Some (ws, [Emit (StateChanged InProgress); SendPacket header]) /\
    step receiver (PacketReceived header) (newTransfer None objects')
      = Some (wr, tr) /\
    state (priv ws) = InProgress /\
    state (priv wr) = InProgress /\
    protocolState (priv ws) = ItemHeader /\
    protocolState (priv wr) = ItemHeader /\
    itemCount (priv wr) = rowCount b /\
    itemCount (priv ws) = rowCount b /\
    bytesTotal (priv wr) = totalSize b /\
    bytesTotal (priv ws) = totalSize b /\
    deviceName (priv wr) = app_deviceName sender /\
    tr = if isEmpty (app_deviceName sender) then []
         else [Emit (DeviceNameChanged (app_deviceName sender))].
Proof.
  intros Hc Hz header Hdoc.
  unfold MachineInt.int_max, MachineInt.qint64_min, MachineInt.qint64_max in Hc, Hz.
  assert (Hc0 : 0 <= rowCount b) by (unfold rowCount; lia).
  unfold step at 2, handle.
  rewrite receiver_dispatch by (reflexivity || discriminate).
  cbn [newTransfer newTransferPrivate priv protocolState].
  unfold processTransferHeader. rewrite Hdoc.
  cbn [Json.object]. unfold Json.value, transferHeaderObject.
  rewrite lookup_insert_eq.
  rewrite lookup_insert_ne by discriminate. rewrite lookup_insert_eq.
  rewrite !lookup_insert_ne by discriminate. rewrite lookup_insert_eq.
  cbn [Json.toString].
  rewrite toInt_number by lia. rewrite toLongLong_number by lia.
  subst header. unfold transferHeaderObject. clear Hdoc.
  unfold_members. cbn.
  destruct (app_deviceName sender); cbn;
    eexists _, _, _; repeat split; reflexivity.
Qed.


(** ** What a sender leaves alone *)

Lemma step_sender_contents
    (app : Application) (e : Event) (w w' : World) (t : list Action) :
  direction (priv w) = Send ->
  step app e w = Some (w', t) ->
  itemContents w' = itemContents w.
Proof.
  unfold itemContents. intros Hd H. destruct_world w. subst.
  destruct e; crush_items;
    repeat (rewrite list_fmap_insert; cbn);
    rewrite ?list_insert_insert_eq;
    try (apply list_insert_id; rewrite list_lookup_fmap;
         match goal with H : _ !! _ = Some _ |- _ => rewrite H end);
    reflexivity.
Qed.

(** X23: A sender never writes to an item, never deletes one and never
    creates one: over any sequence of events the object store keeps its
    length, and every item keeps what was written to it and stays alive
    or deleted as it was. *)
Theorem sender_never_writes_or_deletes
    (app : Application) (es : list Event) (w w' : World) (t : list Action) :
  direction (priv w) = Send ->
  run app es w = Some (w', t) ->
  length (items w') = length (items w) /\
  forall a it, items w !! a = Some it ->
    exists it', items w' !! a = Some it' /\
      written it' = written it /\ alive it' = alive it.
Proof.
  intros Hd Hrun.
  assert (Hc : itemContents w' = itemContents w).
  { revert w w' t Hd Hrun. induction es as [|e es IH]; intros w w' t Hd H; cbn in H.
    - simplify_eq. reflexivity.
    - destruct (step app e w) as [[w1 t1]|] eqn:E1; [| discriminate].
      destruct (run app es w1) as [[w2 t2]|] eqn:E2; [| discriminate].
      simplify_eq.
      rewrite (IH _ _ _ (eq_trans (proj1 (step_protocol_order _ _ _ _ _ E1)) Hd) E2).
      eapply step_sender_contents; eassumption. }
  unfold itemContents in Hc. split.
  - rewrite <- (length_map (fun it => (written it, alive it)) (items w')), Hc.
    apply length_map.
  - intros a it Hit.
    assert (Ha : map (fun it => (written it, alive it)) (items w') !! a
                 = Some (written it, alive it)).
    { rewrite Hc, list_lookup_fmap, Hit. reflexivity. }
    rewrite list_lookup_fmap in Ha.
    destruct (items w' !! a) as [it'|]; [| discriminate].
    exists it'. cbn in Ha. simplify_eq. auto.
Qed.

(** ** The properties at work *)

Ltac evaluate :=
  vm_compute; repeat split; first [reflexivity | discriminate].

Lemma one_packet_per_event_witness :
  (Signals.sends (Demo.output [Cancel] Demo.receiver) <= 1)%nat.
Proof.
  apply (one_packet_per_event Demo.app Cancel Demo.receiver Demo.failedReceiver).
  evaluate.
Defined.

Lemma failure_outcome_witness :
  error (priv Demo.failedReceiver) = "transfer cancelled" /\
  state (priv Demo.failedReceiver) = Failed /\
  protocolState (priv Demo.failedReceiver) = Finished /\
  isFinished (priv Demo.failedReceiver) = true /\
  In (Log MessageTag "transfer cancelled") (Demo.output [Cancel] Demo.receiver) /\
  Signals.failureTail (Demo.output [Cancel] Demo.receiver)
    = Some "transfer cancelled" /\
  Signals.errorValues (Demo.output [Cancel] Demo.receiver) = ["transfer cancelled"].
Proof.
  apply (failure_outcome Demo.app Cancel Demo.receiver).
  - evaluate.
  - vm_compute. auto 10.
Defined.

Lemma success_outcome_witness :
  let done := PacketReceived (mkPacket Binary "hello") in
  let w' := Demo.after [done] Demo.receivingContent in
  let t := Demo.output [done] Demo.receivingContent in
  state (priv w') = Succeeded /\
  Trace.endsWithTerminalClose t = Some Succeeded /\
  Trace.raisesError t = false /\
  Signals.packets t = [mkPacket Success EmptyString] /\
  itemIndex (priv w') = itemCount (priv w') /\
  currentItemOpen w' = false.
Proof.
  intros done w' t.
  apply (success_outcome Demo.app done Demo.receivingContent w' t).
  - evaluate.
  - vm_compute. auto 10.
Defined.

Lemma packet_kinds_by_direction_witness :
  ptype (mkPacket Error "transfer cancelled") = Success \/
  ptype (mkPacket Error "transfer cancelled") = Error.
Proof.
  apply (packet_kinds_by_direction Demo.app Cancel Demo.receiver
           Demo.failedReceiver (Demo.output [Cancel] Demo.receiver)).
  - evaluate.
  - vm_compute. auto 10.
Defined.

Lemma sender_inbound_packet_witness :
  exists w,
    step Demo.app (PacketReceived (mkPacket Success EmptyString))
      Scenario.connectedSender
    = Some (w, [Log MessageTag unexpectedPacket;
                SendPacket (mkPacket Error (toUtf8 unexpectedPacket));
                Emit (ErrorChanged unexpectedPacket);
                Emit (StateChanged Failed);
                TransportClose]).
Proof.
  eexists.
  rewrite (sender_inbound_packet Demo.app Scenario.connectedSender
             (mkPacket Success EmptyString));
    [reflexivity | evaluate | discriminate].
Defined.

Lemma progress_announced_on_change_only_witness :
  Signals.changing
    (progress (priv Demo.receiver)
     :: Signals.progressValues (Demo.output Scenario.wholeTransfer Demo.receiver)) /\
  List.last (Signals.progressValues (Demo.output Scenario.wholeTransfer Demo.receiver))
    (progress (priv Demo.receiver))
  = progress (priv (Demo.after Scenario.wholeTransfer Demo.receiver)).
Proof.
  apply (progress_announced_on_change_only Demo.app Scenario.wholeTransfer).
  evaluate.
Defined.

Lemma state_and_error_are_the_last_announced_witness :
  List.last (Signals.stateValues (Demo.output [Cancel] Demo.receiver))
    (state (priv Demo.receiver)) = state (priv Demo.failedReceiver) /\
  List.last (Signals.errorValues (Demo.output [Cancel] Demo.receiver))
    (error (priv Demo.receiver)) = error (priv Demo.failedReceiver).
Proof.
  apply (state_and_error_are_the_last_announced Demo.app [Cancel]).
  evaluate.
Defined.

Lemma device_name_announced_at_most_once_witness :
  (Signals.deviceNames (Demo.output Scenario.wholeTransfer Demo.receiver) = [] /\
   deviceName (priv (Demo.after Scenario.wholeTransfer Demo.receiver))
     = EmptyString) \/
  (Signals.deviceNames (Demo.output Scenario.wholeTransfer Demo.receiver)
     = [deviceName (priv (Demo.after Scenario.wholeTransfer Demo.receiver))] /\
   deviceName (priv (Demo.after Scenario.wholeTransfer Demo.receiver))
     <> EmptyString /\
   direction (priv (Demo.after Scenario.wholeTransfer Demo.receiver)) = Receive).
Proof.
  apply (device_name_announced_at_most_once Demo.app None []
           Scenario.wholeTransfer).
  evaluate.
Defined.

Lemma receivingContent_reachable : reachable Demo.app Demo.receivingContent.
Proof.
  exists None, [],
    [PacketReceived (mkPacket Json "header-one");
     PacketReceived (mkPacket Json "item-a")],
    [Emit (DeviceNameChanged "peer")].
  vm_compute. reflexivity.
Defined.

Lemma content_expected_only_while_incomplete_witness :
  currentItemBytesTransferred (priv Demo.receivingContent)
    < currentItemBytesTotal (priv Demo.receivingContent) \/
  (currentItemBytesTransferred (priv Demo.receivingContent) = 0 /\
   currentItemBytesTotal (priv Demo.receivingContent) < 0).
Proof.
  apply (content_expected_only_while_incomplete Demo.app Demo.receivingContent).
  - exact receivingContent_reachable.
  - evaluate.
  - intros _. evaluate.
Defined.

Lemma sender_cursor_within_bundle_witness :
  itemCount (priv Scenario.streamingSender) = rowCount Scenario.oneFile /\
  0 <= itemIndex (priv Scenario.streamingSender) <= rowCount Scenario.oneFile /\
  (protocolState (priv Scenario.streamingSender) = ItemHeader ->
   rowCount Scenario.oneFile <> 0 ->
   bundleItem Scenario.oneFile (itemIndex (priv Scenario.streamingSender)) <> None) /\
  (protocolState (priv Scenario.streamingSender) = ItemContent ->
   bundleItem Scenario.oneFile (itemIndex (priv Scenario.streamingSender)) <> None /\
   currentItem (priv Scenario.streamingSender)
     = bundleItem Scenario.oneFile (itemIndex (priv Scenario.streamingSender))).
Proof.
  apply (sender_cursor_within_bundle Scenario.app Scenario.oneFile [Demo.fileA]
           [Connected; PacketSent] Scenario.streamingSender
           (Scenario.output [Connected; PacketSent] Demo.sender)).
  - evaluate.
  - evaluate.
Defined.

Lemma progress_within_0_100_witness :
  exists w' t,
    updateProgress Demo.twoOfFive = Some (tt, w', t) /\
    0 <= progress (priv w') <= 100 /\
    (progress (priv w') = 100 <->
     bytesTransferred (priv Demo.twoOfFive) = bytesTotal (priv Demo.twoOfFive)).
Proof.
  apply (progress_within_0_100 Demo.twoOfFive); evaluate.
Defined.

Lemma valid_json_transfer_header_accepted_witness :
  let object : QJsonObject := <["count" := JString "1"]> ∅ in
  exists w' t,
    step Demo.app (PacketReceived (mkPacket Json "header-nosize")) Demo.receiver
      = Some (w', t) /\
    protocolState (priv w') = ItemHeader /\
    state (priv w') = state (priv Demo.receiver) /\
    items w' = items Demo.receiver /\
    Signals.packets t = [] /\
    Trace.raisesError t = false /\
    ((forall s, object !! "count" <> Some (JString s)) -> itemCount (priv w') = 0) /\
    ((forall s, object !! "size" <> Some (JString s)) -> bytesTotal (priv w') = 0) /\
    ((forall s, s <> EmptyString -> object !! "name" <> Some (JString s)) ->
     deviceName (priv w') = EmptyString /\ Signals.deviceNames t = []).
Proof.
  exact (valid_json_transfer_header_accepted Demo.app Demo.receiver
           (mkPacket Json "header-nosize")
           (Json.DocObject (<["count" := JString "1"]> ∅))
           ltac:(evaluate) ltac:(evaluate) ltac:(evaluate) ltac:(evaluate)).
Defined.


Lemma sender_zero_size_item_witness :
  exists w',
    step Scenario.app PacketSent Scenario.senderOfEmptyFile =
      Some (w', [SendPacket
                   (mkPacket Json
                      (toJson Scenario.app
                         (objectToJson Scenario.app
                            (set_is_open true Scenario.emptyFile))))]) /\
    items w' = <[0%nat := set_is_open false Scenario.emptyFile]>
                 (items Scenario.senderOfEmptyFile) /\
    itemIndex (priv w')
      = MachineInt.int_add (itemIndex (priv Scenario.senderOfEmptyFile)) 1 /\
    protocolState (priv w') =
      (if itemIndex (priv w') =? itemCount (priv Scenario.senderOfEmptyFile)
       then Finished else ItemHeader) /\
    bytesTransferred (priv w') = bytesTransferred (priv Scenario.senderOfEmptyFile) /\
    state (priv w') = state (priv Scenario.senderOfEmptyFile).
Proof.
  exact (sender_zero_size_item Scenario.app Scenario.senderOfEmptyFile
           (mkBundle [0%nat] 0) 0%nat Scenario.emptyFile
           ltac:(evaluate) ltac:(evaluate) ltac:(evaluate) ltac:(evaluate)
           ltac:(evaluate) ltac:(evaluate) ltac:(evaluate) ltac:(evaluate)).
Defined.

Lemma receiver_zero_size_item_witness :
  let doc := Json.DocObject (Scenario.itemObject "empty" "0") in
  let new :=
    createItem Demo.fileHandler (headerType (Json.object doc)) (Json.object doc) in
  exists w' t,
    step Scenario.app (PacketReceived (mkPacket Json "item-empty"))
      Scenario.awaitingItem = Some (w', t) /\
    items w' = (items Scenario.awaitingItem
                ++ [set_alive false (set_is_open false new)])%list /\
    itemIndex (priv w')
      = MachineInt.int_add (itemIndex (priv Scenario.awaitingItem)) 1 /\
    bytesTransferred (priv w') = bytesTransferred (priv Scenario.awaitingItem) /\
    if itemIndex (priv w') =? itemCount (priv Scenario.awaitingItem)
    then t = [SendPacket (mkPacket Success EmptyString);
              Emit (StateChanged Succeeded); TransportClose] /\
         state (priv w') = Succeeded
    else t = [] /\
         protocolState (priv w') = ItemHeader /\
         state (priv w') = state (priv Scenario.awaitingItem).
Proof.
  exact (receiver_zero_size_item Scenario.app Scenario.awaitingItem
           (mkPacket Json "item-empty")
           (Json.DocObject (Scenario.itemObject "empty" "0")) Demo.fileHandler
           ltac:(evaluate) ltac:(evaluate) ltac:(evaluate) ltac:(evaluate)
           ltac:(reflexivity) ltac:(evaluate) ltac:(evaluate) ltac:(evaluate)).
Defined.

Lemma sender_item_open_failure_witness :
  let message :=
    arg1 (tr "unable to open " ++ dquote) (name Scenario.lockedFile)
      (dquote ++ " for reading") in
  exists w',
    step Scenario.app PacketSent Scenario.senderOfLockedFile =
      Some (w', [Log MessageTag message;
                 SendPacket (mkPacket Error (toUtf8 message));
                 Emit (ErrorChanged message);
                 Emit (StateChanged Failed);
                 TransportClose]) /\
    items w' = items Scenario.senderOfLockedFile /\
    error (priv w') = message /\
    itemIndex (priv w') = itemIndex (priv Scenario.senderOfLockedFile).
Proof.
  exact (sender_item_open_failure Scenario.app Scenario.senderOfLockedFile
           Scenario.oneFile 0%nat Scenario.lockedFile
           ltac:(evaluate) ltac:(evaluate) ltac:(evaluate) ltac:(evaluate)
           ltac:(evaluate) ltac:(evaluate) ltac:(evaluate)).
Defined.

Lemma receiver_item_open_failure_witness :
  let doc :=
    Json.DocObject
      (<["type" := JString "locked"]> (Scenario.itemObject "secret" "5")) in
  let new :=
    createItem Scenario.lockedHandler (headerType (Json.object doc))
      (Json.object doc) in
  let message :=
    arg1 (tr "unable to open " ++ dquote) (name new) (dquote ++ " for writing") in
  exists w',
    step Scenario.app (PacketReceived (mkPacket Json "item-locked"))
      Scenario.awaitingItem =
      Some (w', [Log MessageTag message;
                 SendPacket (mkPacket Error (toUtf8 message));
                 Emit (ErrorChanged message);
                 Emit (StateChanged Failed);
                 TransportClose]) /\
    items w' = (items Scenario.awaitingItem ++ [new])%list /\
    currentItem (priv w') = Some (length (items Scenario.awaitingItem)) /\
    itemIndex (priv w') = itemIndex (priv Scenario.awaitingItem).
Proof.
  exact (receiver_item_open_failure Scenario.app Scenario.awaitingItem
           (mkPacket Json "item-locked")
           (Json.DocObject
              (<["type" := JString "locked"]> (Scenario.itemObject "secret" "5")))
           Scenario.lockedHandler
           ltac:(evaluate) ltac:(evaluate) ltac:(evaluate) ltac:(evaluate)
           ltac:(reflexivity) ltac:(evaluate) ltac:(evaluate)).
Defined.

Lemma sender_sends_whole_item_witness :
  let w := Scenario.chunkedSender in
  let it := Scenario.chunkedFile in
  let n := totalLength ["he"] + byteLength "llo" in
  exists w' t,
    run Scenario.app (repeat PacketSent (S (S (length ["he"])))) w = Some (w', t) /\
    Signals.packets t =
      mkPacket Json
        (toJson Scenario.app (objectToJson Scenario.app (set_is_open true it)))
        :: map (mkPacket Binary) (["he"] ++ ["llo"]) /\
    items w' = <[0%nat := set_is_open false (set_pending ["extra"] it)]> (items w) /\
    bytesTransferred (priv w') = bytesTransferred (priv w) + n /\
    itemIndex (priv w') = MachineInt.int_add (itemIndex (priv w)) 1 /\
    protocolState (priv w') =
      (if itemIndex (priv w') =? itemCount (priv w) then Finished else ItemHeader) /\
    state (priv w') = state (priv w) /\
    Trace.raisesError t = false.
Proof.
  exact (sender_sends_whole_item Scenario.app ["he"] "llo" ["extra"]
           Scenario.chunkedSender Scenario.oneFile 0%nat Scenario.chunkedFile
           ltac:(evaluate) ltac:(evaluate) ltac:(evaluate) ltac:(evaluate)
           ltac:(evaluate) ltac:(evaluate) ltac:(evaluate) ltac:(evaluate)
           ltac:(evaluate) ltac:(evaluate) ltac:(evaluate)
           ltac:(evaluate)).
Defined.

Lemma receiver_receives_whole_item_witness :
  let w := Scenario.awaitingItem in
  let doc := Json.DocObject (Scenario.itemObject "a.txt" "5") in
  let new :=
    createItem Demo.fileHandler (headerType (Json.object doc)) (Json.object doc) in
  let n := totalLength ["he"] + byteLength "llo" in
  exists w' t,
    run Scenario.app
      (PacketReceived (mkPacket Json "item-a")
       :: map contentReceived (["he"] ++ ["llo"])) w
      = Some (w', t) /\
    items w' =
      (items w ++
       [set_alive false
          (set_is_open false
             (set_written (written new ++ ["he"] ++ ["llo"])%list new))])%list /\
    bytesTransferred (priv w') = bytesTransferred (priv w) + n /\
    itemIndex (priv w') = MachineInt.int_add (itemIndex (priv w)) 1 /\
    Trace.raisesError t = false /\
    if itemIndex (priv w') =? itemCount (priv w)
    then Signals.packets t = [mkPacket Success EmptyString] /\
         state (priv w') = Succeeded
    else Signals.packets t = [] /\
         protocolState (priv w') = ItemHeader /\
         state (priv w') = state (priv w).
Proof.
  exact (receiver_receives_whole_item Scenario.app ["he"] "llo"
           Scenario.awaitingItem (mkPacket Json "item-a")
           (Json.DocObject (Scenario.itemObject "a.txt" "5")) Demo.fileHandler
           ltac:(evaluate) ltac:(evaluate) ltac:(evaluate) ltac:(evaluate)
           ltac:(reflexivity) ltac:(evaluate) ltac:(evaluate) ltac:(evaluate)
           ltac:(evaluate) ltac:(evaluate) ltac:(evaluate)).
Defined.

Lemma sender_drained_item_stalls_witness :
  let w := Scenario.drainedSender in
  exists w' t,
    run Scenario.app (repeat PacketSent 3) w = Some (w', t) /\
    Signals.packets t = repeat (mkPacket Binary EmptyString) 3 /\
    items w' = items w /\
    protocolState (priv w') = ItemContent /\
    bytesTransferred (priv w') = bytesTransferred (priv w) /\
    currentItemBytesTransferred (priv w') = currentItemBytesTransferred (priv w) /\
    itemIndex (priv w') = itemIndex (priv w) /\
    state (priv w') = state (priv w).
Proof.
  exact (sender_drained_item_stalls Scenario.app 3 Scenario.drainedSender 0%nat
           (set_is_open true Scenario.shortFile)
           ltac:(evaluate) ltac:(evaluate) ltac:(evaluate) ltac:(evaluate)
           ltac:(evaluate) ltac:(evaluate) ltac:(evaluate) ltac:(evaluate)
           ltac:(evaluate) ltac:(evaluate)).
Defined.

Lemma item_round_trip_witness :
  let ws := Scenario.chunkedSender in
  let wr := Scenario.awaitingItem in
  let it := Scenario.chunkedFile in
  let doc := Json.DocObject (Scenario.itemObject "a.txt" "5") in
  let new :=
    createItem Demo.fileHandler (headerType (Json.object doc)) (Json.object doc) in
  exists ws' ts wr' tr,
    run Scenario.app (repeat PacketSent (S (S (length ["he"])))) ws = Some (ws', ts) /\
    run Demo.app (map PacketReceived (Signals.packets ts)) wr = Some (wr', tr) /\
    items ws' = <[0%nat := set_is_open false (set_pending ["extra"] it)]> (items ws) /\
    items wr' =
      (items wr ++
       [set_alive false
          (set_is_open false
             (set_written (written new ++ ["he"] ++ ["llo"])%list new))])%list /\
    bytesTransferred (priv ws') - bytesTransferred (priv ws)
      = bytesTransferred (priv wr') - bytesTransferred (priv wr) /\
    itemIndex (priv ws') = MachineInt.int_add (itemIndex (priv ws)) 1 /\
    itemIndex (priv wr') = MachineInt.int_add (itemIndex (priv wr)) 1 /\
    Trace.raisesError ts = false /\
    Trace.raisesError tr = false.
Proof.
  exact (item_round_trip Scenario.app Demo.app ["he"] "llo" ["extra"]
           Scenario.chunkedSender Scenario.awaitingItem Scenario.oneFile 0%nat
           Scenario.chunkedFile
           (Json.DocObject (Scenario.itemObject "a.txt" "5")) Demo.fileHandler
           ltac:(evaluate) ltac:(evaluate) ltac:(evaluate) ltac:(evaluate)
           ltac:(evaluate) ltac:(evaluate) ltac:(evaluate) ltac:(evaluate)
           ltac:(evaluate) ltac:(evaluate) ltac:(evaluate) ltac:(reflexivity)
           ltac:(evaluate) ltac:(evaluate) ltac:(evaluate)
           ltac:(evaluate) ltac:(evaluate) ltac:(evaluate) ltac:(evaluate)
           ltac:(evaluate) ltac:(evaluate) ltac:(evaluate)).
Defined.

Lemma protocol_moves_forward_witness :
  let es := [PacketSent; PacketReceived (mkPacket Binary "late"); Cancel] in
  direction (priv (Demo.after es Demo.failedReceiver))
    = direction (priv Demo.failedReceiver) /\
  bundle (priv (Demo.after es Demo.failedReceiver))
    = bundle (priv Demo.failedReceiver) /\
  protocolState (priv (Demo.after es Demo.failedReceiver)) <> TransferHeader /\
  protocolState (priv (Demo.after es Demo.failedReceiver)) = Finished.
Proof.
  intros es.
  destruct (protocol_moves_forward Demo.app es Demo.failedReceiver
              (Demo.after es Demo.failedReceiver)
              (Demo.output es Demo.failedReceiver) ltac:(evaluate))
    as (Hd & Hb & Hh & Hf).
  split; [exact Hd |]. split; [exact Hb |].
  split; [apply Hh; evaluate | apply Hf; evaluate].
Defined.

Lemma transfer_header_round_trip_witness :
  let header :=
    mkPacket Json
      (toJson Scenario.app (transferHeaderObject Scenario.app Scenario.oneFile)) in
  exists ws wr tr,
    step Scenario.app Connected (newTransfer (Some Scenario.oneFile) [Demo.fileA])
      = Some (ws, [Emit (StateChanged InProgress); SendPacket header]) /\
    step Demo.app (PacketReceived header) (newTransfer None [])
      = Some (wr, tr) /\
    state (priv ws) = InProgress /\
    state (priv wr) = InProgress /\
    protocolState (priv ws) = ItemHeader /\
    protocolState (priv wr) = ItemHeader /\
    itemCount (priv wr) = rowCount Scenario.oneFile /\
    itemCount (priv ws) = rowCount Scenario.oneFile /\
    bytesTotal (priv wr) = totalSize Scenario.oneFile /\
    bytesTotal (priv ws) = totalSize Scenario.oneFile /\
    deviceName (priv wr) = app_deviceName Scenario.app /\
    tr = if isEmpty (app_deviceName Scenario.app) then []
         else [Emit (DeviceNameChanged (app_deviceName Scenario.app))].
Proof.
  exact (transfer_header_round_trip Scenario.app Demo.app Scenario.oneFile
           [Demo.fileA] []
           ltac:(evaluate) ltac:(evaluate) ltac:(evaluate)).
Defined.

Lemma sender_never_writes_or_deletes_witness :
  let w' := Scenario.after [Connected; PacketSent; PacketSent] Demo.sender in
  length (items w') = length (items Demo.sender) /\
  forall a it, items Demo.sender !! a = Some it ->
    exists it', items w' !! a = Some it' /\
      written it' = written it /\ alive it' = alive it.
Proof.
  exact (sender_never_writes_or_deletes Scenario.app
           [Connected; PacketSent; PacketSent] Demo.sender
           (Scenario.after [Connected; PacketSent; PacketSent] Demo.sender)
           (Scenario.output [Connected; PacketSent; PacketSent] Demo.sender)
           ltac:(evaluate) ltac:(evaluate)).
Defined.
